(** * Sandboxed file-operation kernel: path resolution, archive guard,
      atomic write and lock manager

    A shallow embedding of [src/core/security.py], [src/core/archive.py],
    [src/core/locking.py], [src/core/serialization.py] and the
    [FileManager] of [src/files/manager.py], together with the
    properties of the specification that concern them and further
    properties of the code.

    Conventions of the embedding:
    - Python [str] is [string]; [int] sizes are [N] (the sizes of a ZIP
      directory record and of [stat] are unsigned), depths are [Z].
    - The platform is POSIX: [os.path.sep] is ["/"] and [os.path] is
      [posixpath].
    - An absolute [pathlib.Path] is the list of its names below ["/"].
      [Path.resolve] is modelled on a file system without symbolic links,
      where it is purely lexical. [resolve_secure_path] has the
      [ValueError] that [Path.resolve] raises on a NUL character; the
      keys of the lock manager are formed for paths without one.
    - A [float] is the rational number that it stands for; the division
      of two [int] is rounded to binary64 as Python rounds it.
    - An archive is known by its directory records and by the length of
      the stream of every member; [zipfile] hands out at most the
      declared [file_size] of a stream, and the CRC that it tests at the
      end of a stream is taken to hold.
    - Exceptions are values of [exn]; a fallible function returns
      [result]. The specification's error kinds are read off an exception
      by [kind_of]. *)

From Stdlib Require Import ZArith NArith QArith Bool Ascii String List Lia.
From stdpp Require Import base option list strings gmap sorting.

Import ListNotations.
Local Open Scope string_scope.
Local Open Scope list_scope.

(** ** Exceptions and results *)

(** Where in [archive.py] an [ArchiveSecurityError] is raised. *)
Inductive archive_reason : Set :=
  | RatioTooHigh        (* validate_zip_entry: ratio > ZIP_MAX_RATIO *)
  | ZeroCompressed      (* validate_zip_entry: compress_size = 0 < file_size *)
  | TooManyFiles        (* validate_zip_file / safe_create_zip: file_count *)
  | TotalTooLarge       (* validate_zip_file / safe_create_zip: total size *)
  | BadZipFile          (* zipfile.BadZipFile, re-raised *)
  | DepthExceeded       (* safe_extract_zip: max_depth <= 0 *)
  | ZipSlip             (* safe_extract_zip: absolute name or ".." part *)
  | DestinationEscape   (* safe_extract_zip: entry resolves outside dest *)
  | StreamTooLarge      (* safe_extract_zip: bytes read exceed the cap *)
  | SourceNotFound      (* safe_create_zip: source is no file and no dir *)
  | CreateFailed.       (* safe_create_zip: writing the archive failed *)

(** Where a [ValueError] is raised. *)
Inductive value_reason : Set :=
  | BadFilename         (* validate_filename *)
  | ContentTooLarge     (* write_file: content above MAX_UPLOAD_SIZE *)
  | NotText             (* read_text: UnicodeDecodeError *)
  | EmptyName           (* with_suffix on a path without a name *)
  | EmbeddedNull.       (* Path.resolve: embedded null byte *)

Inductive exn : Set :=
  | PermissionError                       (* resolve_secure_path *)
  | ValueError (why : value_reason)
  | FileNotFoundError
  | OSError                               (* any uncaught error of the OS *)
  | RuntimeError                          (* release of an unlocked lock *)
  | TimeoutError
  | ArchiveSecurityError (why : archive_reason).

Inductive result (A : Type) : Type :=
  | Ok (a : A)
  | Raise (e : exn).
Arguments Ok {A} a.
Arguments Raise {A} e.

#[global] Instance result_ret : MRet result := fun _ a => Ok a.

#[global] Instance result_bind : MBind result := fun _ _ k r =>
  match r with
  | Ok a => k a
  | Raise e => Raise e
  end.

(** The error taxonomy of the specification. *)
Inductive error_kind : Set :=
  | SecurityViolation
  | InvalidName
  | QuotaExceeded
  | ResourceBusy
  | NotFound
  | MalformedArchive
  | OtherFailure.

Definition kind_of (e : exn) : error_kind :=
  match e with
  | PermissionError => SecurityViolation
  | ValueError BadFilename => InvalidName
  | ValueError ContentTooLarge => QuotaExceeded
  | ValueError _ => OtherFailure
  | FileNotFoundError => NotFound
  | OSError => OtherFailure
  | RuntimeError => OtherFailure
  | TimeoutError => ResourceBusy
  | ArchiveSecurityError ZipSlip => SecurityViolation
  | ArchiveSecurityError DestinationEscape => SecurityViolation
  | ArchiveSecurityError BadZipFile => MalformedArchive
  | ArchiveSecurityError SourceNotFound => NotFound
  | ArchiveSecurityError CreateFailed => OtherFailure
  | ArchiveSecurityError _ => QuotaExceeded
  end.

(** ** Configuration ([src/core/config.py]) *)

Record Config : Type := mkConfig {
  SANDBOX_ROOT : list string;      (* resolved, as names below "/" *)
  MAX_UPLOAD_SIZE : N;
  MAX_FILENAME_LENGTH : nat;
  ZIP_MAX_TOTAL_SIZE : N;
  ZIP_MAX_RATIO : Q;
  ZIP_MAX_FILES : N;
  ZIP_MAX_RECURSION_DEPTH : Z
}.

(** The defaults of [Config], with the sandbox at [/srv/sandbox]. *)
Definition default_config : Config := {|
  SANDBOX_ROOT := ["srv"; "sandbox"];
  MAX_UPLOAD_SIZE := 20971520;
  MAX_FILENAME_LENGTH := 255;
  ZIP_MAX_TOTAL_SIZE := 2147483648;
  ZIP_MAX_RATIO := 100 # 1;
  ZIP_MAX_FILES := 1000;
  ZIP_MAX_RECURSION_DEPTH := 5
|}.

(** ** POSIX paths ([posixpath], [pathlib]) *)

Module PosixPath.

Definition sep : string := "/".

Definition is_sep (c : ascii) : bool := Ascii.eqb c "/".

(** [s.split("/")] *)
Fixpoint split (s : string) : list string :=
  match s with
  | EmptyString => [EmptyString]
  | String c s' =>
      if is_sep c then EmptyString :: split s'
      else match split s' with
           | [] => [String c EmptyString]
           | w :: ws => String c w :: ws
           end
  end.

(** ["/".join(l)] *)
Definition join (l : list string) : string := String.concat sep l.

(** [s.startswith(p)] *)
Definition startswith (s p : string) : bool := String.prefix p s.

(** [s.lstrip("/")] *)
Fixpoint lstrip (s : string) : string :=
  match s with
  | String c s' => if is_sep c then lstrip s' else s
  | EmptyString => EmptyString
  end.

(** ["/" in s] *)
Fixpoint contains_sep (s : string) : bool :=
  match s with
  | String c s' => is_sep c || contains_sep s'
  | EmptyString => false
  end.

(** [chr(0) in s]: the character that no path handed to the
    operating system may hold. *)
Fixpoint has_nul (s : string) : bool :=
  match s with
  | String c s' => Ascii.eqb c Ascii.zero || has_nul s'
  | EmptyString => false
  end.

(** The loop of [posixpath.normpath] over the components. [stack] is
    [new_comps] with its last element first: [append] is a cons and
    [pop] drops the head. *)
Fixpoint normpath_loop (initial_slashes : nat) (stack comps : list string)
  : list string :=
  match comps with
  | [] => stack
  | comp :: rest =>
      if String.eqb comp "" || String.eqb comp "." then
        normpath_loop initial_slashes stack rest
      else if negb (String.eqb comp "..")
              || (Nat.eqb initial_slashes 0
                  && match stack with [] => true | _ => false end)
              || match stack with
                 | top :: _ => String.eqb top ".."
                 | [] => false
                 end
      then normpath_loop initial_slashes (comp :: stack) rest
      else match stack with
           | _ :: stack' => normpath_loop initial_slashes stack' rest
           | [] => normpath_loop initial_slashes stack rest
           end
  end.

(** [posixpath.normpath] *)
Definition normpath (path : string) : string :=
  if String.eqb path "" then "."
  else
    let initial_slashes :=
      if startswith path "/" then
        if startswith path "//" && negb (startswith path "///")
        then 2%nat else 1%nat
      else 0%nat in
    let comps := rev (normpath_loop initial_slashes [] (split path)) in
    let path' := join comps in
    let path' :=
      match initial_slashes with
      | O => path'
      | S O => "/" +:+ path'
      | _ => "//" +:+ path'
      end in
    if String.eqb path' "" then "." else path'.

(** [str(p)] for an absolute path [p]. *)
Definition str (p : list string) : string := "/" +:+ join p.

(** [base / s] for an absolute [base]: a string that starts with a
    separator replaces [base]; otherwise its components are appended,
    without the empty ones and the ["."] ones. *)
Definition keep_part (c : string) : bool :=
  negb (String.eqb c "" || String.eqb c ".").

Definition joinpath (base : list string) (s : string) : list string :=
  if startswith s "/" then List.filter keep_part (split s)
  else base ++ List.filter keep_part (split s).

(** [p.resolve()] for an absolute [p], with no symbolic link on the
    way: [".."] removes the name before it and is dropped at the
    root. [acc] holds the names so far, last first. *)
Fixpoint resolve_loop (acc names : list string) : list string :=
  match names with
  | [] => rev acc
  | n :: rest =>
      if String.eqb n ".." then resolve_loop (tail acc) rest
      else if String.eqb n "." then resolve_loop acc rest
      else resolve_loop (n :: acc) rest
  end.

Definition resolve (p : list string) : list string := resolve_loop [] p.

(** Whether [p.resolve()] raises [ValueError] (embedded null byte): the
    [lstat] of a name that holds a NUL character does. *)
Definition embedded_nul (p : list string) : bool := existsb has_nul p.

(** [name.rfind(".")] *)
Fixpoint rfind_dot (s : string) (pos : nat) (found : option nat)
  : option nat :=
  match s with
  | EmptyString => found
  | String c s' =>
      rfind_dot s' (S pos) (if Ascii.eqb c "." then Some pos else found)
  end.

(** [PurePath.suffix] and [PurePath.stem] of a name: the name is cut
    at its last dot, unless that dot is its first or its last
    character. *)
Definition cut (name : string) : option nat :=
  match rfind_dot name 0 None with
  | Some i =>
      if (0 <? i)%nat && (i <? String.length name - 1)%nat
      then Some i else None
  | None => None
  end.

Definition suffix (name : string) : string :=
  match cut name with
  | Some i => String.substring i (String.length name - i) name
  | None => ""
  end.

Definition stem (name : string) : string :=
  match cut name with
  | Some i => String.substring 0 i name
  | None => name
  end.

(** [p.with_suffix(sfx)] for a suffix that starts with a dot; [None]
    is the [ValueError] for a path with an empty name. *)
Definition with_suffix (p : list string) (sfx : string)
  : option (list string) :=
  match List.last p "" with
  | "" => None
  | name =>
      let old_suffix := suffix name in
      let name' :=
        if String.eqb old_suffix "" then name +:+ sfx
        else String.substring 0 (String.length name
                                 - String.length old_suffix) name +:+ sfx in
      Some (removelast p ++ [name'])
  end.

End PosixPath.

(** ** [src/core/security.py] *)

Section Security.

Variable config : Config.

(** [resolve_secure_path(relative_path, base_path=None)] *)
Definition resolve_secure_path
    (relative_path : string) (base_path : option (list string))
  : result (list string) :=
  let base_path :=
    match base_path with
    | None => SANDBOX_ROOT config
    | Some b => b
    end in
  let normalized := PosixPath.normpath relative_path in
  let normalized :=
    if PosixPath.contains_sep normalized
       && PosixPath.startswith normalized PosixPath.sep
    then PosixPath.lstrip normalized
    else normalized in
  let joined := PosixPath.joinpath base_path normalized in
  if PosixPath.embedded_nul joined || PosixPath.embedded_nul base_path
  then Raise (ValueError EmbeddedNull)
  else
    let full_path := PosixPath.resolve joined in
    let base_resolved := PosixPath.resolve base_path in
    if negb (PosixPath.startswith (PosixPath.str full_path)
                                  (PosixPath.str base_resolved))
    then Raise PermissionError
    else Ok full_path.

End Security.


(** Operations on [str] that [validate_filename] and the archive code
    use. *)
Module Names.

(** [s.upper()] and [s.lower()] on the ASCII letters. *)
Definition upper_ascii (c : ascii) : ascii :=
  let n := nat_of_ascii c in
  if (97 <=? n)%nat && (n <=? 122)%nat then ascii_of_nat (n - 32) else c.

Definition lower_ascii (c : ascii) : ascii :=
  let n := nat_of_ascii c in
  if (65 <=? n)%nat && (n <=? 90)%nat then ascii_of_nat (n + 32) else c.

Fixpoint map_string (f : ascii -> ascii) (s : string) : string :=
  match s with
  | EmptyString => EmptyString
  | String c s' => String (f c) (map_string f s')
  end.

Definition upper : string -> string := map_string upper_ascii.
Definition lower : string -> string := map_string lower_ascii.

(** [s.endswith(suffix)] *)
Definition endswith (s suffix : string) : bool :=
  let n := String.length s in
  let m := String.length suffix in
  (m <=? n)%nat && String.eqb (String.substring (n - m) m s) suffix.

(** [any(char in s for char in chars)] *)
Fixpoint has_char (chars : list ascii) (s : string) : bool :=
  match s with
  | EmptyString => false
  | String c s' => existsb (Ascii.eqb c) chars || has_char chars s'
  end.

(** The set [invalid_chars]: less-than, greater-than, colon, double
    quote (34), bar, question mark, star and backslash (92). *)
Definition invalid_chars : list ascii :=
  ["<"; ">"; ":"; ascii_of_nat 34; "|"; "?"; "*"; ascii_of_nat 92]%char.

Definition reserved_names : list string :=
  ["CON"; "PRN"; "AUX"; "NUL";
   "COM1"; "COM2"; "COM3"; "COM4"; "COM5"; "COM6"; "COM7"; "COM8"; "COM9";
   "LPT1"; "LPT2"; "LPT3"; "LPT4"; "LPT5"; "LPT6"; "LPT7"; "LPT8"; "LPT9"].

(** [os.path.basename(p)] *)
Definition basename (p : string) : string :=
  List.last (PosixPath.split p) "".

(** What a file opened for reading in text mode hands out (universal
    newlines): a carriage return followed by a line feed, and a
    carriage return alone, are read as one line feed. *)
Definition CR : ascii := ascii_of_nat 13.
Definition LF : ascii := ascii_of_nat 10.

Fixpoint universal_newlines (s : string) : string :=
  match s with
  | EmptyString => EmptyString
  | String c s' =>
      if Ascii.eqb c CR then
        match s' with
        | String c' s'' =>
            if Ascii.eqb c' LF then String LF (universal_newlines s'')
            else String LF (universal_newlines s')
        | EmptyString => String LF EmptyString
        end
      else String c (universal_newlines s')
  end.

End Names.

(** [validate_filename(filename)] *)
Definition validate_filename (config : Config) (filename : string)
  : result string :=
  let safe_name := Names.basename filename in
  if (MAX_FILENAME_LENGTH config <? String.length safe_name)%nat
  then Raise (ValueError BadFilename)
  else if Names.has_char Names.invalid_chars safe_name
  then Raise (ValueError BadFilename)
  else if existsb (String.eqb (Names.upper safe_name)) Names.reserved_names
  then Raise (ValueError BadFilename)
  else Ok safe_name.

(** ** The file system *)

(** A member of a ZIP archive as [zipfile] reports it: the name and the
    sizes declared in the directory record, and the stream of bytes
    that the member data decompress to. The stream is kept as its
    length and as the archive that [zipfile.ZipFile] finds in it
    ([None]: [BadZipFile]); the declared sizes need not agree with the
    stream. A name holds no NUL character in an archive that [zipfile]
    has read: it is cut at the first one. *)
#[warnings="-register-all"]
Inductive ZipInfo : Type := mkZipInfo {
  filename : string;
  file_size : N;
  compress_size : N;
  stream_size : N;
  stream_zip : option (list ZipInfo)
}.

(** What a regular file holds: text, or bytes known by their number and
    by their reading as a ZIP archive. *)
Inductive content : Type :=
  | Text (s : string)
  | Binary (size : N) (zip : option (list ZipInfo)).

Definition st_size (c : content) : N :=
  match c with
  | Text s => N.of_nat (String.length s)
  | Binary n _ => n
  end.

Definition as_zip (c : content) : option (list ZipInfo) :=
  match c with
  | Text _ => None
  | Binary _ z => z
  end.

Inductive node : Type :=
  | File (c : content)
  | Dir.

(** Absolute path to node; the root [[]] is a directory. *)
Abbreviation FS := (gmap (list string) node).

Module Fs.

Definition lookup (fs : FS) (p : list string) : option node :=
  match p with
  | [] => Some Dir
  | _ => fs !! p
  end.

Definition exists_ (fs : FS) (p : list string) : bool :=
  match lookup fs p with Some _ => true | None => false end.

Definition is_file (fs : FS) (p : list string) : bool :=
  match lookup fs p with Some (File _) => true | _ => false end.

Definition is_dir (fs : FS) (p : list string) : bool :=
  match lookup fs p with Some Dir => true | _ => false end.

Definition parent (p : list string) : list string := removelast p.

Definition name (p : list string) : string := List.last p "".

(** [p.mkdir(parents=True, exist_ok=True)]: every prefix of [p] that is
    missing becomes a directory; a prefix that is a regular file makes
    the call fail. [prefix] is the part of [p] already walked. *)
Fixpoint mkdir_walk (fs : FS) (prefix rest : list string) : result FS :=
  match lookup fs prefix with
  | Some (File _) => Raise OSError
  | _ =>
      let fs := match prefix with [] => fs | _ => <[prefix := Dir]> fs end in
      match rest with
      | [] => Ok fs
      | n :: rest' => mkdir_walk fs (prefix ++ [n]) rest'
      end
  end.

Definition mkdir (fs : FS) (p : list string) : result FS :=
  mkdir_walk fs [] p.

(** [open(p, "wb")] and [open(p, "w")]: the parent is a directory and
    [p] is none. The file is created empty or truncated. *)
Definition open_w (fs : FS) (p : list string) (empty : content)
  : result FS :=
  if is_dir fs (parent p) && negb (is_dir fs p)
  then Ok (<[p := File empty]> fs)
  else Raise OSError.

(** [p.unlink()] *)
Definition unlink (fs : FS) (p : list string) : result FS :=
  match lookup fs p with
  | Some (File _) => Ok (delete p fs)
  | Some Dir => Raise OSError
  | None => Raise FileNotFoundError
  end.

(** [a] is [b] or an ancestor of [b]. *)
Fixpoint is_prefix (a b : list string) : bool :=
  match a, b with
  | [], _ => true
  | x :: a', y :: b' => String.eqb x y && is_prefix a' b'
  | _ :: _, [] => false
  end.

(** The regular files among [p.rglob("*")], with their contents, in the
    order in which the map lists them. *)
Definition rglob_files (fs : FS) (p : list string)
  : list (list string * content) :=
  omap (fun kv : list string * node =>
          match kv.2 with
          | File c =>
              if is_prefix p kv.1 && negb (length kv.1 =? length p)%nat
              then Some (kv.1, c) else None
          | Dir => None
          end)
       (map_to_list fs).

End Fs.

(** ** Division of integers ([int.__truediv__]) *)

Module Binary64.

(** The fraction [a / b] times [2 ^ s], for either sign of [s]. *)
Definition scaled (a b s : Z) : Z * Z :=
  (a * 2 ^ Z.max s 0, b * 2 ^ Z.max (- s) 0)%Z.

(** [a / b] for two [int], [b] positive: the binary64 number nearest
    to the quotient, the even one of two that are equally near. The
    quotient is scaled to an integer part of 53 bits, which is rounded.
    The exponent is not bounded: the quotient of two sizes of at most
    64 bits, as the records of a ZIP directory hold them, lies within
    the normal range of binary64. *)
Definition true_divide (a b : N) : Q :=
  if (a =? 0)%N then 0%Q
  else
    let a := Z.of_N a in
    let b := Z.of_N b in
    let s0 := (53 - (Z.log2 a - Z.log2 b))%Z in
    let s := let (n, d) := scaled a b s0 in
             if (2 ^ 53 <=? n / d)%Z then (s0 - 1)%Z else s0 in
    let (n, d) := scaled a b s in
    let q := (n / d)%Z in
    let r := (n mod d)%Z in
    let q := if (d <? 2 * r)%Z || ((2 * r =? d)%Z && Z.odd q)
             then (q + 1)%Z else q in
    Qmake (q * 2 ^ Z.max (- s) 0) (Z.to_pos (2 ^ Z.max s 0)).

End Binary64.

(** ** [src/core/archive.py] *)

(** The state that extraction and creation act on: the file system, and
    a record of the bytes that [target.write] received, one item for
    every entry file opened for writing (its path and the bytes written
    to it before it was closed). *)
Record world : Type := mkWorld {
  files : FS;
  written : list (list string * N)
}.

Definition with_files (w : world) (fs : FS) : world :=
  {| files := fs; written := written w |}.

Section Archive.

Variable config : Config.

(** [validate_zip_entry(entry)] *)
Definition validate_zip_entry (entry : ZipInfo) : result unit :=
  if (0 <? compress_size entry)%N then
    let ratio :=
      Binary64.true_divide (file_size entry) (compress_size entry) in
    if Qlt_le_dec (ZIP_MAX_RATIO config) ratio
    then Raise (ArchiveSecurityError RatioTooHigh)
    else Ok tt
  else if (0 <? file_size entry)%N then
    Raise (ArchiveSecurityError ZeroCompressed)
  else Ok tt.

(** [zipfile.ZipFile(zip_path, "r")]: the members of the archive.
    A file that is no archive gives [BadZipFile], which both callers
    turn into [ArchiveSecurityError]; a path that is no regular file is
    an error of the OS, which they let through. *)
Definition open_zip (fs : FS) (zip_path : list string)
  : result (list ZipInfo) :=
  match Fs.lookup fs zip_path with
  | Some (File c) =>
      match as_zip c with
      | Some infolist => Ok infolist
      | None => Raise (ArchiveSecurityError BadZipFile)
      end
  | Some Dir => Raise OSError
  | None => Raise FileNotFoundError
  end.

(** The loop of [validate_zip_file] over [zf.infolist()]. *)
Fixpoint validate_entries
    (infolist : list ZipInfo) (file_count total_uncompressed total_compressed : N)
  : result (N * N * N) :=
  match infolist with
  | [] => Ok (file_count, total_uncompressed, total_compressed)
  | entry :: rest =>
      let file_count := (file_count + 1)%N in
      if (ZIP_MAX_FILES config <? file_count)%N
      then Raise (ArchiveSecurityError TooManyFiles)
      else
        _ ← validate_zip_entry entry;
        let total_uncompressed := (total_uncompressed + file_size entry)%N in
        let total_compressed := (total_compressed + compress_size entry)%N in
        if (ZIP_MAX_TOTAL_SIZE config <? total_uncompressed)%N
        then Raise (ArchiveSecurityError TotalTooLarge)
        else validate_entries rest file_count total_uncompressed total_compressed
  end.

(** [validate_zip_file(zip_path)]: file count, total uncompressed and
    total compressed size. *)
Definition validate_zip_file (fs : FS) (zip_path : list string)
  : result (N * N * N) :=
  infolist ← open_zip fs zip_path;
  validate_entries infolist 0%N 0%N 0%N.

(** The lengths that the successive [source.read(chunk_size)] return
    on a stream of [n] bytes, up to the empty read. *)
Definition chunk_size : N := 8192.

Definition read_chunks (n : N) : list N :=
  repeat chunk_size (N.to_nat (n / chunk_size))
  ++ (if (n mod chunk_size =? 0)%N then [] else [(n mod chunk_size)%N]).

(** The [while True] loop that copies one entry: the bytes handed to
    [target.write], and whether the cap stopped the copy. *)
Fixpoint copy_chunks (total_size : N) (chunks : list N) : N * result unit :=
  match chunks with
  | [] => (total_size, Ok tt)
  | chunk :: rest =>
      let total_size' := (total_size + chunk)%N in
      if (ZIP_MAX_TOTAL_SIZE config <? total_size')%N
      then (total_size, Raise (ArchiveSecurityError StreamTooLarge))
      else copy_chunks total_size' rest
  end.

(** [zf.open(entry)]: the bytes that [zipfile.ZipExtFile] hands out,
    by their number and their reading as an archive. It stops at the
    declared [file_size]; a stream cut short is no archive. *)
Definition open_entry (entry_info : ZipInfo) : N * option (list ZipInfo) :=
  if (stream_size entry_info <=? file_size entry_info)%N
  then (stream_size entry_info, stream_zip entry_info)
  else (file_size entry_info, None).

(** [Path(entry)]: whether it is absolute, and its parts. *)
Definition entry_is_absolute (entry : string) : bool :=
  PosixPath.startswith entry "/".

Definition entry_names (entry : string) : list string :=
  List.filter PosixPath.keep_part (PosixPath.split entry).

Definition entry_parts (entry : string) : list string :=
  (if entry_is_absolute entry then ["/"] else []) ++ entry_names entry.

(** [zf.getinfo(name)]: the last member of that name. *)
Definition getinfo (infolist : list ZipInfo) (name : string)
  : option ZipInfo :=
  List.find (fun e => String.eqb (filename e) name) (rev infolist).

(** One round of the loop of [safe_extract_zip] over [zf.namelist()],
    up to the test for a nested archive. It returns the path written,
    or [None] for a directory entry. *)
Definition extract_entry
    (infolist : list ZipInfo) (dest_path dest_resolved : list string)
    (entry : string) (w : world)
  : world * result (option (list string)) :=
  if entry_is_absolute entry
     || existsb (String.eqb "..") (entry_parts entry)
  then (w, Raise (ArchiveSecurityError ZipSlip))
  else
    let full_entry_path :=
      PosixPath.resolve (dest_path ++ entry_names entry) in
    if negb (PosixPath.startswith (PosixPath.str full_entry_path)
                                  (PosixPath.str dest_resolved))
    then (w, Raise (ArchiveSecurityError DestinationEscape))
    else
      match getinfo infolist entry with
      | None => (w, Raise OSError)   (* KeyError: no name of the list *)
      | Some entry_info =>
          match validate_zip_entry entry_info with
          | Raise e => (w, Raise e)
          | Ok _ =>
              if Names.endswith entry "/" then
                match Fs.mkdir (files w) full_entry_path with
                | Raise e => (w, Raise e)
                | Ok fs => (with_files w fs, Ok None)
                end
              else
                match Fs.mkdir (files w) (Fs.parent full_entry_path) with
                | Raise e => (w, Raise e)
                | Ok fs =>
                    match Fs.open_w fs full_entry_path (Binary 0 None) with
                    | Raise e => (with_files w fs, Raise e)
                    | Ok fs =>
                        let source := open_entry entry_info in
                        let (total_size, r) :=
                          copy_chunks 0%N (read_chunks source.1) in
                        let log := written w ++ [(full_entry_path, total_size)] in
                        match r with
                        | Raise e =>
                            ({| files := <[full_entry_path :=
                                            File (Binary total_size None)]> fs;
                                written := log |}, Raise e)
                        | Ok _ =>
                            ({| files := <[full_entry_path :=
                                            File (Binary source.1 source.2)]> fs;
                                written := log |}, Ok (Some full_entry_path))
                        end
                    end
                end
          end
      end.

(** The loop of [safe_extract_zip] over [zf.namelist()]; [nested] is
    the recursive call, which already holds [max_depth - 1]. *)
Section Loop.

Variable nested :
  list string -> string -> world -> world * result (list (list string)).
Variable infolist : list ZipInfo.
Variables dest_path dest_resolved : list string.

Fixpoint extract_entries
    (namelist : list string) (w : world)
    (extracted_files : list (list string))
  : world * result (list (list string)) :=
  match namelist with
  | [] => (w, Ok extracted_files)
  | entry :: rest =>
      match extract_entry infolist dest_path dest_resolved entry w with
      | (w, Raise e) => (w, Raise e)
      | (w, Ok None) => extract_entries rest w extracted_files
      | (w, Ok (Some full_entry_path)) =>
          let extracted_files := extracted_files ++ [full_entry_path] in
          if Names.endswith (Names.lower entry) ".zip" then
            match nested full_entry_path
                    (PosixPath.str
                       (PosixPath.joinpath (Fs.parent full_entry_path)
                          (PosixPath.stem (Fs.name full_entry_path))))
                    w with
            | (w, Raise e) => (w, Raise e)
            | (w, Ok more) =>
                extract_entries rest w (extracted_files ++ more)
            end
          else extract_entries rest w extracted_files
      end
  end.

End Loop.

(** [safe_extract_zip] with [max_depth] given as a natural number:
    [O] is [max_depth <= 0], and the nested call receives
    [max_depth - 1]. The archive is read when it is opened. *)
Fixpoint safe_extract_zip_depth
    (max_depth : nat) (zip_path : list string) (destination : string)
    (w : world) {struct max_depth}
  : world * result (list (list string)) :=
  match max_depth with
  | O => (w, Raise (ArchiveSecurityError DepthExceeded))
  | S max_depth' =>
      match validate_zip_file (files w) zip_path with
      | Raise e => (w, Raise e)
      | Ok _ =>
      match resolve_secure_path config destination None with
      | Raise e => (w, Raise e)
      | Ok dest_path =>
      match Fs.mkdir (files w) dest_path with
      | Raise e => (w, Raise e)
      | Ok fs =>
      let w := with_files w fs in
      let dest_resolved := PosixPath.resolve dest_path in
      match open_zip (files w) zip_path with
      | Raise e => (w, Raise e)
      | Ok infolist =>
          extract_entries (safe_extract_zip_depth max_depth')
            infolist dest_path dest_resolved (map filename infolist) w []
      end end end end
  end.

(** [safe_extract_zip(zip_path, destination, max_depth=None)] *)
Definition safe_extract_zip
    (zip_path : list string) (destination : string) (max_depth : option Z)
    (w : world)
  : world * result (list (list string)) :=
  let max_depth :=
    match max_depth with
    | None => ZIP_MAX_RECURSION_DEPTH config
    | Some d => d
    end in
  safe_extract_zip_depth (Z.to_nat max_depth) zip_path destination w.

End Archive.


(** [safe_create_zip(sources, destination)]. The compressor and the
    container format are left open: [deflated c] is the compressed size
    of a member with content [c], [container_size l] the size of an
    archive with the members [l]. *)
Section Create.

Variable config : Config.
Variable deflated : content -> N.
Variable container_size : list ZipInfo -> N.

(** The loop over [source_path.rglob("*")], regular files only. *)
Fixpoint count_tree
    (found : list (list string * content)) (total_size file_count : N)
  : result (N * N) :=
  match found with
  | [] => Ok (total_size, file_count)
  | (_, c) :: rest =>
      let file_count := (file_count + 1)%N in
      let total_size := (total_size + st_size c)%N in
      if (ZIP_MAX_FILES config <? file_count)%N
      then Raise (ArchiveSecurityError TooManyFiles)
      else if (ZIP_MAX_TOTAL_SIZE config <? total_size)%N
      then Raise (ArchiveSecurityError TotalTooLarge)
      else count_tree rest total_size file_count
  end.

(** The first loop over [sources]. *)
Fixpoint count_sources
    (fs : FS) (sources : list string) (total_size file_count : N)
  : result (N * N) :=
  match sources with
  | [] => Ok (total_size, file_count)
  | source :: rest =>
      source_path ← resolve_secure_path config source None;
      match Fs.lookup fs source_path with
      | Some (File c) =>
          count_sources fs rest (total_size + st_size c)%N (file_count + 1)%N
      | Some Dir =>
          '(total_size, file_count) ←
            count_tree (Fs.rglob_files fs source_path) total_size file_count;
          count_sources fs rest total_size file_count
      | None => Raise (ArchiveSecurityError SourceNotFound)
      end
  end.

(** What [zf.write(path, arcname)] adds to the archive. *)
Definition member (arcname : string) (c : content) : ZipInfo :=
  {| filename := arcname;
     file_size := st_size c;
     compress_size := deflated c;
     stream_size := st_size c;
     stream_zip := as_zip c |}.

(** [file_path.relative_to(base)], as a string. *)
Definition relative_to (file_path base : list string) : string :=
  PosixPath.join (drop (length base) file_path).

(** The second loop over [sources]. *)
Fixpoint write_sources (fs : FS) (sources : list string)
  : result (list ZipInfo) :=
  match sources with
  | [] => Ok []
  | source :: rest =>
      source_path ← resolve_secure_path config source None;
      let here :=
        match Fs.lookup fs source_path with
        | Some (File c) => [member (Fs.name source_path) c]
        | Some Dir =>
            map (fun fc : list string * content =>
                   member (relative_to fc.1 (Fs.parent source_path)) fc.2)
                (Fs.rglob_files fs source_path)
        | None => []
        end in
      more ← write_sources fs rest;
      Ok (here ++ more)
  end.

Definition safe_create_zip
    (sources : list string) (destination : string) (fs : FS)
  : FS * result (list string) :=
  match resolve_secure_path config destination None with
  | Raise e => (fs, Raise e)
  | Ok dest_path =>
  match validate_filename config (Fs.name dest_path) with
  | Raise e => (fs, Raise e)
  | Ok _ =>
  match count_sources fs sources 0%N 0%N with
  | Raise e => (fs, Raise e)
  | Ok _ =>
      let attempt :=
        fs1 ← Fs.open_w fs dest_path (Binary 0 None);
        members ← write_sources fs1 sources;
        Ok (<[dest_path := File (Binary (container_size members)
                                        (Some members))]> fs1) in
      match attempt with
      | Ok fs' => (fs', Ok dest_path)
      | Raise _ =>
          if Fs.exists_ fs dest_path then
            match Fs.unlink fs dest_path with
            | Ok fs' => (fs', Raise (ArchiveSecurityError CreateFailed))
            | Raise e => (fs, Raise e)
            end
          else (fs, Raise (ArchiveSecurityError CreateFailed))
      end
  end end end.

End Create.

(** ** [src/core/locking.py] *)

Module LockManager.

Inductive lock_event : Set :=
  | Acquire (key : string)
  | Release (key : string).

(** The registry [_locks], each [asyncio.Lock] by its [locked] flag,
    and the acquisitions and releases so far. A lock that another task
    holds and does not release within [LOCK_TIMEOUT] is one that is
    locked when the call starts. *)
Record state : Type := mkState {
  locks : gmap string bool;
  events : list lock_event
}.

Section Manager.

(** [os.getcwd()], for [Path.resolve] of a relative path. *)
Variable cwd : list string.

(** [_get_lock_key(path)]: [str(Path(path).resolve())] *)
Definition _get_lock_key (path : string) : string :=
  PosixPath.str (PosixPath.resolve (PosixPath.joinpath cwd path)).

(** [_get_lock(path)]: the key of the lock returned. *)
Definition _get_lock (path : string) (st : state) : state * string :=
  let key := _get_lock_key path in
  match locks st !! key with
  | None => ({| locks := <[key := false]> (locks st);
                events := events st |}, key)
  | Some _ => (st, key)
  end.

(** [asyncio.wait_for(lock.acquire(), timeout=LOCK_TIMEOUT)] *)
Definition acquire (key : string) (st : state) : state * result bool :=
  match locks st !! key with
  | Some true => (st, Raise TimeoutError)
  | _ => ({| locks := <[key := true]> (locks st);
             events := events st ++ [Acquire key] |}, Ok true)
  end.

(** [lock.release()] *)
Definition release (key : string) (st : state) : state * result unit :=
  match locks st !! key with
  | Some true => ({| locks := <[key := false]> (locks st);
                     events := events st ++ [Release key] |}, Ok tt)
  | _ => (st, Raise RuntimeError)
  end.

(** [for l in held: l.release()] *)
Fixpoint release_each (held : list string) (st : state)
  : state * result unit :=
  match held with
  | [] => (st, Ok tt)
  | key :: rest =>
      match release key st with
      | (st, Ok _) => release_each rest st
      | (st, Raise e) => (st, Raise e)
      end
  end.

(** [sorted(keys)], by the order of [str]. *)
Definition sorted (keys : list string) : list string :=
  merge_sort String.le keys.

Section Operation.

(** What the operation acts on, and what it returns. *)
Context {W A : Type}.
Variable operation : W -> W * result A.

(** [execute_locked(path, operation)] *)
Definition execute_locked (path : string) (st : state) (w : W)
  : state * W * result A :=
  let (st, lock) := _get_lock path st in
  match acquire lock st with
  | (st, Raise e) => (st, w, Raise TimeoutError)
  | (st, Ok true) =>
      let (w, r) := operation w in
      match release lock st with
      | (st, Raise e) => (st, w, Raise e)
      | (st, Ok _) => (st, w, r)
      end
  | (st, Ok false) => (st, w, Raise TimeoutError)
  end.

(** The [for path_key in sorted_paths] loop of
    [execute_locked_multi]; [held] is the list [locks], of which
    only the lock of each pair is used. *)
Fixpoint acquire_each (sorted_paths held : list string) (st : state)
  : state * list string * result unit :=
  match sorted_paths with
  | [] => (st, held, Ok tt)
  | path_key :: rest =>
      let (st, lock) := _get_lock path_key st in
      match acquire lock st with
      | (st, Raise e) => (st, held, Raise e)
      | (st, Ok true) => acquire_each rest (held ++ [lock]) st
      | (st, Ok false) =>
          match release_each held st with
          | (st, Raise e) => (st, held, Raise e)
          | (st, Ok _) => (st, held, Raise TimeoutError)
          end
      end
  end.

(** [execute_locked_multi(paths, operation)] *)
Definition execute_locked_multi
    (paths : list string) (st : state) (w : W)
  : state * W * result A :=
  let sorted_paths := sorted (map _get_lock_key paths) in
  let '(st, held, got) := acquire_each sorted_paths [] st in
  let '(w, r) :=
    match got with
    | Ok _ => operation w
    | Raise e => (w, Raise e)
    end in
  match release_each (rev held) st with
  | (st, Raise e) => (st, w, Raise e)
  | (st, Ok _) => (st, w, r)
  end.

End Operation.

End Manager.

End LockManager.

(** ** [FileManager.write_file] ([src/files/manager.py]) *)

(** The row of the table [files] that [write_file] returns. *)
Record FileRecord : Type := mkFileRecord {
  rec_filename : string;
  rec_size : N;
  rec_location : string;
  rec_owner_id : Z
}.

(** How [Path.write_text] may fail: before the staging file exists, or
    after [n] characters have reached it. *)
Inductive write_fault : Set :=
  | WriteOk
  | OpenFails
  | WriteFailsAfter (n : nat).

(** The failures that the environment may inject into one call. *)
Record faults : Type := mkFaults {
  read_fails : bool;          (* full_path.read_text *)
  write_fault_of : write_fault; (* temp_path.write_text *)
  replace_fails : bool;       (* temp_path.replace *)
  stat_fails : bool;          (* full_path.stat, after the rename *)
  db_fails : bool             (* the session, after the rename *)
}.

Definition no_faults : faults :=
  {| read_fails := false; write_fault_of := WriteOk; replace_fails := false;
     stat_fails := false; db_fails := false |}.

Section WriteFile.

Variable config : Config.

(** The metadata store and the [async with db.session()] block of
    [_write]: the record of the location gets the new size, or a new
    record is added, and a MODIFY operation is logged. *)
Variable DB : Type.
Variable record_modify : string -> string -> N -> Z -> DB -> DB * FileRecord.

Variable env : faults.

(** [full_path.read_text(encoding="utf-8")]: the file is opened in text
    mode, which reads with universal newlines. *)
Definition read_text (fs : FS) (p : list string) : result string :=
  if read_fails env then Raise OSError
  else match Fs.lookup fs p with
       | Some (File (Text s)) => Ok (Names.universal_newlines s)
       | Some (File (Binary _ _)) => Raise (ValueError NotText)
       | Some Dir => Raise OSError
       | None => Raise FileNotFoundError
       end.

(** [temp_path.write_text(data, encoding="utf-8")] *)
Definition write_text (fs : FS) (p : list string) (data : string)
  : FS * result unit :=
  match write_fault_of env with
  | OpenFails => (fs, Raise OSError)
  | WriteFailsAfter n =>
      match Fs.open_w fs p (Text "") with
      | Raise e => (fs, Raise e)
      | Ok _ => (<[p := File (Text (String.substring 0 n data))]> fs,
                 Raise OSError)
      end
  | WriteOk =>
      match Fs.open_w fs p (Text "") with
      | Raise e => (fs, Raise e)
      | Ok _ => (<[p := File (Text data)]> fs, Ok tt)
      end
  end.

(** [temp_path.replace(full_path)]: one step of the file system. *)
Definition replace (fs : FS) (src dst : list string) : FS * result unit :=
  if replace_fails env then (fs, Raise OSError)
  else match Fs.lookup fs src, Fs.lookup fs dst with
       | Some (File c), Some Dir => (fs, Raise OSError)
       | Some (File c), _ => (delete src (<[dst := File c]> fs), Ok tt)
       | _, _ => (fs, Raise OSError)
       end.

(** The [try] block of [_write]. *)
Definition write_body
    (relative_path content : string) (user_id : Z) (append : bool)
    (full_path temp_path : list string) (s : FS * DB)
  : (FS * DB) * result FileRecord :=
  let (fs, db) := s in
  match (if append
         then existing_content ← read_text fs full_path;
              Ok (existing_content +:+ content)
         else Ok content) with
  | Raise e => (s, Raise e)
  | Ok new_content =>
  match write_text fs temp_path new_content with
  | (fs, Raise e) => ((fs, db), Raise e)
  | (fs, Ok _) =>
  match replace fs temp_path full_path with
  | (fs, Raise e) => ((fs, db), Raise e)
  | (fs, Ok _) =>
      if stat_fails env then ((fs, db), Raise OSError)
      else
        let file_size :=
          match Fs.lookup fs full_path with
          | Some (File c) => st_size c
          | _ => 0%N
          end in
        if db_fails env then ((fs, db), Raise OSError)
        else
          let (db, file_record) :=
            record_modify relative_path (Fs.name full_path)
                          file_size user_id db in
          ((fs, db), Ok file_record)
  end end end.

(** [_write], the operation run under the lock. *)
Definition _write
    (relative_path content : string) (user_id : Z) (append : bool)
    (full_path : list string) (s : FS * DB)
  : (FS * DB) * result FileRecord :=
  if negb (Fs.exists_ s.1 full_path) then (s, Raise FileNotFoundError)
  else
    match PosixPath.with_suffix full_path
            (PosixPath.suffix (Fs.name full_path) +:+ ".tmp") with
    | None => (s, Raise (ValueError EmptyName))
    | Some temp_path =>
        match write_body relative_path content user_id append
                         full_path temp_path s with
        | (s', Ok r) => (s', Ok r)
        | ((fs', db'), Raise e) =>
            if Fs.exists_ fs' temp_path then
              match Fs.unlink fs' temp_path with
              | Ok fs'' => ((fs'', db'), Raise e)
              | Raise e' => ((fs', db'), Raise e')
              end
            else ((fs', db'), Raise e)
        end
    end.

(** [write_file(relative_path, content, user_id, append=False)] *)
Definition write_file
    (relative_path content : string) (user_id : Z) (append : bool)
    (st : LockManager.state) (s : FS * DB)
  : LockManager.state * (FS * DB) * result FileRecord :=
  match resolve_secure_path config relative_path None with
  | Raise e => (st, s, Raise e)
  | Ok full_path =>
      let content_size := N.of_nat (String.length content) in
      if (MAX_UPLOAD_SIZE config <? content_size)%N
      then (st, s, Raise (ValueError ContentTooLarge))
      else
        LockManager.execute_locked []
          (_write relative_path content user_id append full_path)
          (PosixPath.str full_path) st s
  end.

End WriteFile.


(** ** [src/core/serialization.py] and the other operations of
       [FileManager] ([src/files/manager.py]) *)

(** Where these raise a [ValueError] of their own. *)
Inductive manager_reason : Set :=
  | UserNotFound        (* create_file: no user of that id *)
  | FileTooLarge        (* read_file: st_size above MAX_FILE_SIZE *)
  | InvalidJson         (* safe_load_json, and read_file around it *)
  | InvalidXml          (* safe_load_xml, and read_file around it *)
  | DirectoryNotEmpty   (* delete_directory without recursive *)
  | ArchiveRefused (why : archive_reason).  (* create_zip, extract_zip *)

(** The exceptions of these operations: those of the modules above,
    passed on, and the built-in ones raised here. *)
Inductive failure : Set :=
  | Core (e : exn)
  | FileExistsError
  | NotADirectoryError
  | ValueErrorOf (why : manager_reason).

Inductive outcome (A : Type) : Type :=
  | Done (a : A)
  | Failed (e : failure).
Arguments Done {A} a.
Arguments Failed {A} e.

(** [except ArchiveSecurityError as e: raise ValueError(...)]; every
    other exception passes. *)
Definition refused {A : Type} (r : result A) : outcome A :=
  match r with
  | Ok a => Done a
  | Raise (ArchiveSecurityError why) => Failed (ValueErrorOf (ArchiveRefused why))
  | Raise e => Failed (Core e)
  end.

(** An operation of [FileManager] under the lock manager. What the
    operation raises leaves [execute_locked] and
    [execute_locked_multi] as what it returns does, through the
    [finally] blocks that release: it travels as the value of the
    operation. The paths handed over are absolute, so the working
    directory plays no part. *)
Definition as_value {W A : Type} (operation : W -> W * outcome A) (w : W)
  : W * result (outcome A) :=
  let (w, r) := operation w in (w, Ok r).

Definition raised {A : Type} (r : result (outcome A)) : outcome A :=
  match r with
  | Ok r => r
  | Raise e => Failed (Core e)
  end.

Definition run_locked {W A : Type} (operation : W -> W * outcome A)
    (path : list string) (st : LockManager.state) (w : W)
  : LockManager.state * W * outcome A :=
  let '(st, w, r) :=
    LockManager.execute_locked [] (as_value operation)
      (PosixPath.str path) st w in
  (st, w, raised r).

Definition run_locked_multi {W A : Type} (operation : W -> W * outcome A)
    (paths : list (list string)) (st : LockManager.state) (w : W)
  : LockManager.state * W * outcome A :=
  let '(st, w, r) :=
    LockManager.execute_locked_multi [] (as_value operation)
      (map PosixPath.str paths) st w in
  (st, w, raised r).

(** Directories as [pathlib], [os] and [shutil] act on them. *)
Module Tree.

(** [q] is an entry of the directory [p]. *)
Definition is_child (p q : list string) : bool :=
  Fs.is_prefix p q && (length q =? S (length p))%nat.

(** [p.iterdir()], in the order in which the map lists the entries. *)
Definition iterdir (fs : FS) (p : list string) : list (list string * node) :=
  List.filter (fun kv : list string * node => is_child p kv.1)
              (map_to_list fs).

(** [p.rmdir()]: [p] is a directory without entries, and not the root
    of the file system. *)
Definition rmdir (fs : FS) (p : list string) : result FS :=
  match p with
  | [] => Raise OSError
  | _ =>
      match fs !! p with
      | Some Dir =>
          match iterdir fs p with
          | [] => Ok (delete p fs)
          | _ => Raise OSError
          end
      | Some (File _) => Raise OSError
      | None => Raise FileNotFoundError
      end
  end.

(** [shutil.rmtree(p)]: all that lies at or below the directory [p] is
    removed; the root of the file system is emptied and stays. *)
Definition rmtree (fs : FS) (p : list string) : FS * result unit :=
  match Fs.lookup fs p with
  | Some Dir =>
      let fs' :=
        filter (fun kv : list string * node => ~ Fs.is_prefix p kv.1) fs in
      match p with
      | [] => (fs', Raise OSError)
      | _ => (fs', Ok tt)
      end
  | Some (File _) => (fs, Raise OSError)
  | None => (fs, Raise FileNotFoundError)
  end.

(** [os.rename(src, dst)] with nothing at [dst]: what is at or below
    [src] goes to the same place at or below [dst]. *)
Definition rename_key (src dst q : list string) : list string :=
  if Fs.is_prefix src q then dst ++ drop (length src) q else q.

Definition rename (fs : FS) (src dst : list string) : FS :=
  list_to_map
    (map (fun kv : list string * node => (rename_key src dst kv.1, kv.2))
         (map_to_list fs)).

(** [shutil.move(src, dst)] where [src] exists and nothing is at [dst],
    as [_move] calls it: a rename, which fails when [dst] lies below
    [src] (a directory is not moved into itself) or has no directory
    above it. *)
Definition move (fs : FS) (src dst : list string) : result FS :=
  if Fs.is_prefix src dst then Raise OSError
  else if negb (Fs.is_dir fs (Fs.parent dst)) then Raise OSError
  else Ok (rename fs src dst).

End Tree.

(** An element of the list that [list_directory] returns. *)
Record item : Type := mkItem {
  item_name : string;
  item_type : string;
  item_size : option N      (* None for a directory *)
}.

(** The key of [sorted] in [list_directory], a tuple of a [bool] and a
    [str], and the order of such tuples: [False] before [True], then
    the order of [str]. *)
Definition sort_key (x : item) : bool * string :=
  (negb (String.eqb (item_type x) "directory"), item_name x).

Definition key_leb (a b : bool * string) : bool :=
  if Bool.eqb a.1 b.1 then String.leb a.2 b.2 else negb a.1.

Definition item_le (x y : item) : Prop := key_leb (sort_key x) (sort_key y).

#[global] Instance item_le_dec : RelDecision item_le.
Proof. intros x y. unfold item_le. apply _. Defined.

(** [full_path.stat().st_size] of a regular file. *)
Definition stat_size (fs : FS) (p : list string) : N :=
  match Fs.lookup fs p with
  | Some (File c) => st_size c
  | _ => 0%N
  end.

Section Serialization.

(** The parsers and printers of [json] and of [defusedxml] are left
    open; [None] is the exception of a parser. *)
Variables JsonValue Element : Type.
Variable json_loads : string -> option JsonValue.
Variable json_dumps : JsonValue -> option nat -> string.
Variable xml_fromstring : string -> option Element.
Variable xml_tostring : Element -> string.

(** [safe_load_json(data)] *)
Definition safe_load_json (data : string) : outcome JsonValue :=
  match json_loads data with
  | Some obj => Done obj
  | None => Failed (ValueErrorOf InvalidJson)
  end.

(** [safe_dump_json(obj, indent=None)] *)
Definition safe_dump_json (obj : JsonValue) (indent : option nat) : string :=
  json_dumps obj indent.

(** [safe_load_xml(data)] *)
Definition safe_load_xml (data : string) : outcome Element :=
  match xml_fromstring data with
  | Some element => Done element
  | None => Failed (ValueErrorOf InvalidXml)
  end.

(** [safe_dump_xml(element)], in UTF-8. *)
Definition safe_dump_xml (element : Element) : string :=
  xml_tostring element.

End Serialization.

Section FileManager.

Variable config : Config.

(** [config.MAX_FILE_SIZE] *)
Variable MAX_FILE_SIZE : N.

(** The metadata store and its sessions: whether a user of the id
    exists; the block that adds a record of a file and logs a CREATE
    operation; the block that logs a DELETE operation when the location
    has a record. *)
Variable DB : Type.
Variable find_user : Z -> DB -> bool.
Variable record_create : string -> string -> N -> Z -> DB -> DB * FileRecord.
Variable record_delete : string -> Z -> DB -> DB.

Variables JsonValue Element : Type.
Variable json_loads : string -> option JsonValue.
Variable json_dumps : JsonValue -> option nat -> string.
Variable xml_fromstring : string -> option Element.
Variable xml_tostring : Element -> string.

Variable deflated : content -> N.
Variable container_size : list ZipInfo -> N.

Variable env : faults.

(** [FileManager.__init__]: the sandbox root is created. *)
Definition __init__ (fs : FS) : result FS := Fs.mkdir fs (SANDBOX_ROOT config).

(** [_create] of [create_file], the operation run under the lock. *)
Definition _create_file
    (relative_path content : string) (user_id : Z)
    (full_path : list string) (s : FS * DB)
  : (FS * DB) * outcome FileRecord :=
  let (fs, db) := s in
  if Fs.exists_ fs full_path then (s, Failed FileExistsError)
  else
    match Fs.mkdir fs (Fs.parent full_path) with
    | Raise e => (s, Failed (Core e))
    | Ok fs =>
    match write_text env fs full_path content with
    | (fs, Raise e) => ((fs, db), Failed (Core e))
    | (fs, Ok _) =>
        if stat_fails env then ((fs, db), Failed (Core OSError))
        else
          let file_size := stat_size fs full_path in
          if db_fails env then ((fs, db), Failed (Core OSError))
          else if negb (find_user user_id db)
          then ((fs, db), Failed (ValueErrorOf UserNotFound))
          else
            let (db, file_record) :=
              record_create relative_path (Fs.name full_path)
                            file_size user_id db in
            ((fs, db), Done file_record)
    end end.

(** [create_file(relative_path, user_id, content="")] *)
Definition create_file
    (relative_path : string) (user_id : Z) (content : string)
    (st : LockManager.state) (s : FS * DB)
  : LockManager.state * (FS * DB) * outcome FileRecord :=
  match resolve_secure_path config relative_path None with
  | Raise e => (st, s, Failed (Core e))
  | Ok full_path =>
  match validate_filename config (Fs.name full_path) with
  | Raise e => (st, s, Failed (Core e))
  | Ok _ =>
      if (MAX_UPLOAD_SIZE config <? N.of_nat (String.length content))%N
      then (st, s, Failed (Core (ValueError ContentTooLarge)))
      else
        run_locked (_create_file relative_path content user_id full_path)
                   full_path st s
  end end.

(** [read_file(relative_path, format_type="text")] *)
Definition read_file (relative_path format_type : string) (fs : FS)
  : outcome string :=
  match resolve_secure_path config relative_path None with
  | Raise e => Failed (Core e)
  | Ok full_path =>
      if negb (Fs.exists_ fs full_path) || negb (Fs.is_file fs full_path)
      then Failed (Core FileNotFoundError)
      else if stat_fails env then Failed (Core OSError)
      else
        let file_size := stat_size fs full_path in
        if (MAX_FILE_SIZE <? file_size)%N
        then Failed (ValueErrorOf FileTooLarge)
        else
          match read_text env fs full_path with
          | Raise e => Failed (Core e)
          | Ok content =>
              if String.eqb format_type "json" then
                match safe_load_json JsonValue json_loads content with
                | Done data =>
                    Done (safe_dump_json JsonValue json_dumps data (Some 2%nat))
                | Failed _ => Failed (ValueErrorOf InvalidJson)
                end
              else if String.eqb format_type "xml" then
                match safe_load_xml Element xml_fromstring content with
                | Done element =>
                    Done (safe_dump_xml Element xml_tostring element)
                | Failed _ => Failed (ValueErrorOf InvalidXml)
                end
              else Done content
          end
  end.

(** [_delete] of [delete_file] *)
Definition _delete_file
    (relative_path : string) (user_id : Z) (full_path : list string)
    (s : FS * DB)
  : (FS * DB) * outcome unit :=
  let (fs, db) := s in
  if negb (Fs.exists_ fs full_path) || negb (Fs.is_file fs full_path)
  then (s, Failed (Core FileNotFoundError))
  else
    match Fs.unlink fs full_path with
    | Raise e => (s, Failed (Core e))
    | Ok fs =>
        if db_fails env then ((fs, db), Failed (Core OSError))
        else ((fs, record_delete relative_path user_id db), Done tt)
    end.

(** [delete_file(relative_path, user_id)] *)
Definition delete_file
    (relative_path : string) (user_id : Z)
    (st : LockManager.state) (s : FS * DB)
  : LockManager.state * (FS * DB) * outcome unit :=
  match resolve_secure_path config relative_path None with
  | Raise e => (st, s, Failed (Core e))
  | Ok full_path =>
      run_locked (_delete_file relative_path user_id full_path)
                 full_path st s
  end.

(** [_create] of [create_directory] *)
Definition _create_directory (full_path : list string) (fs : FS)
  : FS * outcome unit :=
  if Fs.exists_ fs full_path then (fs, Failed FileExistsError)
  else
    match Fs.mkdir fs full_path with
    | Raise e => (fs, Failed (Core e))
    | Ok fs => (fs, Done tt)
    end.

(** [create_directory(relative_path)] *)
Definition create_directory
    (relative_path : string) (st : LockManager.state) (fs : FS)
  : LockManager.state * FS * outcome unit :=
  match resolve_secure_path config relative_path None with
  | Raise e => (st, fs, Failed (Core e))
  | Ok full_path => run_locked (_create_directory full_path) full_path st fs
  end.

(** [_delete] of [delete_directory] *)
Definition _delete_directory
    (recursive : bool) (full_path : list string) (fs : FS)
  : FS * outcome unit :=
  if negb (Fs.exists_ fs full_path) || negb (Fs.is_dir fs full_path)
  then (fs, Failed (Core FileNotFoundError))
  else if recursive then
    match Tree.rmtree fs full_path with
    | (fs, Raise e) => (fs, Failed (Core e))
    | (fs, Ok _) => (fs, Done tt)
    end
  else
    match Tree.iterdir fs full_path with
    | _ :: _ => (fs, Failed (ValueErrorOf DirectoryNotEmpty))
    | [] =>
        match Tree.rmdir fs full_path with
        | Raise e => (fs, Failed (Core e))
        | Ok fs => (fs, Done tt)
        end
    end.

(** [delete_directory(relative_path, recursive=False)] *)
Definition delete_directory
    (relative_path : string) (recursive : bool)
    (st : LockManager.state) (fs : FS)
  : LockManager.state * FS * outcome unit :=
  match resolve_secure_path config relative_path None with
  | Raise e => (st, fs, Failed (Core e))
  | Ok full_path =>
      run_locked (_delete_directory recursive full_path) full_path st fs
  end.

(** [_move] of [move] *)
Definition _move (source_path dest_path : list string) (fs : FS)
  : FS * outcome unit :=
  if negb (Fs.exists_ fs source_path)
  then (fs, Failed (Core FileNotFoundError))
  else if Fs.exists_ fs dest_path then (fs, Failed FileExistsError)
  else
    match Fs.mkdir fs (Fs.parent dest_path) with
    | Raise e => (fs, Failed (Core e))
    | Ok fs =>
        match Tree.move fs source_path dest_path with
        | Raise e => (fs, Failed (Core e))
        | Ok fs => (fs, Done tt)
        end
    end.

(** [move(source, destination)] *)
Definition move
    (source destination : string) (st : LockManager.state) (fs : FS)
  : LockManager.state * FS * outcome unit :=
  match resolve_secure_path config source None with
  | Raise e => (st, fs, Failed (Core e))
  | Ok source_path =>
  match resolve_secure_path config destination None with
  | Raise e => (st, fs, Failed (Core e))
  | Ok dest_path =>
      run_locked_multi (_move source_path dest_path)
                       [source_path; dest_path] st fs
  end end.

(** The dictionary of one entry of the directory. *)
Definition list_item (kv : list string * node) : item :=
  match kv.2 with
  | Dir => {| item_name := Fs.name kv.1;
              item_type := "directory";
              item_size := None |}
  | File c => {| item_name := Fs.name kv.1;
                 item_type := "file";
                 item_size := Some (st_size c) |}
  end.

(** [list_directory(relative_path=".")] *)
Definition list_directory (relative_path : string) (fs : FS)
  : outcome (list item) :=
  match resolve_secure_path config relative_path None with
  | Raise e => Failed (Core e)
  | Ok full_path =>
      if negb (Fs.exists_ fs full_path) || negb (Fs.is_dir fs full_path)
      then Failed NotADirectoryError
      else Done (merge_sort item_le
                   (map list_item (Tree.iterdir fs full_path)))
  end.

(** [create_zip(archive_path, sources, user_id)] *)
Definition create_zip
    (archive_path : string) (sources : list string) (user_id : Z)
    (s : FS * DB)
  : (FS * DB) * outcome (list string) :=
  let (fs, db) := s in
  match resolve_secure_path config archive_path None with
  | Raise e => (s, Failed (Core e))
  | Ok archive_full_path =>
  match mapM (fun s => resolve_secure_path config s None) sources with
  | Raise e => (s, Failed (Core e))
  | Ok source_paths =>
  match safe_create_zip config deflated container_size
          (map PosixPath.str source_paths)
          (PosixPath.str archive_full_path) fs with
  | (fs, Raise e) => ((fs, db), refused (Raise e))
  | (fs, Ok result_path) =>
      if stat_fails env then ((fs, db), Failed (Core OSError))
      else
        let file_size := stat_size fs result_path in
        if db_fails env then ((fs, db), Failed (Core OSError))
        else
          let (db, _) :=
            record_create archive_path (Fs.name result_path)
                          file_size user_id db in
          ((fs, db), Done result_path)
  end end end.

(** [extract_zip(archive_path, destination)] *)
Definition extract_zip (archive_path destination : string) (w : world)
  : world * outcome (list (list string)) :=
  match resolve_secure_path config archive_path None with
  | Raise e => (w, Failed (Core e))
  | Ok archive_full_path =>
  match resolve_secure_path config destination None with
  | Raise e => (w, Failed (Core e))
  | Ok dest_full_path =>
      if negb (Fs.exists_ (files w) archive_full_path)
      then (w, Failed (Core FileNotFoundError))
      else
        let (w, r) :=
          safe_extract_zip config archive_full_path
            (PosixPath.str dest_full_path) None w in
        (w, refused r)
  end end.

End FileManager.

(** ** Predicates of the statements *)

(** A name that [normpath] and the joining of paths keep as one name:
    not empty, neither ["."] nor [".."], and without separator. *)
Definition plain_name (n : string) : bool :=
  negb (String.eqb n "") && negb (String.eqb n ".")
  && negb (String.eqb n "..") && negb (PosixPath.contains_sep n).

Definition plain (p : list string) : bool := forallb plain_name p.

(** A name as [Path.resolve] leaves it: a plain name that holds no NUL
    character. *)
Definition clean_name (n : string) : bool :=
  plain_name n && negb (PosixPath.has_nul n).

Definition canonical (p : list string) : bool := forallb clean_name p.

(** A component that [normpath] keeps: a clean name or [".."]. *)
Definition segment_name (n : string) : bool :=
  negb (String.eqb n "") && negb (String.eqb n ".")
  && negb (PosixPath.contains_sep n).

Definition segments (p : list string) : bool := forallb segment_name p.

(** The string is empty or starts with no separator. *)
Definition starts_clear (s : string) : Prop :=
  match s with
  | String c _ => PosixPath.is_sep c = false
  | EmptyString => True
  end.

(** [p] is [root] or lies below it: the string of [p] is the string of
    [root], or starts with it and a separator. *)
Definition inside (root p : list string) : Prop :=
  PosixPath.str p = PosixPath.str root
  \/ PosixPath.startswith (PosixPath.str p) (PosixPath.str root +:+ "/") = true.

(** A stored name that is absolute or has a parent-directory segment. *)
Definition unsafe_name (entry : string) : bool :=
  PosixPath.startswith entry "/"
  || existsb (String.eqb "..") (PosixPath.split entry).

(** What an extraction may add to the world: items of the record of
    writes, and regular files, each of at most [ZIP_MAX_TOTAL_SIZE]
    bytes. *)
Definition grows (config : Config) (w w' : world) : Prop :=
  (exists items,
      written w' = written w ++ items
      /\ Forall (fun item : list string * N =>
                   (item.2 <= ZIP_MAX_TOTAL_SIZE config)%N) items)
  /\ forall p c,
       files w' !! p = Some (File c) ->
       files w !! p = Some (File c)
       \/ (st_size c <= ZIP_MAX_TOTAL_SIZE config)%N.

(** All the bytes that the record of writes holds. *)
Definition total_written (w : world) : N :=
  fold_right N.add 0%N (map snd (written w)).

(** A chain of nested archives. [chain n] has [n] archives below it:
    each is the only member, [inner.zip], of the one above it, and the
    innermost holds one text file. The sizes declared are the sizes of
    the streams, and an archive is larger than the one that it holds. *)
Definition chain_size (n : nat) : N := 122 * N.of_nat (S n).

Fixpoint chain (n : nat) : list ZipInfo :=
  match n with
  | O => [mkZipInfo "data.txt" 5 5 5 None]
  | S n' =>
      [mkZipInfo "inner.zip" (chain_size n') (chain_size n') (chain_size n')
                 (Some (chain n'))]
  end.

(** The names of the regular files of such a chain, and the paths that
    use none of them. *)
Definition leaf_name (n : string) : bool :=
  String.eqb n "inner.zip" || String.eqb n "data.txt"
  || String.eqb n "outer.zip".

Definition dir_path (p : list string) : bool :=
  forallb (fun n => negb (leaf_name n)) p.

(** A file system in which the regular files have such names and the
    directories do not. *)
Definition tidy (fs : FS) : Prop :=
  forall p nd,
    fs !! p = Some nd ->
    match nd with
    | File _ => leaf_name (List.last p "") = true
    | Dir => dir_path p = true
    end.

(** The staging path of [write_file]: the name of the target with
    [.tmp] after it, in the same directory. *)
Definition staging_path (full_path : list string) : list string :=
  removelast full_path ++ [List.last full_path "" +:+ ".tmp"].

(** Reading the words of the specification: the target gets the new
    content in one step, and no staging file is left. *)
Definition atomic_replace (fs : FS) (target : list string) (data : string)
  : FS :=
  delete (staging_path target) (<[target := File (Text data)]> fs).

(** Whether the lock of a key is held. *)
Definition locked (st : LockManager.state) (key : string) : bool :=
  match LockManager.locks st !! key with
  | Some true => true
  | _ => false
  end.

(** The string handed to [base_path / normalized]. *)
Definition sandbox_relative (relative_path : string) : string :=
  let normalized := PosixPath.normpath relative_path in
  if PosixPath.contains_sep normalized
     && PosixPath.startswith normalized PosixPath.sep
  then PosixPath.lstrip normalized
  else normalized.

(** What an extraction may add, by place: items of the record of
    writes and regular files, at paths whose string starts with the
    string of [root]. *)
Definition confined (root : list string) (w w' : world) : Prop :=
  (exists items,
      written w' = written w ++ items
      /\ Forall (fun item : list string * N =>
                   PosixPath.startswith (PosixPath.str item.1)
                                        (PosixPath.str root) = true) items)
  /\ forall p c,
       files w' !! p = Some (File c) ->
       files w !! p = Some (File c)
       \/ PosixPath.startswith (PosixPath.str p) (PosixPath.str root) = true.

(** A file system in which every entry has a directory above it. *)
Definition well_formed (fs : FS) : Prop :=
  forall q nd, fs !! q = Some nd -> q <> [] /\ Fs.is_dir fs (Fs.parent q) = true.

(** Two nodes of the same kind, and a file system that has every entry
    of another, with its kind. *)
Definition same_kind (a b : node) : bool :=
  match a, b with
  | Dir, Dir => true
  | File _, File _ => true
  | _, _ => false
  end.

Definition kept (fs fs' : FS) : Prop :=
  forall p nd,
    fs !! p = Some nd ->
    exists nd', fs' !! p = Some nd' /\ same_kind nd nd' = true.

(** A small sandbox on which the properties are evaluated: two text
    files and a directory below [/srv/sandbox], no lock held, and a
    metadata store that keeps the records of the files. *)
Definition sample_fs : FS :=
  {[ ["srv"] := Dir;
     ["srv"; "sandbox"] := Dir;
     ["srv"; "sandbox"; "docs"] := Dir;
     ["srv"; "sandbox"; "docs"; "a.txt"] := File (Text "hello");
     ["srv"; "sandbox"; "b.txt"] := File (Text "bye") ]}.

Definition idle : LockManager.state := LockManager.mkState ∅ [].

Definition sample_create
    (location name : string) (size : N) (user : Z) (db : list FileRecord)
  : list FileRecord * FileRecord :=
  let r := mkFileRecord name size location user in (db ++ [r], r).

Definition sample_user (user_id : Z) (db : list FileRecord) : bool :=
  (user_id =? 7)%Z.

(** * Properties *)

(** ** Strings and paths *)

Section PathFacts.

Import PosixPath.

Local Arguments String.append : simpl nomatch.

Lemma is_sep_true c : is_sep c = true -> c = "/"%char.
Proof. unfold is_sep. intros H. now apply Ascii.eqb_eq in H. Qed.

Lemma split_nonempty s : split s <> [].
Proof.
  destruct s as [|c s]; simpl; [discriminate|].
  destruct (is_sep c); [discriminate|].
  destruct (split s); discriminate.
Qed.

Lemma split_no_sep s : Forall (fun c => contains_sep c = false) (split s).
Proof.
  induction s as [|c s IH]; simpl.
  - constructor; [reflexivity|constructor].
  - destruct (is_sep c) eqn:Hc.
    + constructor; [reflexivity|exact IH].
    + destruct (split s) as [|w ws]; simpl.
      * constructor; [simpl; now rewrite Hc|constructor].
      * inversion IH; subst. constructor; [simpl; now rewrite Hc|assumption].
Qed.

Lemma split_app_no_sep w s :
  contains_sep w = false ->
  split (w +:+ s) =
    match split s with
    | [] => [w]
    | x :: xs => (w +:+ x) :: xs
    end.
Proof.
  induction w as [|c w IH]; simpl; intros Hw.
  - destruct (split s) eqn:E; [now apply split_nonempty in E|reflexivity].
  - apply orb_false_iff in Hw as [Hc Hw]. rewrite Hc, (IH Hw).
    destruct (split s); reflexivity.
Qed.

Lemma split_single w : contains_sep w = false -> split w = [w].
Proof.
  induction w as [|c w IH]; simpl; intros Hw; [reflexivity|].
  apply orb_false_iff in Hw as [Hc Hw]. now rewrite Hc, (IH Hw).
Qed.

Lemma append_empty_r (s : string) : s +:+ "" = s.
Proof. induction s; simpl; congruence. Qed.

Lemma append_assoc (a b c : string) : (a +:+ b) +:+ c = a +:+ (b +:+ c).
Proof. induction a; simpl; congruence. Qed.

Lemma join_cons x l : l <> [] -> join (x :: l) = x +:+ "/" +:+ join l.
Proof. destruct l; [congruence|reflexivity]. Qed.

Lemma split_join l :
  l <> [] -> Forall (fun c => contains_sep c = false) l -> split (join l) = l.
Proof.
  induction l as [|x l IH]; [congruence|]. intros _ Hl.
  inversion Hl as [|? ? Hx Hl']; subst.
  destruct l as [|y l].
  - simpl. now apply split_single.
  - rewrite join_cons by discriminate.
    rewrite split_app_no_sep by assumption.
    change ("/" +:+ join (y :: l)) with (String "/" (join (y :: l))).
    cbn [split]. change (is_sep "/") with true. cbn iota.
    rewrite IH by (discriminate || assumption).
    now rewrite append_empty_r.
Qed.

(** *** Names *)

Lemma plain_name_spec n :
  plain_name n = true <->
  n <> "" /\ n <> "." /\ n <> ".." /\ contains_sep n = false.
Proof.
  unfold plain_name.
  rewrite !andb_true_iff, !negb_true_iff, !String.eqb_neq. tauto.
Qed.

Lemma segment_name_spec n :
  segment_name n = true <->
  n <> "" /\ n <> "." /\ contains_sep n = false.
Proof.
  unfold segment_name.
  rewrite !andb_true_iff, !negb_true_iff, !String.eqb_neq. tauto.
Qed.

Lemma plain_segment n : plain_name n = true -> segment_name n = true.
Proof. rewrite plain_name_spec, segment_name_spec. tauto. Qed.

Lemma plain_segments l : plain l = true -> segments l = true.
Proof.
  unfold plain, segments. rewrite !forallb_forall.
  intros H x Hx. apply plain_segment. now apply H.
Qed.

Lemma segment_keep n : segment_name n = true -> keep_part n = true.
Proof.
  rewrite segment_name_spec. intros (H1 & H2 & _). unfold keep_part.
  apply String.eqb_neq in H1, H2. now rewrite H1, H2.
Qed.

Lemma segments_no_sep l :
  segments l = true -> Forall (fun c => contains_sep c = false) l.
Proof.
  unfold segments. rewrite forallb_forall, List.Forall_forall.
  intros H x Hx. apply H in Hx. now apply segment_name_spec in Hx.
Qed.

Lemma plain_app l1 l2 :
  plain (l1 ++ l2) = plain l1 && plain l2.
Proof. apply forallb_app. Qed.

Lemma segments_app l1 l2 :
  segments (l1 ++ l2) = segments l1 && segments l2.
Proof. apply forallb_app. Qed.

Lemma segments_filter_keep l :
  segments l = true -> List.filter keep_part l = l.
Proof.
  induction l as [|x l IH]; simpl; [reflexivity|].
  rewrite andb_true_iff. intros [Hx Hl].
  now rewrite (segment_keep _ Hx), (IH Hl).
Qed.

Lemma plain_take n l : plain l = true -> plain (take n l) = true.
Proof.
  revert n. induction l as [|x l IH]; intros [|n]; simpl; try reflexivity.
  rewrite !andb_true_iff. intros [Hx Hl]. auto.
Qed.

Lemma plain_rev l : plain (rev l) = plain l.
Proof.
  induction l as [|x l IH]; [reflexivity|]. simpl rev.
  rewrite plain_app, IH. simpl. rewrite andb_true_r. apply andb_comm.
Qed.

Lemma segments_dotdots k : segments (repeat ".." k) = true.
Proof. induction k; [reflexivity|exact IHk]. Qed.

(** *** The first character of a string *)

Lemma starts_clear_lstrip s : starts_clear s -> lstrip s = s.
Proof. destruct s; simpl; [reflexivity|]. now intros ->. Qed.

Lemma prefix_String a s1 b s2 :
  String.prefix (String a s1) (String b s2) =
  if ascii_dec a b then String.prefix s1 s2 else false.
Proof. reflexivity. Qed.

Lemma prefix_empty s : String.prefix "" s = true.
Proof. now destruct s. Qed.

Lemma starts_clear_startswith s : starts_clear s -> startswith s "/" = false.
Proof.
  destruct s as [|c s]; [reflexivity|]. unfold starts_clear, is_sep.
  intros H. unfold startswith. rewrite prefix_String.
  destruct (ascii_dec "/" c) as [<-|]; [discriminate|reflexivity].
Qed.

Lemma startswith_slash s : startswith (String "/" s) "/" = true.
Proof.
  unfold startswith. rewrite prefix_String.
  destruct (ascii_dec "/" "/"); [apply prefix_empty|congruence].
Qed.

Lemma segment_starts_clear n s :
  segment_name n = true -> starts_clear (n +:+ s).
Proof.
  rewrite segment_name_spec. intros (H1 & _ & H4).
  destruct n as [|c n]; [congruence|]. simpl in *.
  now apply orb_false_iff in H4.
Qed.

Lemma join_starts_clear l : segments l = true -> starts_clear (join l).
Proof.
  destruct l as [|x l]; [exact (fun _ => I)|]. simpl segments.
  rewrite andb_true_iff. intros [Hx _].
  destruct l.
  - change (join [x]) with x.
    rewrite <- (append_empty_r x). now apply segment_starts_clear.
  - rewrite join_cons by discriminate. now apply segment_starts_clear.
Qed.

Lemma join_empty_iff l : segments l = true -> join l = "" -> l = [].
Proof.
  destruct l as [|x l]; [reflexivity|]. simpl segments.
  rewrite andb_true_iff. intros [Hx _] H. exfalso.
  apply segment_name_spec in Hx as (Hx & _).
  destruct l.
  - change (join [x]) with x in H. congruence.
  - rewrite join_cons in H by discriminate.
    destruct x; [congruence|discriminate].
Qed.

Lemma split_join_segments l :
  segments l = true -> List.filter keep_part (split (join l)) = l.
Proof.
  intros Hl. destruct l as [|x l]; [reflexivity|].
  rewrite split_join by (discriminate || now apply segments_no_sep).
  now apply segments_filter_keep.
Qed.

Lemma join_app l1 l2 :
  l1 <> [] -> l2 <> [] -> join (l1 ++ l2) = join l1 +:+ "/" +:+ join l2.
Proof.
  induction l1 as [|x l1 IH]; [congruence|]. intros _ H2.
  destruct l1 as [|y l1].
  - simpl app. now rewrite join_cons.
  - change ((x :: y :: l1) ++ l2) with (x :: (y :: l1) ++ l2).
    rewrite join_cons by discriminate.
    rewrite IH by (discriminate || assumption).
    rewrite (join_cons x (y :: l1)) by discriminate.
    now rewrite !append_assoc.
Qed.

Lemma prefix_append (a b : string) : String.prefix a (a +:+ b) = true.
Proof.
  induction a as [|c a IH]; [apply prefix_empty|].
  change (String c a +:+ b) with (String c (a +:+ b)).
  rewrite prefix_String.
  destruct (ascii_dec c c); [exact IH|congruence].
Qed.

Lemma prefix_refl (a : string) : String.prefix a a = true.
Proof. rewrite <- (append_empty_r a) at 2. apply prefix_append. Qed.

Lemma prefix_trans (a : string) : forall b c,
  String.prefix a b = true -> String.prefix b c = true ->
  String.prefix a c = true.
Proof.
  induction a as [|x a IH]; intros b c Hab Hbc; [apply prefix_empty|].
  destruct b as [|y b]; [discriminate|].
  destruct c as [|z c]; [discriminate|].
  rewrite prefix_String in *.
  destruct (ascii_dec x y) as [->|]; [|discriminate].
  destruct (ascii_dec y z) as [->|]; [|discriminate].
  eauto.
Qed.


Lemma startswith_str_app base names :
  startswith (str (base ++ names)) (str base) = true.
Proof.
  unfold startswith, str.
  destruct names as [|n names].
  - rewrite List.app_nil_r. apply prefix_refl.
  - destruct base as [|b base].
    + simpl app. change (join []) with "". apply prefix_append.
    + rewrite join_app by discriminate.
      rewrite <- append_assoc. apply prefix_append.
Qed.

(** *** [normpath] *)

Lemma rev_repeat {A} (x : A) k : rev (repeat x k) = repeat x k.
Proof.
  induction k as [|k IH]; [reflexivity|]. simpl. rewrite IH.
  change [x] with (repeat x 1). rewrite <- repeat_app.
  now rewrite Nat.add_1_r.
Qed.

(** The stack of [normpath] holds clean names above a run of [".."],
    and the run is empty for a path with initial slashes. *)
Lemma normpath_loop_shape isl comps : forall names k,
  Forall (fun c => contains_sep c = false) comps ->
  plain names = true -> (isl <> 0%nat -> k = 0%nat) ->
  exists names' k',
    normpath_loop isl (names ++ repeat ".." k) comps
      = names' ++ repeat ".." k'
    /\ plain names' = true /\ (isl <> 0%nat -> k' = 0%nat).
Proof.
  induction comps as [|comp rest IH]; intros names k Hc Hn Hk.
  { exists names, k. auto. }
  inversion Hc as [|? ? Hcomp Hrest]; subst. cbn [normpath_loop].
  destruct (String.eqb comp "") eqn:E1; [now apply IH|].
  destruct (String.eqb comp ".") eqn:E2; [now apply IH|].
  cbn [orb].
  destruct (String.eqb comp "..") eqn:E3; cbn [negb orb].
  - apply String.eqb_eq in E3. subst comp.
    destruct names as [|n names].
    + destruct k as [|k].
      * cbn [app repeat]. destruct isl as [|isl]; cbn [Nat.eqb andb orb].
        -- apply (IH [] 1%nat); auto; congruence.
        -- apply (IH [] 0%nat); auto.
      * assert (isl = 0%nat) as -> by (destruct isl; [reflexivity|];
          discriminate Hk; discriminate).
        cbn [app repeat Nat.eqb andb orb]. change (".." =? "..")%string with true.
        apply (IH [] (S (S k))); auto; congruence.
    + cbn [app]. simpl in Hn. apply andb_true_iff in Hn as [Hn1 Hn2].
      assert ((n =? "..")%string = false) as ->.
      { apply String.eqb_neq. now apply plain_name_spec in Hn1. }
      rewrite andb_false_r. cbn [orb]. now apply IH.
  - assert (plain (comp :: names) = true) as Hn'.
    { simpl. rewrite Hn, andb_true_r. unfold plain_name.
      now rewrite E1, E2, E3, Hcomp. }
    now apply (IH (comp :: names) k).
Qed.

(** The components of a normalized path. *)
Lemma normpath_comps isl path :
  exists k names,
    rev (normpath_loop isl [] (split path)) = repeat ".." k ++ names
    /\ plain names = true /\ (isl <> 0%nat -> k = 0%nat).
Proof.
  destruct (normpath_loop_shape isl (split path) [] 0%nat)
    as (names & k & E & Hn & Hk); auto using split_no_sep.
  cbn [app repeat] in E. rewrite E.
  exists k, (rev names). rewrite rev_app_distr, rev_repeat, plain_rev.
  auto.
Qed.

Lemma segments_mixed k names :
  plain names = true -> segments (repeat ".." k ++ names) = true.
Proof.
  intros H. rewrite segments_app, segments_dotdots.
  now apply plain_segments.
Qed.

(** What [resolve_secure_path] joins to the base: some [".."], none of
    them for an input with initial slashes, then clean names. *)
Lemma sandbox_relative_parts path :
  exists k names,
    plain names = true
    /\ List.filter keep_part (split (sandbox_relative path))
       = repeat ".." k ++ names
    /\ startswith (sandbox_relative path) "/" = false
    /\ (k <> 0%nat -> hd_error (split (normpath path)) = Some "..").
Proof.
  unfold sandbox_relative, normpath, sep.
  destruct (String.eqb path "") eqn:E0.
  { exists 0%nat, []. repeat split; try reflexivity. congruence. }
  set (isl := if startswith path "/"
              then if startswith path "//" && negb (startswith path "///")
                   then 2%nat else 1%nat
              else 0%nat).
  destruct (normpath_comps isl path) as (k & names & -> & Hn & Hk).
  pose proof (segments_mixed k names Hn) as Hs.
  pose proof (join_starts_clear _ Hs) as Hclear.
  assert (Hsplit : List.filter keep_part
                     (split (join (repeat ".." k ++ names)))
                   = repeat ".." k ++ names)
    by now apply split_join_segments.
  clearbody isl. destruct isl as [|[|j]].
  - destruct (String.eqb (join (repeat ".." k ++ names)) "") eqn:E.
    + apply String.eqb_eq in E. apply join_empty_iff in E; [|assumption].
      apply app_eq_nil in E as [Ek ->].
      exists 0%nat, []. repeat split; try reflexivity. congruence.
    + rewrite (starts_clear_startswith _ Hclear), andb_false_r.
      exists k, names. repeat split; auto using starts_clear_startswith.
      intros Hk0. destruct k as [|k]; [congruence|].
      rewrite split_join
        by (try (now apply segments_no_sep); destruct names; discriminate).
      reflexivity.
  - change ("/" +:+ ?x) with (String "/" x).
    cbn [String.eqb contains_sep lstrip]. change (is_sep "/") with true.
    cbn [orb andb]. rewrite startswith_slash.
    rewrite (starts_clear_lstrip _ Hclear).
    rewrite (Hk ltac:(discriminate)) in *.
    exists 0%nat, names. repeat split; auto.
    + now apply starts_clear_startswith.
    + congruence.
  - change ("//" +:+ ?x) with (String "/" (String "/" x)).
    cbn [String.eqb contains_sep lstrip]. change (is_sep "/") with true.
    cbn [orb andb]. rewrite startswith_slash.
    rewrite (starts_clear_lstrip _ Hclear).
    rewrite (Hk ltac:(discriminate)) in *.
    exists 0%nat, names. repeat split; auto.
    + now apply starts_clear_startswith.
    + congruence.
Qed.

(** *** [resolve] *)

Lemma resolve_loop_dotdots k : forall acc rest,
  resolve_loop acc (repeat ".." k ++ rest) = resolve_loop (drop k acc) rest.
Proof.
  induction k as [|k IH]; intros acc rest; [reflexivity|].
  cbn [repeat app resolve_loop]. change (".." =? "..")%string with true.
  cbn iota. rewrite IH.
  destruct acc; simpl; [now rewrite drop_nil|reflexivity].
Qed.

Lemma resolve_loop_app_clean l1 : forall acc l2,
  plain l1 = true ->
  resolve_loop acc (l1 ++ l2) = resolve_loop (rev l1 ++ acc) l2.
Proof.
  induction l1 as [|x l1 IH]; intros acc l2 H; [reflexivity|].
  simpl in H. apply andb_true_iff in H as [Hx Hl].
  apply plain_name_spec in Hx as (_ & H2 & H3 & _).
  apply String.eqb_neq in H2, H3.
  cbn [app resolve_loop]. rewrite H2, H3, (IH _ _ Hl).
  cbn [rev]. now rewrite <- List.app_assoc.
Qed.

Lemma resolve_loop_clean names acc :
  plain names = true -> resolve_loop acc names = rev acc ++ names.
Proof.
  intros H. rewrite <- (List.app_nil_r names) at 1.
  rewrite resolve_loop_app_clean by assumption. cbn [resolve_loop].
  now rewrite rev_app_distr, rev_involutive.
Qed.

Lemma resolve_plain p : plain p = true -> resolve p = p.
Proof. intros H. unfold resolve. now rewrite resolve_loop_clean. Qed.

Lemma resolve_climb base k names :
  plain base = true -> plain names = true ->
  resolve (base ++ repeat ".." k ++ names)
    = take (length base - k) base ++ names.
Proof.
  intros Hb Hn. unfold resolve.
  rewrite resolve_loop_app_clean, resolve_loop_dotdots by assumption.
  rewrite List.app_nil_r, resolve_loop_clean by assumption.
  now rewrite skipn_rev, rev_involutive.
Qed.

(** *** The NUL character *)

Lemma has_nul_append (a b : string) :
  has_nul (a +:+ b) = has_nul a || has_nul b.
Proof.
  induction a as [|c a IH]; [reflexivity|].
  change (String c a +:+ b) with (String c (a +:+ b)).
  cbn [has_nul]. now rewrite IH, orb_assoc.
Qed.

Lemma has_nul_split s : existsb has_nul (split s) = has_nul s.
Proof.
  induction s as [|c s IH]; [reflexivity|]. cbn [split has_nul].
  unfold is_sep. destruct (Ascii.eqb c "/") eqn:Hc.
  - apply Ascii.eqb_eq in Hc. subst c. cbn [existsb has_nul]. exact IH.
  - rewrite <- IH. destruct (split s) as [|w ws]; cbn [existsb has_nul].
    + now rewrite !orb_false_r.
    + now rewrite orb_assoc.
Qed.

Lemma has_nul_join l : has_nul (join l) = existsb has_nul l.
Proof.
  induction l as [|x l IH]; [reflexivity|].
  destruct l as [|y l].
  - change (join [x]) with x. cbn [existsb]. now rewrite orb_false_r.
  - rewrite join_cons by discriminate.
    rewrite !has_nul_append, IH. reflexivity.
Qed.

Lemma has_nul_lstrip s : has_nul (lstrip s) = has_nul s.
Proof.
  induction s as [|c s IH]; [reflexivity|]. cbn [lstrip].
  unfold is_sep. destruct (Ascii.eqb c "/") eqn:Hc; [|reflexivity].
  apply Ascii.eqb_eq in Hc. subst c. exact IH.
Qed.

Lemma embedded_nul_app l1 l2 :
  embedded_nul (l1 ++ l2) = embedded_nul l1 || embedded_nul l2.
Proof. apply existsb_app. Qed.

Lemma embedded_nul_dotdots k : embedded_nul (repeat ".." k) = false.
Proof. induction k; [reflexivity|exact IHk]. Qed.

Lemma embedded_nul_filter l :
  embedded_nul (List.filter keep_part l) = embedded_nul l.
Proof.
  induction l as [|x l IH]; [reflexivity|]. cbn [List.filter].
  unfold keep_part at 1.
  destruct (String.eqb x "") eqn:E1.
  { apply String.eqb_eq in E1. subst x. exact IH. }
  destruct (String.eqb x ".") eqn:E2.
  { apply String.eqb_eq in E2. subst x. exact IH. }
  cbn [orb negb]. unfold embedded_nul in *. cbn [existsb]. now rewrite IH.
Qed.

Lemma embedded_nul_take n l :
  embedded_nul l = false -> embedded_nul (take n l) = false.
Proof.
  revert n. induction l as [|x l IH]; intros [|n]; try reflexivity.
  unfold embedded_nul in *. cbn [take existsb].
  rewrite !orb_false_iff. intros [Hx Hl]. auto.
Qed.

(** *** Canonical paths *)

Lemma clean_name_spec n :
  clean_name n = true <->
  n <> "" /\ n <> "." /\ n <> ".." /\ contains_sep n = false
  /\ has_nul n = false.
Proof.
  unfold clean_name.
  rewrite andb_true_iff, negb_true_iff, plain_name_spec. tauto.
Qed.

Lemma canonical_spec p :
  canonical p = plain p && negb (embedded_nul p).
Proof.
  induction p as [|x p IH]; [reflexivity|].
  unfold canonical, plain, embedded_nul in *. cbn [forallb existsb].
  rewrite IH. unfold clean_name.
  destruct (plain_name x), (has_nul x), (forallb plain_name p); reflexivity.
Qed.

Lemma canonical_plain p : canonical p = true -> plain p = true.
Proof. rewrite canonical_spec. now intros [H _]%andb_true_iff. Qed.

Lemma canonical_nul_free p : canonical p = true -> embedded_nul p = false.
Proof.
  rewrite canonical_spec. intros [_ H]%andb_true_iff.
  now apply negb_true_iff.
Qed.

Lemma canonical_intro p :
  plain p = true -> embedded_nul p = false -> canonical p = true.
Proof. rewrite canonical_spec. now intros -> ->. Qed.

Lemma clean_segment n : clean_name n = true -> segment_name n = true.
Proof. rewrite clean_name_spec, segment_name_spec. tauto. Qed.

Lemma canonical_segments l : canonical l = true -> segments l = true.
Proof. intros H. now apply plain_segments, canonical_plain. Qed.

Lemma canonical_app l1 l2 :
  canonical (l1 ++ l2) = canonical l1 && canonical l2.
Proof. apply forallb_app. Qed.

Lemma canonical_take n l : canonical l = true -> canonical (take n l) = true.
Proof.
  revert n. induction l as [|x l IH]; intros [|n]; simpl; try reflexivity.
  rewrite !andb_true_iff. intros [Hx Hl]. auto.
Qed.

Lemma canonical_rev l : canonical (rev l) = canonical l.
Proof.
  induction l as [|x l IH]; [reflexivity|]. simpl rev.
  rewrite canonical_app, IH. simpl. rewrite andb_true_r. apply andb_comm.
Qed.

Lemma resolve_canonical p : canonical p = true -> resolve p = p.
Proof. intros H. now apply resolve_plain, canonical_plain. Qed.

(** *** [resolve_secure_path], step by step *)

(** The names that [resolve_secure_path] joins to the base hold a NUL
    character when the normalized input does. *)
Lemma sandbox_relative_nul path :
  embedded_nul (List.filter keep_part (split (sandbox_relative path)))
  = has_nul (normpath path).
Proof.
  rewrite embedded_nul_filter. unfold embedded_nul.
  rewrite has_nul_split. unfold sandbox_relative.
  destruct (_ && _); [apply has_nul_lstrip|reflexivity].
Qed.

Lemma resolve_secure_path_unfold config path :
  canonical (SANDBOX_ROOT config) = true ->
  exists k names,
    plain names = true
    /\ (k <> 0%nat -> hd_error (split (normpath path)) = Some "..")
    /\ embedded_nul names = has_nul (normpath path)
    /\ forall target,
         target = take (length (SANDBOX_ROOT config) - k) (SANDBOX_ROOT config)
                  ++ names ->
         PosixPath.joinpath (SANDBOX_ROOT config) (sandbox_relative path)
           = SANDBOX_ROOT config ++ repeat ".." k ++ names
         /\ (embedded_nul names = false -> canonical target = true)
         /\ resolve_secure_path config path None =
            if embedded_nul names then Raise (ValueError EmbeddedNull)
            else if startswith (str target) (str (SANDBOX_ROOT config))
            then Ok target else Raise PermissionError.
Proof.
  intros Hroot. pose proof (canonical_plain _ Hroot) as Hplain.
  pose proof (canonical_nul_free _ Hroot) as Hfree.
  destruct (sandbox_relative_parts path) as (k & names & Hn & Hf & Hs & Hk).
  exists k, names. split; [assumption|]. split; [assumption|].
  split.
  { rewrite <- sandbox_relative_nul, Hf, embedded_nul_app.
    now rewrite embedded_nul_dotdots. }
  intros target ->.
  assert (Hj : joinpath (SANDBOX_ROOT config) (sandbox_relative path)
               = SANDBOX_ROOT config ++ repeat ".." k ++ names).
  { unfold joinpath. now rewrite Hs, Hf. }
  split; [assumption|]. split.
  { intros Hnul. apply canonical_intro.
    - rewrite plain_app, Hn, andb_true_r. now apply plain_take.
    - rewrite embedded_nul_app, Hnul, orb_false_r.
      now apply embedded_nul_take. }
  unfold resolve_secure_path. fold (sandbox_relative path).
  cbv zeta. rewrite Hj, !embedded_nul_app, Hfree, embedded_nul_dotdots.
  cbn [orb]. rewrite orb_false_r.
  destruct (embedded_nul names); [reflexivity|].
  rewrite resolve_climb, (resolve_plain _ Hplain) by assumption.
  destruct (startswith (str _) _); reflexivity.
Qed.

(** *** Lengths *)

Lemma length_append (a b : string) :
  String.length (a +:+ b) = (String.length a + String.length b)%nat.
Proof. induction a; simpl; congruence. Qed.



End PathFacts.

(** ** Path resolution *)

Section Resolve.

Import PosixPath.

Local Arguments String.append : simpl nomatch.

(** C1, evaluated: with the sandbox at [/srv/sandbox], the input
    [../sandbox_evil/x] is accepted and its result
    [/srv/sandbox_evil/x] is a sibling of the sandbox, neither the
    root nor below it; the test compares the strings without a
    separator after the root. *)
Theorem resolve_secure_path_sibling_escape :
  resolve_secure_path default_config "../sandbox_evil/x" None
    = Ok ["srv"; "sandbox_evil"; "x"]
  /\ ~ inside (SANDBOX_ROOT default_config) ["srv"; "sandbox_evil"; "x"].
Proof.
  split; [reflexivity|].
  intros [H|H]; vm_compute in H; discriminate.
Qed.

(** The two errors of [resolve_secure_path]. *)
Lemma resolve_secure_path_raises config path e :
  resolve_secure_path config path None = Raise e ->
  e = PermissionError \/ e = ValueError EmbeddedNull.
Proof.
  unfold resolve_secure_path. cbv zeta.
  destruct (_ || _); [intros [= <-]; now right|].
  destruct (negb _); [intros [= <-]; now left|discriminate].
Qed.




(** *** Resolving a canonical path again *)

Lemma normpath_loop_clean isl names : forall stack,
  canonical names = true ->
  normpath_loop isl stack names = rev names ++ stack.
Proof.
  induction names as [|n names IH]; intros stack H; [reflexivity|].
  simpl in H. apply andb_true_iff in H as [Hn Hl].
  apply clean_name_spec in Hn as (H1 & H2 & H3 & _).
  apply String.eqb_neq in H1, H2, H3.
  cbn [normpath_loop]. rewrite H1, H2, H3. cbn [orb negb].
  rewrite (IH _ Hl). cbn [rev]. now rewrite <- List.app_assoc.
Qed.

Lemma slash_append s : "/" +:+ s = String "/" s.
Proof. reflexivity. Qed.

Lemma normpath_str r : canonical r = true -> normpath (str r) = str r.
Proof.
  intros Hr. pose proof (canonical_segments _ Hr) as Hs.
  unfold normpath, str. rewrite !slash_append.
  cbn [String.eqb]. rewrite startswith_slash.
  assert (startswith (String "/" (join r)) "//" = false) as ->.
  { unfold startswith. rewrite prefix_String.
    destruct (ascii_dec "/" "/"); [|congruence].
    apply (starts_clear_startswith _ (join_starts_clear _ Hs)). }
  cbn [andb split]. change (is_sep "/") with true. cbn iota.
  cbn [normpath_loop String.eqb orb].
  destruct r as [|x r].
  - reflexivity.
  - rewrite split_join by (discriminate || now apply segments_no_sep).
    rewrite normpath_loop_clean by assumption.
    now rewrite List.app_nil_r, rev_involutive.
Qed.

Lemma sandbox_relative_str r :
  canonical r = true -> sandbox_relative (str r) = join r.
Proof.
  intros Hr. unfold sandbox_relative. rewrite (normpath_str _ Hr).
  unfold str, sep. rewrite !slash_append.
  rewrite startswith_slash. cbn [contains_sep lstrip].
  change (is_sep "/") with true. cbn [orb andb].
  apply starts_clear_lstrip, join_starts_clear.
  now apply canonical_segments.
Qed.

Lemma sandbox_relative_join names :
  canonical names = true -> names <> [] ->
  sandbox_relative (join names) = join names.
Proof.
  intros Hn Hne. pose proof (canonical_segments _ Hn) as Hs.
  unfold sandbox_relative, normpath, sep.
  destruct (String.eqb (join names) "") eqn:E.
  { apply String.eqb_eq in E. now apply join_empty_iff in E. }
  rewrite (starts_clear_startswith _ (join_starts_clear _ Hs)).
  rewrite split_join by (assumption || now apply segments_no_sep).
  rewrite normpath_loop_clean by assumption.
  rewrite List.app_nil_r, rev_involutive, E.
  now rewrite (starts_clear_startswith _ (join_starts_clear _ Hs)),
    andb_false_r.
Qed.

Lemma resolve_secure_path_below config names s :
  canonical (SANDBOX_ROOT config) = true -> canonical names = true ->
  List.filter keep_part (split (sandbox_relative s)) = names ->
  startswith (sandbox_relative s) "/" = false ->
  resolve_secure_path config s None = Ok (SANDBOX_ROOT config ++ names).
Proof.
  intros Hroot Hn Hsplit Hstart.
  unfold resolve_secure_path. fold (sandbox_relative s). cbv zeta.
  unfold joinpath. rewrite Hstart, Hsplit.
  rewrite embedded_nul_app, !(canonical_nul_free _ Hroot),
    (canonical_nul_free _ Hn). cbn [orb].
  rewrite !resolve_canonical
    by (assumption || (rewrite canonical_app; now rewrite Hroot, Hn)).
  now rewrite startswith_str_app.
Qed.

Lemma resolve_secure_path_str config r :
  canonical (SANDBOX_ROOT config) = true -> canonical r = true ->
  resolve_secure_path config (str r) None = Ok (SANDBOX_ROOT config ++ r).
Proof.
  intros Hroot Hr.
  apply resolve_secure_path_below; try assumption;
    rewrite sandbox_relative_str by assumption.
  - now apply split_join_segments, canonical_segments.
  - now apply starts_clear_startswith, join_starts_clear,
      canonical_segments.
Qed.

Lemma resolve_secure_path_canonical config path r :
  canonical (SANDBOX_ROOT config) = true ->
  resolve_secure_path config path None = Ok r -> canonical r = true.
Proof.
  intros Hroot Hres.
  destruct (resolve_secure_path_unfold config path Hroot)
    as (k & names & Hn & Hk & Hnul & Hspec).
  destruct (Hspec _ eq_refl) as (Hj & Hc & Hr).
  rewrite Hr in Hres. destruct (embedded_nul names); [discriminate|].
  destruct (startswith _ _); [|discriminate].
  injection Hres as <-. now apply Hc.
Qed.

(** C3 as stated fails: the string of the path returned for [a] is
    resolved to a different path. *)
Lemma resolve_not_idempotent :
  resolve_secure_path default_config "a" None = Ok ["srv"; "sandbox"; "a"]
  /\ resolve_secure_path default_config (str ["srv"; "sandbox"; "a"]) None
     = Ok ["srv"; "sandbox"; "srv"; "sandbox"; "a"]
  /\ resolve_secure_path default_config (str ["srv"; "sandbox"; "a"]) None
     <> resolve_secure_path default_config "a" None.
Proof. repeat split; try reflexivity. vm_compute. discriminate. Qed.

(** C3, amended: the path that [resolve_secure_path] returns is
    canonical. Resolving its string again takes that string as
    relative to the sandbox and returns the sandbox root followed by
    the whole path; resolving the path written relative to the sandbox
    root returns the same path. *)
Theorem resolve_again (config : Config) (path : string) (r : list string) :
  canonical (SANDBOX_ROOT config) = true ->
  resolve_secure_path config path None = Ok r ->
  canonical r = true
  /\ resolve_secure_path config (str r) None = Ok (SANDBOX_ROOT config ++ r)
  /\ (SANDBOX_ROOT config <> [] ->
      resolve_secure_path config (str r) None
      <> resolve_secure_path config path None)
  /\ forall names,
       r = SANDBOX_ROOT config ++ names ->
       resolve_secure_path config
         (match names with [] => "." | _ => join names end) None = Ok r.
Proof.
  intros Hroot Hres.
  destruct (resolve_secure_path_unfold config path Hroot)
    as (k & names & Hn & Hk & Hnul & Hspec).
  destruct (Hspec _ eq_refl) as (Hj & Hc & Hr).
  rewrite Hr in Hres. destruct (embedded_nul names); [discriminate|].
  specialize (Hc eq_refl).
  destruct (startswith _ _); [|discriminate].
  injection Hres as <-. set (r := take _ _ ++ names) in *.
  split; [assumption|].
  assert (Hstr : resolve_secure_path config (str r) None
                 = Ok (SANDBOX_ROOT config ++ r))
    by now apply resolve_secure_path_str.
  split; [exact Hstr|]. split.
  - intros Hne. rewrite Hstr, Hr.
    intros [= E]. apply (f_equal (@length _)) in E.
    rewrite length_app in E.
    destruct (SANDBOX_ROOT config); [congruence|simpl in E; lia].
  - intros below E. rewrite E in *.
    rewrite canonical_app in Hc. apply andb_true_iff in Hc as [_ Hb].
    destruct below as [|n below].
    + now apply resolve_secure_path_below.
    + apply resolve_secure_path_below; try assumption;
        rewrite sandbox_relative_join by (assumption || discriminate).
      * now apply split_join_segments, canonical_segments.
      * now apply starts_clear_startswith, join_starts_clear,
          canonical_segments.
Qed.

Lemma resolve_again_witness :
  resolve_secure_path default_config (str ["srv"; "sandbox"; "a"]) None
    = Ok ["srv"; "sandbox"; "srv"; "sandbox"; "a"]
  /\ resolve_secure_path default_config "a" None
     = Ok ["srv"; "sandbox"; "a"].
Proof.
  destruct (resolve_again default_config "a" ["srv"; "sandbox"; "a"]
              eq_refl eq_refl) as (_ & H1 & _ & H2).
  split; [exact H1|exact (H2 ["a"] eq_refl)].
Defined.


End Resolve.

(** ** The lock manager *)

Section Locks.

Import PosixPath LockManager.

Variable cwd : list string.
Hypothesis cwd_canonical : canonical cwd = true.

Lemma resolve_loop_segments l : forall acc,
  plain acc = true -> segments l = true ->
  plain (resolve_loop acc l) = true.
Proof.
  induction l as [|x l IH]; intros acc Ha Hl; cbn [resolve_loop].
  - now rewrite plain_rev.
  - simpl in Hl. apply andb_true_iff in Hl as [Hx Hl].
    destruct (String.eqb x "..") eqn:E1.
    { apply IH; [|assumption]. destruct acc; [reflexivity|].
      simpl in Ha. now apply andb_true_iff in Ha. }
    destruct (String.eqb x ".") eqn:E2; [now apply IH|].
    apply IH; [|assumption]. simpl. rewrite Ha, andb_true_r.
    apply segment_name_spec in Hx as (H1 & _ & H3).
    apply String.eqb_neq in H1. unfold plain_name.
    now rewrite H1, E1, E2, H3.
Qed.

Lemma segments_split_keep s :
  segments (List.filter keep_part (split s)) = true.
Proof.
  unfold segments. apply forallb_forall. intros x Hx.
  apply filter_In in Hx as [Hin Hk].
  pose proof (split_no_sep s) as Hs.
  rewrite List.Forall_forall in Hs. specialize (Hs _ Hin).
  unfold keep_part in Hk. apply negb_true_iff, orb_false_iff in Hk as [H1 H2].
  unfold segment_name. now rewrite H1, H2, Hs.
Qed.

Lemma joinpath_segments p : segments (joinpath cwd p) = true.
Proof.
  unfold joinpath. destruct (startswith p "/").
  - apply segments_split_keep.
  - rewrite segments_app, segments_split_keep, andb_true_r.
    now apply canonical_segments.
Qed.

(** A lock key is the string of a path in canonical form, of plain
    names only, and is its own key. *)
Lemma lock_key_canonical path :
  exists r, plain r = true /\ _get_lock_key cwd path = str r.
Proof.
  exists (resolve (joinpath cwd path)). split; [|reflexivity].
  apply resolve_loop_segments; [reflexivity|apply joinpath_segments].
Qed.

Lemma joinpath_str base r : plain r = true -> joinpath base (str r) = r.
Proof.
  intros Hr. unfold joinpath, str. rewrite slash_append, startswith_slash.
  cbn [split]. change (is_sep "/") with true. cbn iota.
  cbn [List.filter].
  change (keep_part "") with false. cbn iota.
  now apply split_join_segments, plain_segments.
Qed.

Lemma lock_key_idempotent path :
  _get_lock_key cwd (_get_lock_key cwd path) = _get_lock_key cwd path.
Proof.
  destruct (lock_key_canonical path) as (r & Hr & ->).
  unfold _get_lock_key. now rewrite joinpath_str, resolve_plain.
Qed.

(** *** One lock *)

Lemma get_lock_spec path st :
  exists st',
    _get_lock cwd path st = (st', _get_lock_key cwd path)
    /\ events st' = events st
    /\ forall k, locked st' k = locked st k.
Proof.
  unfold _get_lock.
  destruct (locks st !! _get_lock_key cwd path) eqn:E.
  - exists st. auto.
  - eexists. split; [reflexivity|]. split; [reflexivity|].
    intros k. unfold locked. cbn [locks].
    destruct (decide (_get_lock_key cwd path = k)) as [<-|Hne].
    + now rewrite lookup_insert_eq, E.
    + now rewrite lookup_insert_ne.
Qed.

Lemma acquire_busy key st :
  locked st key = true -> acquire key st = (st, Raise TimeoutError).
Proof.
  unfold locked, acquire.
  destruct (locks st !! key) as [[|]|]; congruence.
Qed.

Lemma acquire_free key st :
  locked st key = false ->
  exists st',
    acquire key st = (st', Ok true)
    /\ events st' = events st ++ [Acquire key]
    /\ forall k, locked st' k = bool_decide (k = key) || locked st k.
Proof.
  unfold locked at 1, acquire. intros H.
  eexists. split; [|split].
  - destruct (locks st !! key) as [[|]|]; [discriminate|reflexivity..].
  - reflexivity.
  - intros k. unfold locked. cbn [locks].
    destruct (decide (k = key)) as [->|Hne].
    + now rewrite lookup_insert_eq, bool_decide_eq_true_2.
    + now rewrite lookup_insert_ne, bool_decide_eq_false_2 by congruence.
Qed.

Lemma release_held key st :
  locked st key = true ->
  exists st',
    release key st = (st', Ok tt)
    /\ events st' = events st ++ [Release key]
    /\ forall k, locked st' k = negb (bool_decide (k = key)) && locked st k.
Proof.
  unfold locked at 1, release. intros H.
  destruct (locks st !! key) as [[|]|]; try discriminate.
  eexists. split; [reflexivity|]. split; [reflexivity|].
  intros k. unfold locked. cbn [locks].
  destruct (decide (k = key)) as [->|Hne].
  - now rewrite lookup_insert_eq, bool_decide_eq_true_2.
  - now rewrite lookup_insert_ne, bool_decide_eq_false_2 by congruence.
Qed.

(** *** Releasing what is held *)

Lemma release_each_spec held : forall st,
  NoDup held -> (forall k, k ∈ held -> locked st k = true) ->
  exists st',
    release_each held st = (st', Ok tt)
    /\ events st' = events st ++ map Release held
    /\ forall k, locked st' k = negb (bool_decide (k ∈ held)) && locked st k.
Proof.
  induction held as [|key held IH]; intros st Hnd Hl.
  - exists st. split; [reflexivity|]. split; [now rewrite List.app_nil_r|].
    intros k. rewrite bool_decide_eq_false_2; [reflexivity|].
    apply not_elem_of_nil.
  - apply NoDup_cons in Hnd as [Hnotin Hnd].
    destruct (release_held key st) as (st1 & E1 & Ev1 & L1).
    { apply Hl. left. }
    destruct (IH st1 Hnd) as (st2 & E2 & Ev2 & L2).
    { intros k Hk. rewrite L1, (Hl k) by now right.
      rewrite bool_decide_eq_false_2; [reflexivity|]. now intros ->. }
    exists st2. cbn [release_each]. rewrite E1, E2.
    split; [reflexivity|]. split.
    + rewrite Ev2, Ev1. cbn [map]. now rewrite <- List.app_assoc.
    + intros k. rewrite L2, L1.
      destruct (decide (k = key)) as [->|Hne].
      * rewrite (bool_decide_eq_true_2 (key = key)) by reflexivity.
        rewrite (bool_decide_eq_true_2 (key ∈ key :: held)) by left.
        now rewrite andb_false_r.
      * rewrite (bool_decide_eq_false_2 (k = key)) by assumption.
        cbn [negb andb]. f_equal. f_equal.
        apply bool_decide_ext. rewrite elem_of_cons. tauto.
Qed.

(** *** Acquiring in order *)

Section Acquire.

Lemma acquire_each_spec keys : forall held st,
  Forall (fun k => _get_lock_key cwd k = k) keys ->
  exists acq rest st',
    keys = acq ++ rest
    /\ acquire_each cwd keys held st
       = (st', held ++ acq,
          match rest with [] => Ok tt | _ => Raise TimeoutError end)
    /\ events st' = events st ++ map Acquire acq
    /\ (forall k, locked st' k = bool_decide (k ∈ acq) || locked st k)
    /\ NoDup acq
    /\ (forall k, k ∈ acq -> locked st k = false)
    /\ (forall k, hd_error rest = Some k -> locked st' k = true).
Proof.
  induction keys as [|key keys IH]; intros held st Hk.
  { exists [], [], st. rewrite !List.app_nil_r. split_and!.
    - reflexivity.
    - reflexivity.
    - reflexivity.
    - intros k. rewrite bool_decide_eq_false_2; [reflexivity|].
      apply not_elem_of_nil.
    - constructor.
    - intros k Hin. now apply not_elem_of_nil in Hin.
    - discriminate. }
  inversion Hk as [|? ? Hkey Hkeys]; subst.
  cbn [acquire_each].
  destruct (get_lock_spec key st) as (st1 & E1 & Ev1 & L1).
  rewrite E1, Hkey.
  destruct (locked st key) eqn:Hbusy.
  - rewrite acquire_busy by now rewrite L1.
    exists [], (key :: keys), st1. rewrite List.app_nil_r.
    split_and!.
    + reflexivity.
    + reflexivity.
    + now rewrite Ev1, List.app_nil_r.
    + intros k. rewrite L1, bool_decide_eq_false_2; [reflexivity|].
      apply not_elem_of_nil.
    + constructor.
    + intros k Hin. now apply not_elem_of_nil in Hin.
    + intros k [= <-]. now rewrite L1.
  - destruct (acquire_free key st1) as (st2 & E2 & Ev2 & L2);
      [now rewrite L1|].
    rewrite E2.
    destruct (IH (held ++ [key]) st2 Hkeys)
      as (acq & rest & st3 & -> & E3 & Ev3 & L3 & Hnd & Hfree & Hhd).
    exists (key :: acq), rest, st3.
    split; [reflexivity|]. split.
    { rewrite E3. now rewrite <- List.app_assoc. }
    split.
    { rewrite Ev3, Ev2, Ev1. cbn [map]. now rewrite <- List.app_assoc. }
    split.
    { intros k. rewrite L3, L2, L1.
      destruct (decide (k = key)) as [->|Hne].
      - rewrite (bool_decide_eq_true_2 (key ∈ key :: acq)) by left.
        rewrite (bool_decide_eq_true_2 (key = key)) by reflexivity.
        now rewrite orb_true_r.
      - rewrite (bool_decide_eq_false_2 (k = key)) by assumption.
        cbn [orb]. f_equal. apply bool_decide_ext.
        rewrite elem_of_cons. tauto. }
    split.
    { apply NoDup_cons. split; [|assumption].
      intros Hin. apply Hfree in Hin. rewrite L2 in Hin.
      now rewrite bool_decide_eq_true_2 in Hin. }
    split; [|assumption].
    intros k Hin. apply elem_of_cons in Hin as [->|Hin]; [assumption|].
    apply Hfree in Hin. rewrite L2, L1 in Hin.
    now apply orb_false_iff in Hin.
Qed.

End Acquire.


End Locks.


(** ** Division of integers *)

Section DivisionFacts.

Import Binary64.

Local Open Scope Z_scope.

Lemma pow2_pos e : 0 < 2 ^ Z.max e 0.
Proof. apply Z.pow_pos_nonneg; lia. Qed.

(** The scale chosen for the quotient leaves at least 53 bits. *)
Lemma scale_first (a b : Z) :
  0 < a -> 0 < b ->
  let s0 := 53 - (Z.log2 a - Z.log2 b) in
  2 ^ 52 * (b * 2 ^ Z.max (- s0) 0) <= a * 2 ^ Z.max s0 0.
Proof.
  intros Ha Hb s0.
  destruct (Z.log2_spec a Ha) as [Ha1 _].
  destruct (Z.log2_spec b Hb) as [_ Hb2].
  pose proof (Z.log2_nonneg a) as Hla. pose proof (Z.log2_nonneg b) as Hlb.
  pose proof (pow2_pos s0) as HP. pose proof (pow2_pos (- s0)) as HM.
  assert (E : 2 ^ Z.log2 a * 2 ^ Z.max s0 0
              = 2 ^ 52 * (2 ^ Z.succ (Z.log2 b) * 2 ^ Z.max (- s0) 0)).
  { rewrite <- !Z.pow_add_r by lia. f_equal. unfold s0. lia. }
  nia.
Qed.

Lemma scale_second (a b s0 : Z) :
  0 < a -> 0 < b ->
  2 ^ 53 <= (a * 2 ^ Z.max s0 0) / (b * 2 ^ Z.max (- s0) 0) ->
  2 ^ 52 * (b * 2 ^ Z.max (- (s0 - 1)) 0) <= a * 2 ^ Z.max (s0 - 1) 0.
Proof.
  intros Ha Hb Hq.
  pose proof (pow2_pos s0) as HP. pose proof (pow2_pos (- s0)) as HM.
  pose proof (pow2_pos (s0 - 1)) as HP'.
  pose proof (pow2_pos (- (s0 - 1))) as HM'.
  assert (Hd : 0 < b * 2 ^ Z.max (- s0) 0) by nia.
  pose proof (Z.mul_div_le (a * 2 ^ Z.max s0 0) _ Hd) as Hle.
  assert (E : 2 ^ Z.max s0 0 * 2 ^ Z.max (- (s0 - 1)) 0
              = 2 * (2 ^ Z.max (s0 - 1) 0 * 2 ^ Z.max (- s0) 0)).
  { rewrite <- !Z.pow_add_r by lia.
    replace (Z.max s0 0 + Z.max (- (s0 - 1)) 0)
      with (Z.succ (Z.max (s0 - 1) 0 + Z.max (- s0) 0)) by lia.
    apply Z.pow_succ_r. lia. }
  set (P := 2 ^ Z.max s0 0) in *. set (M := 2 ^ Z.max (- s0) 0) in *.
  set (P' := 2 ^ Z.max (s0 - 1) 0) in *.
  set (M' := 2 ^ Z.max (- (s0 - 1)) 0) in *.
  set (q := a * P / (b * M)) in *.
  assert (H1 : 2 ^ 53 * (b * M) <= a * P) by nia.
  assert (H2 : 2 ^ 53 * (b * M) * M' <= a * P * M') by nia.
  assert (H3 : a * P * M' = 2 * (a * P') * M) by nia.
  assert (H4 : 2 ^ 53 * (b * M) * M' = 2 * (2 ^ 52 * (b * M')) * M).
  { change (2 ^ 53) with (2 * 2 ^ 52). ring. }
  nia.
Qed.

(** The quotient as a fraction: it is not below the exact quotient
    less one part in [2 ^ 52]. *)
Lemma true_divide_lower (a b : N) :
  (0 < a)%N -> (0 < b)%N ->
  exists num den,
    0 < den /\ true_divide a b = Qmake num (Z.to_pos den)
    /\ (2 ^ 52 - 1) * (Z.of_N a * den) < 2 ^ 52 * (num * Z.of_N b).
Proof.
  intros Ha Hb. unfold true_divide.
  destruct (N.eqb_spec a 0) as [->|_]; [lia|].
  set (A := Z.of_N a). set (B := Z.of_N b).
  assert (HA : 0 < A) by (unfold A; lia).
  assert (HB : 0 < B) by (unfold B; lia).
  set (s0 := 53 - (Z.log2 A - Z.log2 B)).
  assert (Hs : exists s,
    (let (n, d) := scaled A B s0 in if 2 ^ 53 <=? n / d then s0 - 1 else s0) = s
    /\ 2 ^ 52 * (B * 2 ^ Z.max (- s) 0) <= A * 2 ^ Z.max s 0).
  { unfold scaled. destruct (Z.leb_spec (2 ^ 53)
      (A * 2 ^ Z.max s0 0 / (B * 2 ^ Z.max (- s0) 0))) as [Hq|Hq].
    - exists (s0 - 1). split; [reflexivity|]. now apply scale_second.
    - exists s0. split; [reflexivity|]. now apply scale_first. }
  destruct Hs as (s & -> & Hscale). unfold scaled.
  pose proof (pow2_pos s) as HP. pose proof (pow2_pos (- s)) as HM.
  set (P := 2 ^ Z.max s 0) in *. set (M := 2 ^ Z.max (- s) 0) in *.
  assert (Hd : 0 < B * M) by nia.
  pose proof (Z.div_mod (A * P) (B * M) ltac:(lia)) as Hdm.
  pose proof (Z.mod_pos_bound (A * P) (B * M) Hd) as Hr.
  set (q := A * P / (B * M)) in *. set (r := (A * P) mod (B * M)) in *.
  set (q' := if (B * M <? 2 * r) || (2 * r =? B * M) && Z.odd q
             then q + 1 else q).
  assert (Hq' : q <= q') by (unfold q'; destruct (_ || _); lia).
  exists (q' * M), P. split; [exact HP|]. split; [reflexivity|].
  assert (H1 : A * P - B * M < q' * (B * M)) by nia.
  nia.
Qed.

Lemma scale_first_upper (a b : Z) :
  0 < a -> 0 < b ->
  let s0 := 53 - (Z.log2 a - Z.log2 b) in
  a * 2 ^ Z.max s0 0 < 2 ^ 54 * (b * 2 ^ Z.max (- s0) 0).
Proof.
  intros Ha Hb s0.
  destruct (Z.log2_spec a Ha) as [_ Ha2].
  destruct (Z.log2_spec b Hb) as [Hb1 _].
  pose proof (Z.log2_nonneg a) as Hla. pose proof (Z.log2_nonneg b) as Hlb.
  pose proof (pow2_pos s0) as HP. pose proof (pow2_pos (- s0)) as HM.
  assert (E : 2 ^ Z.succ (Z.log2 a) * 2 ^ Z.max s0 0
              = 2 ^ 54 * (2 ^ Z.log2 b * 2 ^ Z.max (- s0) 0)).
  { rewrite <- !Z.pow_add_r by lia. f_equal. unfold s0. lia. }
  nia.
Qed.

Lemma scale_second_upper (a b s0 : Z) :
  0 < a -> 0 < b ->
  a * 2 ^ Z.max s0 0 < 2 ^ 54 * (b * 2 ^ Z.max (- s0) 0) ->
  a * 2 ^ Z.max (s0 - 1) 0 < 2 ^ 53 * (b * 2 ^ Z.max (- (s0 - 1)) 0).
Proof.
  intros Ha Hb Hq.
  pose proof (pow2_pos s0) as HP. pose proof (pow2_pos (- s0)) as HM.
  pose proof (pow2_pos (s0 - 1)) as HP'.
  pose proof (pow2_pos (- (s0 - 1))) as HM'.
  assert (E : 2 ^ Z.max s0 0 * 2 ^ Z.max (- (s0 - 1)) 0
              = 2 * (2 ^ Z.max (s0 - 1) 0 * 2 ^ Z.max (- s0) 0)).
  { rewrite <- !Z.pow_add_r by lia.
    replace (Z.max s0 0 + Z.max (- (s0 - 1)) 0)
      with (Z.succ (Z.max (s0 - 1) 0 + Z.max (- s0) 0)) by lia.
    apply Z.pow_succ_r. lia. }
  set (P := 2 ^ Z.max s0 0) in *. set (M := 2 ^ Z.max (- s0) 0) in *.
  set (P' := 2 ^ Z.max (s0 - 1) 0) in *.
  set (M' := 2 ^ Z.max (- (s0 - 1)) 0) in *.
  assert (H2 : a * P * M' < 2 ^ 54 * (b * M) * M') by nia.
  assert (H3 : a * P * M' = 2 * (a * P') * M) by nia.
  assert (H4 : 2 ^ 54 * (b * M) * M' = 2 * (2 ^ 53 * (b * M')) * M).
  { change (2 ^ 54) with (2 * 2 ^ 53). ring. }
  nia.
Qed.

(** [true_divide] rounds to the nearest number of 53 significant bits,
    to the even one of two that are equally near: its value is
    [q / 2 ^ s] for an integer [q] of 53 bits, or [2 ^ 53], that
    differs from the scaled quotient by at most one half. *)
Lemma true_divide_nearest (a b : N) :
  (0 < a)%N -> (0 < b)%N ->
  exists q s,
    true_divide a b
    = Qmake (q * 2 ^ Z.max (- s) 0) (Z.to_pos (2 ^ Z.max s 0))
    /\ 2 ^ 52 <= q <= 2 ^ 53
    /\ let n := Z.of_N a * 2 ^ Z.max s 0 in
       let d := Z.of_N b * 2 ^ Z.max (- s) 0 in
       2 * Z.abs (q * d - n) <= d
       /\ (2 * Z.abs (q * d - n) = d -> Z.even q = true).
Proof.
  intros Ha Hb. unfold true_divide.
  destruct (N.eqb_spec a 0) as [->|_]; [lia|].
  set (A := Z.of_N a). set (B := Z.of_N b).
  assert (HA : 0 < A) by (unfold A; lia).
  assert (HB : 0 < B) by (unfold B; lia).
  set (s0 := 53 - (Z.log2 A - Z.log2 B)).
  assert (Hs : exists s,
    (let (n, d) := scaled A B s0 in if 2 ^ 53 <=? n / d then s0 - 1 else s0) = s
    /\ 2 ^ 52 * (B * 2 ^ Z.max (- s) 0) <= A * 2 ^ Z.max s 0
    /\ A * 2 ^ Z.max s 0 < 2 ^ 53 * (B * 2 ^ Z.max (- s) 0)).
  { unfold scaled.
    pose proof (pow2_pos s0) as HP0. pose proof (pow2_pos (- s0)) as HM0.
    assert (Hd0 : 0 < B * 2 ^ Z.max (- s0) 0) by nia.
    destruct (Z.leb_spec (2 ^ 53)
      (A * 2 ^ Z.max s0 0 / (B * 2 ^ Z.max (- s0) 0))) as [Hq|Hq].
    - exists (s0 - 1). split; [reflexivity|]. split.
      + now apply scale_second.
      + apply scale_second_upper; [assumption..|].
        now apply scale_first_upper.
    - exists s0. split; [reflexivity|]. split.
      + now apply scale_first.
      + assert (Hnz : B * 2 ^ Z.max (- s0) 0 <> 0) by lia.
        pose proof (Z.div_mod (A * 2 ^ Z.max s0 0) _ Hnz) as Hdm.
        pose proof (Z.mod_pos_bound (A * 2 ^ Z.max s0 0) _ Hd0) as Hr.
        nia. }
  destruct Hs as (s & -> & Hlow & Hup). unfold scaled.
  pose proof (pow2_pos s) as HP. pose proof (pow2_pos (- s)) as HM.
  set (P := 2 ^ Z.max s 0) in *. set (M := 2 ^ Z.max (- s) 0) in *.
  assert (Hd : 0 < B * M) by nia.
  pose proof (Z.div_mod (A * P) (B * M) ltac:(lia)) as Hdm.
  pose proof (Z.mod_pos_bound (A * P) (B * M) Hd) as Hr.
  set (q := A * P / (B * M)) in *. set (r := (A * P) mod (B * M)) in *.
  assert (Hq1 : 2 ^ 52 <= q) by (apply Z.div_le_lower_bound; lia).
  assert (Hq2 : q < 2 ^ 53) by (apply Z.div_lt_upper_bound; lia).
  destruct (Z.ltb_spec (B * M) (2 * r)) as [Hhalf|Hhalf]; cbn [orb].
  { exists (q + 1), s. fold P M. split; [reflexivity|]. split; [lia|].
    cbv zeta. replace ((q + 1) * (B * M) - A * P) with (B * M - r) by lia.
    rewrite Z.abs_eq by lia. split; lia. }
  destruct (Z.eqb_spec (2 * r) (B * M)) as [Htie|Htie]; cbn [andb].
  - destruct (Z.odd q) eqn:Hodd.
    + exists (q + 1), s. fold P M. split; [reflexivity|]. split; [lia|].
      cbv zeta. replace ((q + 1) * (B * M) - A * P) with (B * M - r) by lia.
      rewrite Z.abs_eq by lia. split; [lia|]. intros _.
      rewrite Z.even_add, <- Z.negb_odd, Hodd. reflexivity.
    + exists q, s. fold P M. split; [reflexivity|]. split; [lia|].
      cbv zeta. replace (q * (B * M) - A * P) with (- r) by lia.
      rewrite Z.abs_opp, Z.abs_eq by lia. split; [lia|]. intros _.
      now rewrite <- Z.negb_odd, Hodd.
  - exists q, s. fold P M. split; [reflexivity|]. split; [lia|].
    cbv zeta. replace (q * (B * M) - A * P) with (- r) by lia.
    rewrite Z.abs_opp, Z.abs_eq by lia. split; lia.
Qed.

Lemma true_divide_same (s : N) : (0 < s)%N -> (true_divide s s == 1)%Q.
Proof.
  intros Hs. unfold true_divide.
  destruct (N.eqb_spec s 0) as [->|_]; [lia|].
  set (A := Z.of_N s). assert (HA : 0 < A) by (unfold A; lia).
  rewrite Z.sub_diag. change (53 - 0) with 53. unfold scaled.
  change (Z.max 53 0) with 53. change (Z.max (- 53) 0) with 0.
  change (2 ^ 0) with 1. rewrite Z.mul_1_r.
  rewrite (Z.mul_comm A (2 ^ 53)), Z.div_mul by lia.
  change (2 ^ 53 <=? 2 ^ 53) with true. cbv iota.
  change (53 - 1) with 52.
  change (Z.max 52 0) with 52. change (Z.max (- 52) 0) with 0.
  change (2 ^ 0) with 1. rewrite !Z.mul_1_r.
  rewrite (Z.mul_comm A (2 ^ 52)), Z.div_mul, Z.mod_mul by lia.
  assert ((A <? 2 * 0) = false) as -> by (apply Z.ltb_ge; lia).
  assert ((2 * 0 =? A) = false) as -> by (apply Z.eqb_neq; lia).
  reflexivity.
Qed.

(** An exact quotient that is above [c] also when it is lowered by one
    part in [2 ^ 52] is rounded to a number above [c]. *)
Lemma true_divide_above (a b : N) (c : Q) :
  (0 < b)%N ->
  (c < inject_Z (Z.of_N a) / inject_Z (Z.of_N b)
       * (4503599627370495 # 4503599627370496))%Q ->
  (c < true_divide a b)%Q.
Proof.
  intros Hb Hc.
  destruct (N.eqb_spec a 0) as [->|Ha].
  { unfold true_divide. cbn [N.eqb]. unfold Qlt in *.
    cbn [Qnum Qden Qmult Qdiv inject_Z Z.of_N Z.mul] in *.
    pose proof (Pos2Z.is_pos
                  (1 * Qden (/ inject_Z (Z.of_N b)) * 4503599627370496)).
    nia. }
  destruct (true_divide_lower a b ltac:(lia) Hb)
    as (num & den & Hden & -> & Hlow).
  destruct c as [cn cd].
  assert (HB : exists pb, Z.of_N b = Z.pos pb).
  { destruct b; [lia|]. now eexists. }
  destruct HB as (pb & HB). rewrite HB in *.
  destruct den as [|pd|]; try lia.
  unfold Qlt in *. cbn [Qnum Qden Qmult Qdiv Qinv inject_Z Z.to_pos] in *.
  rewrite ?Z.mul_1_l, ?Z.mul_1_r, ?Pos.mul_1_l, ?Pos.mul_1_r in Hc.
  rewrite ?Pos2Z.inj_mul in Hc.
  change (2 ^ 52 - 1) with 4503599627370495 in Hlow.
  change (2 ^ 52) with 4503599627370496 in Hlow.
  assert (H0 : 0 < Z.of_N a) by lia.
  set (A := Z.of_N a) in *. clearbody A.
  pose proof (Pos2Z.is_pos pb). pose proof (Pos2Z.is_pos pd).
  pose proof (Pos2Z.is_pos cd).
  nia.
Qed.

End DivisionFacts.

(** ** Archives: validation *)

Section ValidationFacts.

Variable config : Config.

Lemma validate_zip_entry_kind entry e :
  validate_zip_entry config entry = Raise e -> kind_of e = QuotaExceeded.
Proof.
  unfold validate_zip_entry.
  destruct (0 <? compress_size entry)%N.
  - destruct (Qlt_le_dec _ _); [|discriminate]. now intros [= <-].
  - destruct (0 <? file_size entry)%N; [|discriminate]. now intros [= <-].
Qed.

Lemma validate_entries_kind infolist : forall n u c e,
  validate_entries config infolist n u c = Raise e ->
  kind_of e = QuotaExceeded.
Proof.
  induction infolist as [|entry rest IH]; intros n u c e; cbn [validate_entries].
  { discriminate. }
  destruct (_ <? _)%N; [now intros [= <-]|].
  destruct (validate_zip_entry config entry) eqn:Ev; cbn [mbind result_bind].
  - destruct (_ <? _)%N; [now intros [= <-]|]. apply IH.
  - intros [= <-]. now apply validate_zip_entry_kind in Ev.
Qed.

Lemma validate_entries_bad infolist entry e0 : forall n u c,
  In entry infolist ->
  validate_zip_entry config entry = Raise e0 ->
  exists e, validate_entries config infolist n u c = Raise e.
Proof.
  induction infolist as [|x rest IH]; intros n u c Hin Hbad; [destruct Hin|].
  cbn [validate_entries].
  destruct (_ <? _)%N; [eauto|].
  destruct Hin as [->|Hin].
  - rewrite Hbad. cbn [mbind result_bind]. eauto.
  - destruct (validate_zip_entry config x); cbn [mbind result_bind]; [|eauto].
    destruct (_ <? _)%N; [eauto|]. now apply IH.
Qed.

(** The sums that [validate_zip_file] forms. *)
Lemma validate_entries_spec infolist : forall n u c r,
  (n <= ZIP_MAX_FILES config)%N -> (u <= ZIP_MAX_TOTAL_SIZE config)%N ->
  validate_entries config infolist n u c = Ok r <->
  r = (n + N.of_nat (length infolist),
       u + fold_right N.add 0 (map file_size infolist),
       c + fold_right N.add 0 (map compress_size infolist))%N
  /\ (n + N.of_nat (length infolist) <= ZIP_MAX_FILES config)%N
  /\ Forall (fun entry => validate_zip_entry config entry = Ok tt) infolist
  /\ (u + fold_right N.add 0 (map file_size infolist)
      <= ZIP_MAX_TOTAL_SIZE config)%N.
Proof.
  induction infolist as [|entry rest IH]; intros n u c r Hn Hu.
  - cbn [validate_entries length map fold_right]. rewrite !N.add_0_r.
    split.
    + intros [= <-]. auto.
    + intros (-> & _). reflexivity.
  - cbn [validate_entries length map fold_right].
    rewrite Nat2N.inj_succ.
    replace (n + N.succ (N.of_nat (length rest)))%N
      with (n + 1 + N.of_nat (length rest))%N by lia.
    rewrite !N.add_assoc.
    destruct (ZIP_MAX_FILES config <? n + 1)%N eqn:Hc.
    { apply N.ltb_lt in Hc. split; [discriminate|]. intros (_ & H & _). lia. }
    apply N.ltb_ge in Hc.
    destruct (validate_zip_entry config entry) as [[]|e] eqn:He; cbn.
    2:{ split; [discriminate|]. intros (_ & _ & H & _).
        apply Forall_cons in H as [H _]. congruence. }
    destruct (ZIP_MAX_TOTAL_SIZE config <? u + file_size entry)%N eqn:Ht.
    { apply N.ltb_lt in Ht. split; [discriminate|]. intros (_ & _ & _ & H).
      lia. }
    apply N.ltb_ge in Ht.
    rewrite IH by assumption. rewrite Forall_cons. intuition.
Qed.

(** The errors of the validation. *)
Lemma validate_zip_entry_raises entry e :
  validate_zip_entry config entry = Raise e ->
  e = ArchiveSecurityError RatioTooHigh
  \/ e = ArchiveSecurityError ZeroCompressed.
Proof.
  unfold validate_zip_entry.
  destruct (0 <? compress_size entry)%N.
  - destruct (Qlt_le_dec _ _); [|discriminate]. intros [= <-]. now left.
  - destruct (0 <? file_size entry)%N; [|discriminate].
    intros [= <-]. now right.
Qed.

Lemma validate_entries_raises infolist : forall n u c e,
  validate_entries config infolist n u c = Raise e ->
  e <> ArchiveSecurityError StreamTooLarge.
Proof.
  induction infolist as [|entry rest IH]; intros n u c e; cbn [validate_entries].
  { discriminate. }
  destruct (_ <? _)%N; [now intros [= <-]|].
  destruct (validate_zip_entry config entry) eqn:Ev; cbn [mbind result_bind].
  - destruct (_ <? _)%N; [now intros [= <-]|]. apply IH.
  - intros [= <-].
    apply validate_zip_entry_raises in Ev as [->| ->]; discriminate.
Qed.

Lemma validate_zip_file_raises fs zip_path e :
  validate_zip_file config fs zip_path = Raise e ->
  e <> ArchiveSecurityError StreamTooLarge.
Proof.
  unfold validate_zip_file, open_zip.
  destruct (Fs.lookup fs zip_path) as [[c|]|]; cbn [mbind result_bind];
    try (intros [= <-]; discriminate).
  destruct (as_zip c); cbn [mbind result_bind];
    [apply validate_entries_raises|intros [= <-]; discriminate].
Qed.

(** C7, amended: an entry with a nonzero compressed size is rejected
    by [validate_zip_entry] when the quotient of its uncompressed and
    compressed sizes, rounded to binary64 as the division of Python
    rounds it, is above [ZIP_MAX_RATIO]; that is so whenever the exact
    ratio is above the ceiling also when lowered by one part in
    [2 ^ 52]. An archive that holds such an entry is rejected by
    [validate_zip_file] with an error of kind QuotaExceeded, and
    [safe_extract_zip] fails in the same way before it changes
    anything. *)
Theorem ratio_above_ceiling_rejected (entry : ZipInfo) :
  (0 < compress_size entry)%N ->
  (ZIP_MAX_RATIO config
   < Binary64.true_divide (file_size entry) (compress_size entry))%Q
  \/ (ZIP_MAX_RATIO config
      < inject_Z (Z.of_N (file_size entry))
        / inject_Z (Z.of_N (compress_size entry))
        * (4503599627370495 # 4503599627370496))%Q ->
  validate_zip_entry config entry = Raise (ArchiveSecurityError RatioTooHigh)
  /\ kind_of (ArchiveSecurityError RatioTooHigh) = QuotaExceeded
  /\ forall fs zip_path infolist,
       open_zip fs zip_path = Ok infolist -> In entry infolist ->
       (exists e, validate_zip_file config fs zip_path = Raise e
                  /\ kind_of e = QuotaExceeded)
       /\ forall destination max_depth written,
            exists e,
              safe_extract_zip config zip_path destination max_depth
                (mkWorld fs written)
              = (mkWorld fs written, Raise e)
              /\ kind_of e = QuotaExceeded.
Proof.
  intros Hc Hratio.
  assert (Hrounded : (ZIP_MAX_RATIO config
            < Binary64.true_divide (file_size entry) (compress_size entry))%Q).
  { destruct Hratio as [H|H]; [exact H|].
    now apply true_divide_above. }
  assert (Hentry : validate_zip_entry config entry
                   = Raise (ArchiveSecurityError RatioTooHigh)).
  { unfold validate_zip_entry.
    apply N.ltb_lt in Hc. rewrite Hc.
    destruct (Qlt_le_dec _ _) as [_|Hle]; [reflexivity|].
    exfalso. exact (Qlt_not_le _ _ Hrounded Hle). }
  split; [exact Hentry|]. split; [reflexivity|].
  intros fs zip_path infolist Hopen Hin.
  assert (Hfile : exists e, validate_zip_file config fs zip_path = Raise e
                            /\ kind_of e = QuotaExceeded).
  { unfold validate_zip_file. rewrite Hopen. cbn [mbind result_bind].
    destruct (validate_entries_bad infolist entry _ 0%N 0%N 0%N Hin Hentry)
      as (e & He).
    exists e. split; [exact He|]. now apply validate_entries_kind in He. }
  split; [exact Hfile|].
  intros destination max_depth written.
  destruct Hfile as (e & He & Hk).
  unfold safe_extract_zip.
  destruct (Z.to_nat _) as [|d]; cbn [safe_extract_zip_depth files].
  - eexists. split; reflexivity.
  - rewrite He. eauto.
Qed.

End ValidationFacts.

(** The example of the specification: 100 bytes that declare 100,000
    bytes, against a ceiling of 100. *)
Lemma ratio_above_ceiling_rejected_witness :
  validate_zip_entry default_config (mkZipInfo "bomb.bin" 100000 100 100000 None)
  = Raise (ArchiveSecurityError RatioTooHigh).
Proof.
  apply (ratio_above_ceiling_rejected default_config
           (mkZipInfo "bomb.bin" 100000 100 100000 None)).
  - reflexivity.
  - right. reflexivity.
Defined.

(** C7 as stated fails: with a ceiling of 100, an entry of
    [100 * 2 ^ 47 + 1] bytes compressed to [2 ^ 47] bytes has a ratio
    above the ceiling, and its quotient is rounded to 100: the entry
    is accepted, and so is an archive that holds it when the cap on
    the total size allows its size. *)
Lemma ratio_rounded_to_ceiling_accepted :
  let entry :=
    mkZipInfo "big.bin" 14073748835532801 140737488355328
              14073748835532801 None in
  let config :=
    mkConfig ["srv"; "sandbox"] 20971520 255 18446744073709551615
             (100 # 1) 1000 5 in
  let zip_path := ["srv"; "sandbox"; "big.zip"] in
  let fs : FS :=
    {[ zip_path := File (Binary 140737488356328 (Some [entry])) ]} in
  (0 < compress_size entry)%N
  /\ (ZIP_MAX_RATIO default_config
      < inject_Z (Z.of_N (file_size entry))
        / inject_Z (Z.of_N (compress_size entry)))%Q
  /\ validate_zip_entry default_config entry = Ok tt
  /\ ZIP_MAX_RATIO config = ZIP_MAX_RATIO default_config
  /\ validate_zip_file config fs zip_path
     = Ok (1, 14073748835532801, 140737488355328)%N.
Proof.
  cbv zeta. split; [reflexivity|]. split; [reflexivity|].
  split; [vm_compute; reflexivity|]. split; [reflexivity|].
  vm_compute. reflexivity.
Qed.


(** ** The file system *)

Section FsFacts.

(** [mkdir] leaves every node as it is or turns a missing prefix of
    the path into a directory. *)
Lemma mkdir_walk_spec rest : forall fs prefix fs',
  Fs.mkdir_walk fs prefix rest = Ok fs' ->
  forall q,
    fs' !! q = fs !! q
    \/ (fs' !! q = Some Dir
        /\ exists k, q = prefix ++ take k rest).
Proof.
  induction rest as [|n rest IH]; intros fs prefix fs' H q;
    cbn [Fs.mkdir_walk] in H.
  - destruct (Fs.lookup fs prefix) as [[c|]|] eqn:E; try discriminate;
      injection H as <-;
      (destruct prefix as [|x prefix]; [now left|]);
      (destruct (decide (x :: prefix = q)) as [<-|Hne];
       [right; rewrite lookup_insert_eq; split; [reflexivity|];
        exists 0%nat; now rewrite List.app_nil_r
       |left; now rewrite lookup_insert_ne]).
  - assert (Hstep : forall fs1,
              Fs.mkdir_walk fs1 (prefix ++ [n]) rest = Ok fs' ->
              (forall q, fs1 !! q = fs !! q
                         \/ (fs1 !! q = Some Dir /\ q = prefix)) ->
              fs' !! q = fs !! q
              \/ (fs' !! q = Some Dir
                  /\ exists k, q = prefix ++ take k (n :: rest))).
    { intros fs1 H1 Hfs1.
      destruct (IH _ _ _ H1 q) as [Hq|(Hq & k & ->)].
      - rewrite Hq. destruct (Hfs1 q) as [->|(Hd & ->)]; [now left|].
        right. split; [exact Hd|]. exists 0%nat. now rewrite List.app_nil_r.
      - right. split; [exact Hq|]. exists (S k).
        now rewrite <- List.app_assoc. }
    destruct (Fs.lookup fs prefix) as [[c|]|] eqn:E; try discriminate;
      (apply (Hstep _ H); intros q';
       destruct prefix as [|x prefix]; [now left|];
       destruct (decide (x :: prefix = q')) as [<-|Hne];
       [right; now rewrite lookup_insert_eq
       |left; now rewrite lookup_insert_ne]).
Qed.

Lemma mkdir_keeps_files fs p fs' q c :
  Fs.mkdir fs p = Ok fs' ->
  fs !! q = Some (File c) -> fs' !! q = Some (File c).
Proof.
  intros H Hq. revert q c Hq. unfold Fs.mkdir in H.
  assert (G : forall rest fs prefix fs',
             Fs.mkdir_walk fs prefix rest = Ok fs' ->
             forall q c, fs !! q = Some (File c) -> fs' !! q = Some (File c)).
  { clear. induction rest as [|n rest IH]; intros fs prefix fs' H q c Hq;
      cbn [Fs.mkdir_walk] in H.
    - destruct (Fs.lookup fs prefix) as [[c'|]|] eqn:E; try discriminate;
        injection H as <-;
        (destruct prefix as [|x prefix]; [assumption|]);
        (rewrite lookup_insert_ne; [assumption|]);
        intros <-; cbn [Fs.lookup] in E; congruence.
    - destruct (Fs.lookup fs prefix) as [[c'|]|] eqn:E; try discriminate;
        (apply (IH _ _ _ H);
         destruct prefix as [|x prefix]; [assumption|];
         rewrite lookup_insert_ne; [assumption|];
         intros <-; cbn [Fs.lookup] in E; congruence). }
  exact (G _ _ _ _ H).
Qed.

Lemma mkdir_new_files fs p fs' q c :
  Fs.mkdir fs p = Ok fs' ->
  fs' !! q = Some (File c) -> fs !! q = Some (File c).
Proof.
  intros H Hq. destruct (mkdir_walk_spec _ _ _ _ H q) as [E|(E & _)].
  - now rewrite <- E.
  - congruence.
Qed.

Lemma lookup_keeps_files fs p fs' q c :
  Fs.mkdir fs p = Ok fs' ->
  Fs.lookup fs q = Some (File c) -> Fs.lookup fs' q = Some (File c).
Proof.
  intros H. destruct q; [discriminate|]. cbn [Fs.lookup].
  exact (mkdir_keeps_files _ _ _ _ _ H).
Qed.

(** [mkdir] fails with an error of the OS only. *)
Lemma mkdir_walk_raises rest : forall fs prefix e,
  Fs.mkdir_walk fs prefix rest = Raise e -> e = OSError.
Proof.
  induction rest as [|n rest IH]; intros fs prefix e;
    cbn [Fs.mkdir_walk]; destruct (Fs.lookup fs prefix) as [[]|];
    try congruence; eauto.
Qed.

Lemma open_w_raises fs p c e : Fs.open_w fs p c = Raise e -> e = OSError.
Proof.
  unfold Fs.open_w. destruct (_ && _); [discriminate|]. now intros [= <-].
Qed.

Lemma open_zip_mkdir fs p fs' zip_path infolist :
  Fs.mkdir fs p = Ok fs' ->
  open_zip fs zip_path = Ok infolist -> open_zip fs' zip_path = Ok infolist.
Proof.
  intros Hm. unfold open_zip.
  destruct (Fs.lookup fs zip_path) as [[c|]|] eqn:E; try discriminate.
  now rewrite (lookup_keeps_files _ _ _ _ _ Hm E).
Qed.

Lemma open_w_insert fs p c fs' :
  Fs.open_w fs p c = Ok fs' -> fs' = <[p := File c]> fs.
Proof.
  unfold Fs.open_w. destruct (_ && _); [|discriminate]. now intros [= <-].
Qed.

End FsFacts.


(** ** Archives: the copy of one entry *)

Section CopyFacts.

Variable config : Config.

Local Open Scope N_scope.

Lemma copy_chunks_within chunks : forall t,
  t <= ZIP_MAX_TOTAL_SIZE config ->
  (copy_chunks config t chunks).1 <= ZIP_MAX_TOTAL_SIZE config.
Proof.
  induction chunks as [|c chunks IH]; intros t Ht; cbn [copy_chunks].
  - exact Ht.
  - destruct (_ <? _) eqn:E; [exact Ht|].
    apply IH. now apply N.ltb_ge in E.
Qed.

Lemma copy_chunks_complete chunks : forall t,
  t + fold_right N.add 0 chunks <= ZIP_MAX_TOTAL_SIZE config ->
  copy_chunks config t chunks = (t + fold_right N.add 0 chunks, Ok tt).
Proof.
  induction chunks as [|c chunks IH]; intros t Ht; cbn [copy_chunks fold_right] in *.
  - now rewrite N.add_0_r.
  - assert ((ZIP_MAX_TOTAL_SIZE config <? t + c) = false) as ->
      by (apply N.ltb_ge; lia).
    rewrite IH by lia. f_equal. lia.
Qed.

Lemma copy_chunks_stops chunks : forall t,
  ZIP_MAX_TOTAL_SIZE config < t + fold_right N.add 0 chunks ->
  t <= ZIP_MAX_TOTAL_SIZE config ->
  exists written chunk,
    copy_chunks config t chunks
      = (written, Raise (ArchiveSecurityError StreamTooLarge))
    /\ In chunk chunks
    /\ t <= written <= ZIP_MAX_TOTAL_SIZE config
    /\ ZIP_MAX_TOTAL_SIZE config < written + chunk.
Proof.
  induction chunks as [|c chunks IH]; intros t Ht Hle;
    cbn [copy_chunks fold_right] in *.
  - lia.
  - destruct (_ <? _) eqn:E.
    + apply N.ltb_lt in E. exists t, c. repeat split; auto; try lia. now left.
    + apply N.ltb_ge in E.
      destruct (IH (t + c)) as (w & ch & -> & Hin & Hw & Hch); try lia.
      exists w, ch. repeat split; auto; try lia. now right.
Qed.

Lemma sum_repeat c k : fold_right N.add 0 (repeat c k) = c * N.of_nat k.
Proof. induction k as [|k IH]; cbn [repeat fold_right]; lia. Qed.

Lemma sum_app l1 l2 :
  fold_right N.add 0 (l1 ++ l2)
  = fold_right N.add 0 l1 + fold_right N.add 0 l2.
Proof. induction l1 as [|x l1 IH]; cbn [app fold_right]; lia. Qed.

Lemma read_chunks_sum n : fold_right N.add 0 (read_chunks n) = n.
Proof.
  unfold read_chunks. rewrite sum_app, sum_repeat, N2Nat.id.
  pose proof (N.div_mod n chunk_size ltac:(discriminate)) as Hdm.
  destruct (n mod chunk_size =? 0) eqn:E; cbn [fold_right];
    [apply N.eqb_eq in E|]; unfold chunk_size in *; lia.
Qed.

Lemma read_chunks_bounded n chunk :
  In chunk (read_chunks n) -> 0 < chunk <= chunk_size.
Proof.
  unfold read_chunks. rewrite in_app_iff. intros [H|H].
  - apply repeat_spec in H as ->. unfold chunk_size. lia.
  - destruct (n mod chunk_size =? 0) eqn:E; [destruct H|].
    destruct H as [<-|[]]. apply N.eqb_neq in E.
    pose proof (N.mod_lt n chunk_size ltac:(discriminate)).
    unfold chunk_size in *. revert E H.
    generalize (n mod 8192). intros m E H. lia.
Qed.

(** The copy of a stream of [n] bytes. *)
Lemma copy_stream_spec n :
  (n <= ZIP_MAX_TOTAL_SIZE config ->
   copy_chunks config 0 (read_chunks n) = (n, Ok tt))
  /\ (ZIP_MAX_TOTAL_SIZE config < n ->
      exists written,
        copy_chunks config 0 (read_chunks n)
          = (written, Raise (ArchiveSecurityError StreamTooLarge))
        /\ written <= ZIP_MAX_TOTAL_SIZE config
        /\ ZIP_MAX_TOTAL_SIZE config < written + chunk_size).
Proof.
  split; intros H.
  - rewrite copy_chunks_complete; rewrite read_chunks_sum; [reflexivity|lia].
  - destruct (copy_chunks_stops (read_chunks n) 0)
      as (w & ch & E & Hin & Hw & Hch);
      [rewrite read_chunks_sum; lia|lia|].
    exists w. apply read_chunks_bounded in Hin.
    repeat split; [exact E|lia|lia].
Qed.

End CopyFacts.


(** ** Archives: extraction *)

Section ExtractionFacts.

Variable config : Config.

Lemma grows_refl w : grows config w w.
Proof.
  split; [|now left]. exists []. now rewrite List.app_nil_r.
Qed.

Lemma grows_trans w1 w2 w3 :
  grows config w1 w2 -> grows config w2 w3 -> grows config w1 w3.
Proof.
  intros [(i1 & E1 & F1) H1] [(i2 & E2 & F2) H2]. split.
  - exists (i1 ++ i2). rewrite E2, E1, <- List.app_assoc.
    split; [reflexivity|]. now apply Forall_app.
  - intros p c Hp. destruct (H2 p c Hp) as [Hp2|]; [|now right].
    now apply H1.
Qed.

Lemma grows_mkdir w p fs :
  Fs.mkdir (files w) p = Ok fs -> grows config w (with_files w fs).
Proof.
  intros H. split.
  - exists []. now rewrite List.app_nil_r.
  - intros q c Hq. left. cbn [files with_files] in Hq.
    exact (mkdir_new_files _ _ _ _ _ H Hq).
Qed.

Lemma grows_write w fs p n z items :
  grows config w (with_files w fs) ->
  Forall (fun item : list string * N =>
            (item.2 <= ZIP_MAX_TOTAL_SIZE config)%N) items ->
  (n <= ZIP_MAX_TOTAL_SIZE config)%N ->
  grows config w {| files := <[p := File (Binary n z)]> fs;
                    written := written w ++ items |}.
Proof.
  intros [_ Hfs] Hitems Hn. split.
  - exists items. auto.
  - intros q c. cbn [files].
    destruct (decide (p = q)) as [<-|Hne].
    + rewrite lookup_insert_eq. intros [= <-]. now right.
    + rewrite lookup_insert_ne by assumption. apply Hfs.
Qed.

Lemma open_entry_le info : ((open_entry info).1 <= file_size info)%N.
Proof.
  unfold open_entry.
  destruct (N.leb_spec (stream_size info) (file_size info)); cbn [fst]; lia.
Qed.

Lemma extract_entry_grows infolist dest_path dest_resolved entry w :
  grows config w
    (extract_entry config infolist dest_path dest_resolved entry w).1.
Proof.
  unfold extract_entry.
  destruct (_ || _); [apply grows_refl|].
  destruct (negb _); [apply grows_refl|].
  destruct (getinfo infolist entry) as [entry_info|]; [|apply grows_refl].
  destruct (validate_zip_entry config entry_info); [|apply grows_refl].
  destruct (Names.endswith entry "/").
  { destruct (Fs.mkdir _ _) eqn:E; [|apply grows_refl].
    exact (grows_mkdir _ _ _ E). }
  destruct (Fs.mkdir _ _) as [fs|] eqn:E; [|apply grows_refl].
  pose proof (grows_mkdir _ _ _ E) as Hmk.
  destruct (Fs.open_w _ _ _) as [fs2|] eqn:Eopen; [|exact Hmk].
  apply open_w_insert in Eopen as ->. cbv zeta.
  destruct (copy_chunks _ _ _) as [total r] eqn:Ec.
  pose proof (copy_chunks_within config
                (read_chunks (open_entry entry_info).1) 0%N
                ltac:(apply N.le_0_l)) as Hw.
  rewrite Ec in Hw. cbn [fst] in Hw.
  destruct r as [[]|e]; cbn [fst]; rewrite insert_insert_eq.
  - apply grows_write; auto.
    destruct (N.le_gt_cases (open_entry entry_info).1
                            (ZIP_MAX_TOTAL_SIZE config)) as [Hle|Hgt];
      [exact Hle|].
    apply (copy_stream_spec config) in Hgt as (x & Hx & _).
    rewrite Hx in Ec. discriminate.
  - apply grows_write; auto.
Qed.

Lemma extract_entries_grows nested infolist dest_path dest_resolved :
  (forall z d w, grows config w (nested z d w).1) ->
  forall namelist w extracted,
    grows config w
      (extract_entries config nested infolist dest_path dest_resolved
         namelist w extracted).1.
Proof.
  intros Hnested. induction namelist as [|entry rest IH]; intros w extracted;
    cbn [extract_entries].
  { apply grows_refl. }
  pose proof (extract_entry_grows infolist dest_path dest_resolved entry w)
    as H1.
  destruct (extract_entry _ _ _ _ _ _) as [w1 [[p|]|e]]; cbn [fst] in *.
  - destruct (Names.endswith _ _).
    + pose proof (Hnested p
        (PosixPath.str
           (PosixPath.joinpath (Fs.parent p) (PosixPath.stem (Fs.name p))))
        w1) as H2.
      destruct (nested _ _ _) as [w2 [more|e]]; cbn [fst] in *.
      * eapply grows_trans; [|apply IH].
        eapply grows_trans; eassumption.
      * eapply grows_trans; eassumption.
    + eapply grows_trans; [eassumption|apply IH].
  - eapply grows_trans; [eassumption|apply IH].
  - exact H1.
Qed.

Lemma safe_extract_zip_depth_grows max_depth :
  forall zip_path destination w,
    grows config w
      (safe_extract_zip_depth config max_depth zip_path destination w).1.
Proof.
  induction max_depth as [|d IH]; intros zip_path destination w;
    cbn [safe_extract_zip_depth].
  { apply grows_refl. }
  destruct (validate_zip_file _ _ _); [|apply grows_refl].
  destruct (resolve_secure_path _ _ _) as [dest_path|]; [|apply grows_refl].
  destruct (Fs.mkdir _ _) as [fs|] eqn:E; [|apply grows_refl].
  pose proof (grows_mkdir _ _ _ E) as Hmk.
  destruct (open_zip _ _) as [infolist|]; [|exact Hmk].
  eapply grows_trans; [exact Hmk|].
  now apply extract_entries_grows.
Qed.

(** *** The bytes that one archive yields *)

Lemma copy_chunks_le chunks : forall t,
  ((copy_chunks config t chunks).1 <= t + fold_right N.add 0 chunks)%N.
Proof.
  induction chunks as [|c chunks IH]; intros t; cbn [copy_chunks fold_right].
  - cbn [fst]. lia.
  - destruct (_ <? _)%N; [cbn [fst]; lia|].
    specialize (IH (t + c)%N). lia.
Qed.

Lemma total_written_log w fs p n :
  total_written {| files := fs; written := written w ++ [(p, n)] |}
  = (total_written w + n)%N.
Proof.
  unfold total_written. cbn [written].
  rewrite map_app, sum_app. cbn [map fold_right snd]. lia.
Qed.

Lemma getinfo_In infolist name info :
  getinfo infolist name = Some info -> In info infolist.
Proof.
  unfold getinfo. intros H. apply find_some in H as [H _].
  now apply in_rev in H.
Qed.

Lemma find_unique {A} (f : A -> bool) (l : list A) x :
  In x l -> f x = true -> (forall y, In y l -> f y = true -> y = x) ->
  List.find f l = Some x.
Proof.
  induction l as [|a l IH]; intros Hin Hx Huniq; [destruct Hin|].
  cbn [List.find]. destruct (f a) eqn:Ha.
  - f_equal. apply Huniq; [now left|exact Ha].
  - destruct Hin as [->|Hin]; [congruence|].
    apply IH; [assumption..|]. intros y Hy. apply Huniq. now right.
Qed.

Lemma filename_unique infolist : forall x y,
  List.NoDup (map filename infolist) ->
  In x infolist -> In y infolist -> filename y = filename x -> y = x.
Proof.
  induction infolist as [|a l IH]; intros x y Hnd Hx Hy E; [destruct Hx|].
  cbn [map] in Hnd. inversion Hnd as [|? ? Hnotin Hnd']; subst.
  destruct Hx as [->|Hx], Hy as [->|Hy]; try reflexivity.
  - exfalso. apply Hnotin. rewrite <- E. now apply in_map.
  - exfalso. apply Hnotin. rewrite E. now apply in_map.
  - now apply IH.
Qed.

Lemma getinfo_nodup infolist info :
  List.NoDup (map filename infolist) -> In info infolist ->
  getinfo infolist (filename info) = Some info.
Proof.
  intros Hnd Hin. unfold getinfo. apply find_unique.
  - now apply in_rev in Hin.
  - apply String.eqb_refl.
  - intros y Hy E. apply String.eqb_eq in E. apply in_rev in Hy.
    now apply (filename_unique infolist).
Qed.

(** The members are opened by name: with distinct names, the sizes
    declared for the names of the list are those of the members. *)
Lemma declared_by_name infolist :
  List.NoDup (map filename infolist) ->
  map (fun name => match getinfo infolist name with
                   | Some info => file_size info
                   | None => 0%N
                   end) (map filename infolist)
  = map file_size infolist.
Proof.
  intros Hnd. rewrite map_map. apply map_ext_in. intros info Hin.
  now rewrite getinfo_nodup.
Qed.

Lemma declared_within infolist info :
  (fold_right N.add 0 (map file_size infolist)
   <= ZIP_MAX_TOTAL_SIZE config)%N ->
  In info infolist -> (file_size info <= ZIP_MAX_TOTAL_SIZE config)%N.
Proof.
  induction infolist as [|a l IH]; intros Hsum Hin; [destruct Hin|].
  cbn [map fold_right] in Hsum. destruct Hin as [->|Hin]; [lia|].
  apply IH; [lia|assumption].
Qed.

(** One entry of an archive whose declared sizes are within the cap:
    the copy is not stopped, and the bytes written are at most the
    size declared for the name. *)
Lemma extract_entry_counted infolist dest_path dest_resolved entry w :
  Forall (fun info => (file_size info <= ZIP_MAX_TOTAL_SIZE config)%N)
         infolist ->
  let out := extract_entry config infolist dest_path dest_resolved entry w in
  out.2 <> Raise (ArchiveSecurityError StreamTooLarge)
  /\ (total_written out.1
      <= total_written w
         + match getinfo infolist entry with
           | Some info => file_size info
           | None => 0
           end)%N.
Proof.
  intros Hall out. unfold out, extract_entry.
  destruct (_ || _); [cbn [fst snd]; split; [discriminate|lia]|].
  destruct (negb _); [cbn [fst snd]; split; [discriminate|lia]|].
  destruct (getinfo infolist entry) as [info|] eqn:Hg;
    [|cbn [fst snd]; split; [discriminate|lia]].
  assert (Hsize : (file_size info <= ZIP_MAX_TOTAL_SIZE config)%N).
  { rewrite List.Forall_forall in Hall. apply Hall.
    exact (getinfo_In _ _ _ Hg). }
  destruct (validate_zip_entry config info) as [[]|e] eqn:Hv.
  2:{ cbn [fst snd]. split; [|lia]. intros [= ->].
      apply validate_zip_entry_raises in Hv as [Hv|Hv]; discriminate. }
  destruct (Names.endswith entry "/").
  { destruct (Fs.mkdir _ _) as [fs|e] eqn:Hm; cbn [fst snd].
    - split; [discriminate|]. unfold total_written. cbn [with_files written].
      lia.
    - split; [|lia]. intros [= ->]. apply mkdir_walk_raises in Hm.
      discriminate. }
  destruct (Fs.mkdir _ _) as [fs|e] eqn:Hm.
  2:{ cbn [fst snd]. split; [|lia]. intros [= ->].
      apply mkdir_walk_raises in Hm. discriminate. }
  destruct (Fs.open_w fs _ _) as [fs1|e] eqn:Ho.
  2:{ cbn [fst snd]. split.
      - intros [= ->]. apply open_w_raises in Ho. discriminate.
      - unfold total_written. cbn [with_files written]. lia. }
  cbv zeta. pose proof (open_entry_le info) as Hle.
  rewrite (proj1 (copy_stream_spec config (open_entry info).1)) by lia.
  cbn [fst snd]. split; [discriminate|].
  rewrite total_written_log. lia.
Qed.

Lemma extract_entries_counted nested infolist dest_path dest_resolved :
  (forall z d w,
     (nested z d w).2 <> Raise (ArchiveSecurityError StreamTooLarge)) ->
  Forall (fun info => (file_size info <= ZIP_MAX_TOTAL_SIZE config)%N)
         infolist ->
  forall namelist w extracted,
    (extract_entries config nested infolist dest_path dest_resolved
       namelist w extracted).2
    <> Raise (ArchiveSecurityError StreamTooLarge).
Proof.
  intros Hnested Hall.
  induction namelist as [|entry rest IH]; intros w extracted;
    cbn [extract_entries].
  { discriminate. }
  destruct (extract_entry_counted infolist dest_path dest_resolved entry w
              Hall) as [H1 _].
  destruct (extract_entry _ _ _ _ _ _) as [w1 [[p|]|e]]; cbn [fst snd] in *.
  - destruct (Names.endswith _ _); [|apply IH].
    pose proof (Hnested p
      (PosixPath.str
         (PosixPath.joinpath (Fs.parent p) (PosixPath.stem (Fs.name p))))
      w1) as H2.
    destruct (nested _ _ _) as [w2 [more|e]]; cbn [fst snd] in *;
      [apply IH|exact H2].
  - apply IH.
  - intros [= ->]. now apply H1.
Qed.

(** The names of an archive that holds no archive: the nested call is
    not made, and the bytes written are at most the sizes declared for
    the names. *)
Lemma extract_entries_total nested infolist dest_path dest_resolved :
  Forall (fun info => (file_size info <= ZIP_MAX_TOTAL_SIZE config)%N)
         infolist ->
  forall namelist w extracted,
    Forall (fun name => Names.endswith (Names.lower name) ".zip" = false)
           namelist ->
    (total_written
       (extract_entries config nested infolist dest_path dest_resolved
          namelist w extracted).1
     <= total_written w
        + fold_right N.add 0
            (map (fun name => match getinfo infolist name with
                              | Some info => file_size info
                              | None => 0
                              end) namelist))%N.
Proof.
  intros Hall.
  induction namelist as [|entry rest IH]; intros w extracted Hplain;
    cbn [extract_entries map fold_right].
  { cbn [fst]. lia. }
  inversion Hplain as [|? ? Hentry Hrest]; subst.
  destruct (extract_entry_counted infolist dest_path dest_resolved entry w
              Hall) as [_ H1].
  destruct (extract_entry _ _ _ _ _ _) as [w1 [[p|]|e]]; cbn [fst snd] in *.
  - rewrite Hentry. specialize (IH w1 (extracted ++ [p]) Hrest). lia.
  - specialize (IH w1 extracted Hrest). lia.
  - lia.
Qed.

Lemma safe_extract_zip_depth_counted max_depth :
  forall zip_path destination w,
    (safe_extract_zip_depth config max_depth zip_path destination w).2
    <> Raise (ArchiveSecurityError StreamTooLarge).
Proof.
  induction max_depth as [|d IH]; intros zip_path destination w;
    cbn [safe_extract_zip_depth].
  { discriminate. }
  destruct (validate_zip_file _ _ _) as [totals|e] eqn:Hv.
  2:{ cbn [snd]. intros [= ->]. now apply validate_zip_file_raises in Hv. }
  destruct (resolve_secure_path _ _ _) as [dest_path|e] eqn:Hr.
  2:{ cbn [snd]. intros [= ->].
      apply resolve_secure_path_raises in Hr as [Hr|Hr]; discriminate. }
  destruct (Fs.mkdir _ _) as [fs|e] eqn:Hm.
  2:{ cbn [snd]. intros [= ->]. apply mkdir_walk_raises in Hm.
      discriminate. }
  unfold validate_zip_file in Hv.
  destruct (open_zip (files w) zip_path) as [infolist|] eqn:Hopen;
    [|discriminate].
  cbn [mbind result_bind] in Hv. cbn [files with_files].
  rewrite (open_zip_mkdir _ _ _ _ _ Hm Hopen).
  apply validate_entries_spec in Hv as (_ & _ & _ & Hsum);
    [|apply N.le_0_l..].
  apply extract_entries_counted; [exact IH|].
  apply List.Forall_forall. intros info Hin.
  apply (declared_within infolist); [lia|exact Hin].
Qed.

Lemma safe_extract_zip_depth_total max_depth zip_path destination w infolist :
  open_zip (files w) zip_path = Ok infolist ->
  List.NoDup (map filename infolist) ->
  Forall (fun info =>
            Names.endswith (Names.lower (filename info)) ".zip" = false)
         infolist ->
  (total_written
     (safe_extract_zip_depth config max_depth zip_path destination w).1
   <= total_written w + ZIP_MAX_TOTAL_SIZE config)%N.
Proof.
  intros Hopen Hnd Hplain.
  destruct max_depth as [|d]; cbn [safe_extract_zip_depth].
  { cbn [fst]. lia. }
  destruct (validate_zip_file _ _ _) as [totals|e] eqn:Hv; [|cbn [fst]; lia].
  destruct (resolve_secure_path _ _ _) as [dest_path|e]; [|cbn [fst]; lia].
  destruct (Fs.mkdir _ _) as [fs|e] eqn:Hm; [|cbn [fst]; lia].
  unfold validate_zip_file in Hv. rewrite Hopen in Hv.
  cbn [mbind result_bind] in Hv. cbn [files with_files].
  rewrite (open_zip_mkdir _ _ _ _ _ Hm Hopen).
  apply validate_entries_spec in Hv as (_ & _ & _ & Hsum);
    [|apply N.le_0_l..].
  assert (Hall : Forall (fun info =>
                   (file_size info <= ZIP_MAX_TOTAL_SIZE config)%N) infolist).
  { apply List.Forall_forall. intros info Hin.
    apply (declared_within infolist); [lia|exact Hin]. }
  pose proof (extract_entries_total (safe_extract_zip_depth config d)
                infolist dest_path (PosixPath.resolve dest_path) Hall
                (map filename infolist) {| files := fs; written := written w |}
                []) as Htotal.
  rewrite declared_by_name in Htotal by assumption.
  assert (Hw : total_written {| files := fs; written := written w |}
               = total_written w) by reflexivity.
  rewrite Hw in Htotal. etransitivity; [apply Htotal|lia].
  clear -Hplain. induction Hplain; cbn [map]; constructor; assumption.
Qed.

(** C5, amended: the bytes of one entry are read in chunks of at most
    8192 bytes and counted anew for every entry; the library hands out
    at most the size declared for an entry. The quota is enforced on
    the sizes declared: an archive whose declared sizes sum to more
    than [ZIP_MAX_TOTAL_SIZE] is refused with an error of kind
    QuotaExceeded before anything is written. Past that validation the
    count of an entry cannot pass the cap, so [safe_extract_zip] never
    stops with [StreamTooLarge]; every file written holds at most
    [ZIP_MAX_TOTAL_SIZE] bytes; and for an archive with distinct names
    that holds no archive, the bytes written in all are within the cap.
    The bytes written over nested archives are not bounded by it. *)
Theorem entry_stream_capped :
  (forall n chunk, In chunk (read_chunks n) -> (0 < chunk <= 8192)%N)
  /\ (forall info,
        (open_entry info).1 = N.min (stream_size info) (file_size info))
  /\ (forall n,
        (n <= ZIP_MAX_TOTAL_SIZE config)%N ->
        copy_chunks config 0%N (read_chunks n) = (n, Ok tt))
  /\ (forall n,
        (ZIP_MAX_TOTAL_SIZE config < n)%N ->
        exists written,
          copy_chunks config 0%N (read_chunks n)
            = (written, Raise (ArchiveSecurityError StreamTooLarge))
          /\ kind_of (ArchiveSecurityError StreamTooLarge) = QuotaExceeded
          /\ (written <= ZIP_MAX_TOTAL_SIZE config)%N
          /\ (ZIP_MAX_TOTAL_SIZE config < written + 8192)%N)
  /\ (forall zip_path destination max_depth w infolist,
        open_zip (files w) zip_path = Ok infolist ->
        (ZIP_MAX_TOTAL_SIZE config
         < fold_right N.add 0 (map file_size infolist))%N ->
        exists e,
          safe_extract_zip config zip_path destination max_depth w
            = (w, Raise e)
          /\ kind_of e = QuotaExceeded)
  /\ (forall zip_path destination max_depth w,
        (safe_extract_zip config zip_path destination max_depth w).2
        <> Raise (ArchiveSecurityError StreamTooLarge))
  /\ (forall zip_path destination max_depth w,
        grows config w
          (safe_extract_zip config zip_path destination max_depth w).1)
  /\ (forall zip_path destination max_depth w infolist,
        open_zip (files w) zip_path = Ok infolist ->
        List.NoDup (map filename infolist) ->
        Forall (fun info =>
                  Names.endswith (Names.lower (filename info)) ".zip" = false)
               infolist ->
        (total_written
           (safe_extract_zip config zip_path destination max_depth w).1
         <= total_written w + ZIP_MAX_TOTAL_SIZE config)%N).
Proof.
  split; [exact read_chunks_bounded|]. split_and!.
  - intros info. unfold open_entry.
    destruct (N.leb_spec (stream_size info) (file_size info)); cbn [fst]; lia.
  - intros n. apply copy_stream_spec.
  - intros n Hn. apply (copy_stream_spec config) in Hn as (x & E & H1 & H2).
    exists x. auto.
  - intros zip_path destination max_depth w infolist Hopen Hsum.
    unfold safe_extract_zip.
    destruct (Z.to_nat _) as [|d]; cbn [safe_extract_zip_depth].
    { eexists. split; reflexivity. }
    destruct (validate_zip_file config (files w) zip_path) as [totals|e]
      eqn:Hv.
    + exfalso. unfold validate_zip_file in Hv. rewrite Hopen in Hv.
      cbn [mbind result_bind] in Hv.
      apply validate_entries_spec in Hv as (_ & _ & _ & H);
        [lia|apply N.le_0_l..].
    + exists e. split; [reflexivity|].
      unfold validate_zip_file in Hv. rewrite Hopen in Hv.
      cbn [mbind result_bind] in Hv. now apply validate_entries_kind in Hv.
  - intros. apply safe_extract_zip_depth_counted.
  - intros. apply safe_extract_zip_depth_grows.
  - intros zip_path destination max_depth w infolist.
    apply safe_extract_zip_depth_total.
Qed.

End ExtractionFacts.

(** With the defaults, an archive whose two members declare one byte
    more than the cap between them is refused before anything is
    written; a stream of 10,000 bytes is copied whole, in two
    chunks. *)
Lemma entry_stream_capped_witness :
  let zip_path := ["srv"; "sandbox"; "two.zip"] in
  let infolist :=
    [mkZipInfo "a.bin" 2147483648 30000000 2147483648 None;
     mkZipInfo "b.bin" 1 1 1 None] in
  let w :=
    mkWorld {[ zip_path := File (Binary 30000300 (Some infolist)) ]} [] in
  (exists e,
      safe_extract_zip default_config zip_path "out" None w = (w, Raise e)
      /\ kind_of e = QuotaExceeded)
  /\ copy_chunks default_config 0%N (read_chunks 10000) = (10000%N, Ok tt)
  /\ read_chunks 10000 = [8192%N; 1808%N].
Proof.
  intros zip_path infolist w.
  destruct (entry_stream_capped default_config)
    as (_ & _ & Hwhole & _ & Hquota & _).
  split_and!; [|apply Hwhole; vm_compute; discriminate|reflexivity].
  apply (Hquota zip_path "out" None w infolist); vm_compute; reflexivity.
Defined.

(** C5 as stated fails: an archive of 21 MB holds an archive whose one
    member declares, and yields, [ZIP_MAX_TOTAL_SIZE] bytes at a ratio
    below the ceiling. Each archive passes its own validation, both
    files are written, and the bytes written in all are above the
    cap. *)
Lemma extraction_total_exceeds_cap :
  let big := mkZipInfo "big.bin" 2147483648 21474837 2147483648 None in
  let inner :=
    mkZipInfo "inner.zip" 21475000 21475000 21475000 (Some [big]) in
  let zip_path := ["srv"; "sandbox"; "outer.zip"] in
  let w := mkWorld {[ zip_path := File (Binary 21475200 (Some [inner])) ]} [] in
  let out := safe_extract_zip default_config zip_path "out" None w in
  (exists extracted, out.2 = Ok extracted /\ length extracted = 2%nat)
  /\ map snd (written out.1) = [21475000%N; 2147483648%N]
  /\ total_written out.1 = 2168958648%N
  /\ (ZIP_MAX_TOTAL_SIZE default_config < total_written out.1)%N.
Proof. vm_compute. repeat split. eexists. split; reflexivity. Qed.


(** ** Archives: unsafe names *)

Section ZipSlipFacts.

Variable config : Config.

Lemma existsb_dotdot_keep l :
  existsb (String.eqb "..") (List.filter PosixPath.keep_part l)
  = existsb (String.eqb "..") l.
Proof.
  induction l as [|x l IH]; [reflexivity|]. cbn [List.filter existsb].
  unfold PosixPath.keep_part at 1.
  destruct (String.eqb x "") eqn:E1.
  { apply String.eqb_eq in E1 as ->. exact IH. }
  destruct (String.eqb x ".") eqn:E2.
  { apply String.eqb_eq in E2 as ->. exact IH. }
  cbn [orb negb existsb]. now rewrite IH.
Qed.

Lemma unsafe_name_test entry :
  entry_is_absolute entry
  || existsb (String.eqb "..") (entry_parts entry)
  = unsafe_name entry.
Proof.
  unfold unsafe_name, entry_parts, entry_is_absolute, entry_names.
  destruct (PosixPath.startswith entry "/"); [reflexivity|].
  cbn [orb app]. apply existsb_dotdot_keep.
Qed.

Lemma extract_entry_unsafe infolist dest_path dest_resolved entry w :
  unsafe_name entry = true ->
  extract_entry config infolist dest_path dest_resolved entry w
  = (w, Raise (ArchiveSecurityError ZipSlip)).
Proof.
  intros H. unfold extract_entry. now rewrite unsafe_name_test, H.
Qed.

(** The loop stops at an unsafe name in the state that the names
    before it have left. *)
Lemma extract_entries_unsafe nested infolist dest_path dest_resolved
      bad post :
  unsafe_name bad = true ->
  forall pre w extracted,
    extract_entries config nested infolist dest_path dest_resolved
      (pre ++ bad :: post) w extracted
    = match extract_entries config nested infolist dest_path dest_resolved
              pre w extracted with
      | (w', Ok _) => (w', Raise (ArchiveSecurityError ZipSlip))
      | (w', Raise e) => (w', Raise e)
      end.
Proof.
  intros Hbad. induction pre as [|entry pre IH]; intros w extracted;
    cbn [app extract_entries].
  { now rewrite extract_entry_unsafe. }
  destruct (extract_entry _ _ _ _ _ _) as [w1 [[p|]|e]]; try apply IH;
    [|reflexivity].
  destruct (Names.endswith _ _); [|apply IH].
  destruct (nested _ _ _) as [w2 [more|e]]; [apply IH|reflexivity].
Qed.

(** C4, amended: an archive in which some stored name is absolute or
    has a parent-directory segment is never extracted to the end:
    [safe_extract_zip] fails, and it writes nothing for that entry or
    for any entry after it, the world being the one that the entries
    before it have left. When the archive has passed the validation of
    its declared sizes, the error is [ZipSlip] (SecurityViolation)
    unless an earlier entry has failed; with the unsafe name first,
    only the directories of the destination have been made. *)
Theorem zip_slip_entry_rejected
    (zip_path : list string) (destination : string) (max_depth : option Z)
    (w : world) (infolist : list ZipInfo) (pre post : list string)
    (bad : string) :
  open_zip (files w) zip_path = Ok infolist ->
  map filename infolist = pre ++ bad :: post ->
  unsafe_name bad = true ->
  let out := safe_extract_zip config zip_path destination max_depth w in
  let depth :=
    Z.to_nat (match max_depth with
              | None => ZIP_MAX_RECURSION_DEPTH config
              | Some d => d
              end) in
  (exists e, out.2 = Raise e)
  /\ forall d totals dest_path fs,
       depth = S d ->
       validate_zip_file config (files w) zip_path = Ok totals ->
       resolve_secure_path config destination None = Ok dest_path ->
       Fs.mkdir (files w) dest_path = Ok fs ->
       let before :=
         extract_entries config (safe_extract_zip_depth config d)
           infolist dest_path (PosixPath.resolve dest_path)
           pre (with_files w fs) [] in
       out.1 = before.1
       /\ out.2 = match before.2 with
                  | Ok _ => Raise (ArchiveSecurityError ZipSlip)
                  | Raise e => Raise e
                  end
       /\ kind_of (ArchiveSecurityError ZipSlip) = SecurityViolation
       /\ (pre = [] ->
           out = (with_files w fs, Raise (ArchiveSecurityError ZipSlip))).
Proof.
  intros Hopen Hnames Hbad out depth.
  assert (Hout : out = safe_extract_zip_depth config depth zip_path
                         destination w) by reflexivity.
  clearbody out depth.
  assert (Hrun : forall d totals dest_path fs,
    depth = S d ->
    validate_zip_file config (files w) zip_path = Ok totals ->
    resolve_secure_path config destination None = Ok dest_path ->
    Fs.mkdir (files w) dest_path = Ok fs ->
    out = match extract_entries config (safe_extract_zip_depth config d)
                  infolist dest_path (PosixPath.resolve dest_path)
                  pre (with_files w fs) [] with
          | (w', Ok _) => (w', Raise (ArchiveSecurityError ZipSlip))
          | (w', Raise e) => (w', Raise e)
          end).
  { intros d totals dest_path fs Hd Hv Hr Hm.
    rewrite Hout, Hd. cbn [safe_extract_zip_depth]. rewrite Hv, Hr, Hm.
    assert (open_zip (files (with_files w fs)) zip_path = Ok infolist) as ->.
    { unfold open_zip in *. cbn [files with_files].
      destruct (Fs.lookup (files w) zip_path) as [[c|]|] eqn:E;
        try discriminate.
      now rewrite (lookup_keeps_files _ _ _ _ _ Hm E). }
    rewrite Hnames. now apply extract_entries_unsafe. }
  split.
  - destruct depth as [|d].
    { rewrite Hout. cbn [safe_extract_zip_depth]. eauto. }
    destruct (validate_zip_file config (files w) zip_path)
      as [totals|] eqn:Hv.
    2:{ rewrite Hout. cbn [safe_extract_zip_depth]. rewrite Hv. eauto. }
    destruct (resolve_secure_path config destination None)
      as [dest_path|] eqn:Hr.
    2:{ rewrite Hout. cbn [safe_extract_zip_depth]. rewrite Hv, Hr. eauto. }
    destruct (Fs.mkdir (files w) dest_path) as [fs|] eqn:Hm.
    2:{ rewrite Hout. cbn [safe_extract_zip_depth]. rewrite Hv, Hr, Hm.
        eauto. }
    rewrite (Hrun d totals dest_path fs eq_refl eq_refl eq_refl Hm).
    destruct (extract_entries _ _ _ _ _ _ _ _) as [w' [l|e]]; eauto.
  - intros d totals dest_path fs Hd Hv Hr Hm before.
    rewrite (Hrun d totals dest_path fs Hd Hv Hr Hm). fold before.
    split_and!.
    + now destruct before as [w' [l|e]].
    + now destruct before as [w' [l|e]].
    + reflexivity.
    + intros ->. reflexivity.
Qed.

End ZipSlipFacts.

(** C4 as stated fails: an entry named [../../outside.txt] that
    declares 100,000 bytes for 100 compressed ones is turned down by the
    validation of the sizes, with an error of kind QuotaExceeded. *)
Lemma zip_slip_with_declared_ratio :
  let bad := mkZipInfo "../../outside.txt" 100000 100 5 None in
  let zip_path := ["srv"; "sandbox"; "slip.zip"] in
  let w := mkWorld {[ zip_path := File (Binary 200 (Some [bad])) ]} [] in
  unsafe_name (filename bad) = true
  /\ safe_extract_zip default_config zip_path "out" None w
     = (w, Raise (ArchiveSecurityError RatioTooHigh))
  /\ kind_of (ArchiveSecurityError RatioTooHigh) <> SecurityViolation.
Proof. vm_compute. repeat split. discriminate. Qed.

Lemma zip_slip_entry_rejected_witness :
  (safe_extract_zip default_config ["srv"; "sandbox"; "slip.zip"] "out" None
     (mkWorld {[ ["srv"; "sandbox"; "slip.zip"] :=
                   File (Binary 200
                     (Some [mkZipInfo "ok.txt" 5 5 5 None;
                            mkZipInfo "../../outside.txt" 7 7 7 None])) ]}
              [])).2
  = Raise (ArchiveSecurityError ZipSlip).
Proof.
  set (infolist := [mkZipInfo "ok.txt" 5 5 5 None;
                    mkZipInfo "../../outside.txt" 7 7 7 None]).
  set (zip_path := ["srv"; "sandbox"; "slip.zip"]).
  set (w := mkWorld {[ zip_path := File (Binary 200 (Some infolist)) ]} []).
  assert (Hopen : open_zip (files w) zip_path = Ok infolist)
    by (vm_compute; reflexivity).
  destruct (zip_slip_entry_rejected default_config zip_path "out" None w
              infolist ["ok.txt"] [] "../../outside.txt"
              Hopen eq_refl eq_refl) as [[e He] _].
  rewrite He. vm_compute in He. symmetry. exact He.
Defined.


(** ** Archives: the depth of nesting *)

Section DepthFacts.

Variable config : Config.
Hypothesis root_canonical : canonical (SANDBOX_ROOT config) = true.
Hypothesis root_dirs : dir_path (SANDBOX_ROOT config) = true.
Hypothesis files_allowed : (1 <= ZIP_MAX_FILES config)%N.
Hypothesis ratio_allowed : (1 <= ZIP_MAX_RATIO config)%Q.

Lemma dir_path_app p q : dir_path (p ++ q) = dir_path p && dir_path q.
Proof. apply forallb_app. Qed.

Lemma dir_path_not_leaf p n :
  dir_path (p ++ [n]) = true -> leaf_name n = false.
Proof.
  rewrite dir_path_app. cbn. rewrite andb_true_r.
  intros H. apply andb_true_iff in H as [_ H]. now apply negb_true_iff.
Qed.

Lemma last_snoc (p : list string) n : List.last (p ++ [n]) "" = n.
Proof. apply last_last. Qed.

Lemma tidy_insert_dir fs p :
  tidy fs -> dir_path p = true -> tidy (<[p := Dir]> fs).
Proof.
  intros Ht Hp q nd. destruct (decide (p = q)) as [<-|Hne].
  - rewrite lookup_insert_eq. now intros [= <-].
  - rewrite lookup_insert_ne by assumption. apply Ht.
Qed.

Lemma tidy_insert_file fs p n c :
  tidy fs -> leaf_name n = true -> tidy (<[p ++ [n] := File c]> fs).
Proof.
  intros Ht Hn q nd. destruct (decide (p ++ [n] = q)) as [<-|Hne].
  - rewrite lookup_insert_eq. intros [= <-]. now rewrite last_snoc.
  - rewrite lookup_insert_ne by assumption. apply Ht.
Qed.

Lemma tidy_not_file fs p :
  tidy fs -> dir_path p = true ->
  match Fs.lookup fs p with Some (File _) => False | _ => True end.
Proof.
  intros Ht Hp. destruct (Fs.lookup fs p) as [[c|]|] eqn:El; try exact I.
  destruct p as [|y p']; [discriminate|]. cbn [Fs.lookup] in El.
  apply Ht in El.
  destruct (@exists_last _ (y :: p')) as (q & n & E); [discriminate|].
  rewrite E in *. rewrite last_snoc in El.
  apply dir_path_not_leaf in Hp. congruence.
Qed.

Lemma mkdir_walk_tidy rest : forall fs prefix,
  tidy fs -> dir_path (prefix ++ rest) = true ->
  exists fs',
    Fs.mkdir_walk fs prefix rest = Ok fs'
    /\ tidy fs' /\ Fs.is_dir fs' (prefix ++ rest) = true.
Proof.
  induction rest as [|n rest IH]; intros fs prefix Ht Hp;
    cbn [Fs.mkdir_walk].
  - rewrite List.app_nil_r in *.
    pose proof (tidy_not_file fs prefix Ht Hp) as Hnf.
    destruct prefix as [|x prefix].
    + cbn [Fs.lookup]. exists fs. auto.
    + assert (Hins : tidy (<[x :: prefix := Dir]> fs))
        by now apply tidy_insert_dir.
      assert (Hd : Fs.is_dir (<[x :: prefix := Dir]> fs) (x :: prefix) = true).
      { unfold Fs.is_dir, Fs.lookup. now rewrite lookup_insert_eq. }
      destruct (Fs.lookup fs (x :: prefix)) as [[c|]|]; [destruct Hnf|..];
        eexists; eauto.
  - assert (Hpre : dir_path prefix = true).
    { rewrite dir_path_app in Hp. now apply andb_true_iff in Hp. }
    pose proof (tidy_not_file fs prefix Ht Hpre) as Hnf.
    assert (Hstep : forall fs1, tidy fs1 ->
              exists fs',
                Fs.mkdir_walk fs1 (prefix ++ [n]) rest = Ok fs'
                /\ tidy fs' /\ Fs.is_dir fs' (prefix ++ n :: rest) = true).
    { intros fs1 H1. destruct (IH fs1 (prefix ++ [n]) H1) as (fs' & E & T & D).
      - now rewrite <- List.app_assoc.
      - exists fs'. rewrite <- List.app_assoc in D. auto. }
    destruct prefix as [|x prefix].
    + cbn [Fs.lookup]. now apply Hstep.
    + destruct (Fs.lookup fs (x :: prefix)) as [[c|]|]; [destruct Hnf|..];
        apply Hstep; now apply tidy_insert_dir.
Qed.

Lemma mkdir_tidy fs p :
  tidy fs -> dir_path p = true ->
  exists fs', Fs.mkdir fs p = Ok fs' /\ tidy fs' /\ Fs.is_dir fs' p = true.
Proof. intros. now apply (mkdir_walk_tidy p fs []). Qed.

(** *** One member *)

Lemma validate_equal_sizes name s z :
  (0 < s)%N -> validate_zip_entry config (mkZipInfo name s s s z) = Ok tt.
Proof.
  intros Hs. unfold validate_zip_entry. cbn [compress_size file_size].
  apply N.ltb_lt in Hs as Hb. rewrite Hb.
  destruct (Qlt_le_dec _ _) as [Hlt|_]; [|reflexivity].
  exfalso. apply (Qlt_not_le _ _ Hlt).
  assert (Binary64.true_divide s s == 1)%Q as ->
    by now apply true_divide_same.
  exact ratio_allowed.
Qed.

Lemma extract_member name s z w dest_path :
  tidy (files w) ->
  dir_path dest_path = true -> canonical dest_path = true ->
  clean_name name = true -> leaf_name name = true ->
  entry_is_absolute name = false -> entry_names name = [name] ->
  Names.endswith name "/" = false ->
  (0 < s <= ZIP_MAX_TOTAL_SIZE config)%N ->
  exists w',
    extract_entry config [mkZipInfo name s s s z] dest_path
      (PosixPath.resolve dest_path) name w
    = (w', Ok (Some (dest_path ++ [name])))
    /\ tidy (files w')
    /\ files w' !! (dest_path ++ [name]) = Some (File (Binary s z))
    /\ written w' = written w ++ [(dest_path ++ [name], s)].
Proof.
  intros Ht Hd Hc Hn Hleaf Habs Hnames Hend [Hs0 Hs].
  assert (Hfull : canonical (dest_path ++ [name]) = true).
  { rewrite canonical_app, Hc. cbn. now rewrite Hn. }
  apply clean_name_spec in Hn as (_ & _ & Hdd & _).
  unfold extract_entry, entry_parts. rewrite Habs, Hnames. cbn [app existsb orb].
  assert (String.eqb ".." name = false) as ->
    by (apply String.eqb_neq; congruence).
  cbn [orb]. rewrite !resolve_canonical by assumption.
  rewrite startswith_str_app. cbn [negb].
  unfold getinfo. cbn [rev app List.find filename].
  rewrite String.eqb_refl, validate_equal_sizes, Hend by assumption.
  assert (Fs.parent (dest_path ++ [name]) = dest_path) as ->
    by apply removelast_last.
  destruct (mkdir_tidy (files w) dest_path Ht Hd) as (fs1 & -> & Ht1 & Hd1).
  unfold Fs.open_w.
  assert (Fs.parent (dest_path ++ [name]) = dest_path) as ->
    by apply removelast_last.
  rewrite Hd1.
  assert (Fs.is_dir fs1 (dest_path ++ [name]) = false) as ->.
  { unfold Fs.is_dir, Fs.lookup.
    destruct (dest_path ++ [name]) eqn:E; [now destruct dest_path|].
    rewrite <- E. destruct (fs1 !! (dest_path ++ [name])) as [[c|]|] eqn:El;
      try reflexivity.
    apply Ht1 in El. apply dir_path_not_leaf in El. congruence. }
  cbn [negb andb]. cbv zeta.
  unfold open_entry. cbn [stream_size stream_zip file_size].
  rewrite N.leb_refl. cbn [fst snd].
  destruct (copy_stream_spec config s) as [Hcopy _]. rewrite (Hcopy Hs).
  eexists. split; [reflexivity|]. cbn [files written].
  rewrite insert_insert_eq. split_and!.
  - now apply tidy_insert_file.
  - apply lookup_insert_eq.
  - reflexivity.
Qed.

(** *** A chain *)

Lemma chain_size_mono n : (chain_size n <= chain_size (S n))%N.
Proof. unfold chain_size. lia. Qed.

Lemma validate_single name s z :
  (0 < s <= ZIP_MAX_TOTAL_SIZE config)%N ->
  validate_entries config [mkZipInfo name s s s z] 0 0 0 = Ok (1, s, s)%N.
Proof.
  intros [Hs0 Hs]. cbn [validate_entries].
  assert ((ZIP_MAX_FILES config <? 0 + 1)%N = false) as ->
    by (apply N.ltb_ge; lia).
  rewrite validate_equal_sizes by assumption.
  cbn [mbind result_bind file_size compress_size].
  assert ((ZIP_MAX_TOTAL_SIZE config <? 0 + s)%N = false) as ->
    by (apply N.ltb_ge; lia).
  reflexivity.
Qed.

Lemma chain_extract n : forall d w zip_path destination dest_path sz,
  tidy (files w) ->
  Fs.lookup (files w) zip_path = Some (File (Binary sz (Some (chain n)))) ->
  resolve_secure_path config destination None = Ok dest_path ->
  dir_path dest_path = true -> canonical dest_path = true ->
  (chain_size n <= ZIP_MAX_TOTAL_SIZE config)%N ->
  exists w' r,
    safe_extract_zip_depth config d zip_path destination w = (w', r)
    /\ tidy (files w')
    /\ length (written w') = (length (written w) + Nat.min d (S n))%nat
    /\ ((n < d)%nat -> exists l, r = Ok l /\ length l = S n)
    /\ ((d <= n)%nat -> r = Raise (ArchiveSecurityError DepthExceeded)).
Proof.
  induction n as [|n IH];
    intros d w zip_path destination dest_path sz Ht Hzip Hres Hdir Hcan Hcap.
  all: destruct d as [|d]; cbn [safe_extract_zip_depth].
  1, 3: exists w, (Raise (ArchiveSecurityError DepthExceeded));
    split_and!; [reflexivity|exact Ht|cbn; lia|intros; lia|reflexivity].
  all: unfold validate_zip_file, open_zip at 1; rewrite Hzip;
    cbn [as_zip mbind result_bind chain].
  - rewrite validate_single by (unfold chain_size in Hcap; lia).
    rewrite Hres.
    destruct (mkdir_tidy (files w) dest_path Ht Hdir) as (fs1 & Hmk & Ht1 & _).
    rewrite Hmk. unfold open_zip. cbn [files with_files].
    rewrite (lookup_keeps_files _ _ _ _ _ Hmk Hzip). cbn [as_zip].
    cbn [chain map filename extract_entries].
    destruct (extract_member "data.txt" 5 None (with_files w fs1) dest_path)
      as (w2 & -> & Ht2 & _ & Hw2); auto.
    { unfold chain_size in Hcap. lia. }
    change (Names.endswith (Names.lower "data.txt") ".zip") with false.
    cbn iota. exists w2. eexists. split; [reflexivity|]. split_and!.
    + exact Ht2.
    + rewrite Hw2, length_app. cbn. lia.
    + intros _. eexists. split; reflexivity.
    + lia.
  - pose proof (chain_size_mono n) as Hmono.
    rewrite validate_single by (unfold chain_size in *; lia).
    rewrite Hres.
    destruct (mkdir_tidy (files w) dest_path Ht Hdir) as (fs1 & Hmk & Ht1 & _).
    rewrite Hmk. unfold open_zip. cbn [files with_files].
    rewrite (lookup_keeps_files _ _ _ _ _ Hmk Hzip). cbn [as_zip].
    cbn [chain map filename extract_entries].
    destruct (extract_member "inner.zip" (chain_size n) (Some (chain n))
                (with_files w fs1) dest_path)
      as (w2 & -> & Ht2 & Hf2 & Hw2); auto.
    { unfold chain_size in *. lia. }
    change (Names.endswith (Names.lower "inner.zip") ".zip") with true.
    cbn iota.
    assert (Fs.parent (dest_path ++ ["inner.zip"]) = dest_path) as ->
      by apply removelast_last.
    assert (Fs.name (dest_path ++ ["inner.zip"]) = "inner.zip") as ->
      by apply last_last.
    change (PosixPath.stem "inner.zip") with "inner".
    change (PosixPath.joinpath dest_path "inner") with (dest_path ++ ["inner"]).
    assert (Hcan' : canonical (dest_path ++ ["inner"]) = true)
      by (rewrite canonical_app, Hcan; reflexivity).
    destruct (IH d w2 (dest_path ++ ["inner.zip"])
                (PosixPath.str (dest_path ++ ["inner"]))
                (SANDBOX_ROOT config ++ dest_path ++ ["inner"])
                (chain_size n))
      as (w3 & r3 & -> & Ht3 & Hw3 & Hok & Herr); auto.
    { unfold Fs.lookup.
      destruct (dest_path ++ ["inner.zip"]) eqn:E; [now destruct dest_path|].
      first [exact Hf2 | rewrite <- E; exact Hf2]. }
    { now apply resolve_secure_path_str. }
    { rewrite !dir_path_app, root_dirs, Hdir. reflexivity. }
    { rewrite canonical_app, root_canonical. exact Hcan'. }
    { lia. }
    exists w3. destruct r3 as [l|e].
    + eexists. split; [reflexivity|]. split_and!.
      * exact Ht3.
      * rewrite Hw3, Hw2, length_app. cbn. lia.
      * intros Hlt. destruct Hok as (l' & [= <-] & Hl); [lia|].
        eexists. split; [reflexivity|]. rewrite length_app, Hl. cbn. lia.
      * intros Hle. specialize (Herr ltac:(lia)). discriminate.
    + eexists. split; [reflexivity|]. split_and!.
      * exact Ht3.
      * rewrite Hw3, Hw2, length_app. cbn. lia.
      * intros Hlt. destruct Hok as (l' & [=] & _). lia.
      * intros Hle. apply Herr. lia.
Qed.

(** C8: nested archives are opened with a budget that starts at
    [ZIP_MAX_RECURSION_DEPTH] and loses one at every level. With the
    budget [S m], a chain of [S m] archives (the outer one and [m]
    below it) is extracted whole, and a chain of one archive more
    fails with [DepthExceeded] (QuotaExceeded) when its last archive is
    to be opened: the [S m] archives above it have been extracted by
    then. A chain of [S n] archives is extracted exactly when [S n]
    is at most the budget. *)
Theorem nesting_depth_boundary (m n : nat) :
  ZIP_MAX_RECURSION_DEPTH config = Z.of_nat (S m) ->
  (chain_size n <= ZIP_MAX_TOTAL_SIZE config)%N ->
  let zip_path := SANDBOX_ROOT config ++ ["outer.zip"] in
  let w := mkWorld {[ zip_path :=
                       File (Binary (chain_size n) (Some (chain n))) ]} [] in
  exists w' r,
    safe_extract_zip config zip_path "out" None w = (w', r)
    /\ ((n <= m)%nat ->
        exists extracted, r = Ok extracted /\ length extracted = S n)
    /\ ((m < n)%nat ->
        r = Raise (ArchiveSecurityError DepthExceeded)
        /\ kind_of (ArchiveSecurityError DepthExceeded) = QuotaExceeded
        /\ length (written w') = S m).
Proof.
  intros Hdepth Hcap zip_path w.
  unfold safe_extract_zip. rewrite Hdepth, Nat2Z.id.
  destruct (chain_extract n (S m) w zip_path "out"
              (SANDBOX_ROOT config ++ ["out"]) (chain_size n))
    as (w' & r & E & _ & Hw & Hok & Herr); auto.
  - intros p nd. unfold w. cbn [files].
    destruct (decide (zip_path = p)) as [<-|Hne].
    + rewrite lookup_singleton_eq. intros [= <-]. unfold zip_path.
      now rewrite last_snoc.
    + now rewrite lookup_singleton_ne.
  - unfold w. cbn [files]. unfold Fs.lookup.
    destruct zip_path eqn:Ez;
      [now destruct (SANDBOX_ROOT config)|].
    now rewrite <- Ez, lookup_singleton_eq.
  - now apply resolve_secure_path_below.
  - rewrite dir_path_app, root_dirs. reflexivity.
  - rewrite canonical_app, root_canonical. reflexivity.
  - exists w', r. split; [exact E|]. split.
    + intros Hle. apply Hok. lia.
    + intros Hlt. split; [apply Herr; lia|]. split; [reflexivity|].
      rewrite Hw. cbn. lia.
Qed.

End DepthFacts.


(** With the depth of 5 that [Config] fixes: five archives are
    extracted, six are not. *)
Lemma nesting_depth_boundary_witness :
  (exists w' extracted,
      safe_extract_zip default_config
        (SANDBOX_ROOT default_config ++ ["outer.zip"]) "out" None
        (mkWorld {[ SANDBOX_ROOT default_config ++ ["outer.zip"] :=
                      File (Binary (chain_size 4) (Some (chain 4))) ]} [])
      = (w', Ok extracted))
  /\ (exists w',
        safe_extract_zip default_config
          (SANDBOX_ROOT default_config ++ ["outer.zip"]) "out" None
          (mkWorld {[ SANDBOX_ROOT default_config ++ ["outer.zip"] :=
                        File (Binary (chain_size 5) (Some (chain 5))) ]} [])
        = (w', Raise (ArchiveSecurityError DepthExceeded))).
Proof.
  assert (Hfiles : (1 <= ZIP_MAX_FILES default_config)%N) by (cbn; lia).
  assert (Hratio : (1 <= ZIP_MAX_RATIO default_config)%Q)
    by (unfold Qle; cbn; lia).
  split.
  - destruct (nesting_depth_boundary default_config eq_refl eq_refl
                Hfiles Hratio 4 4 eq_refl ltac:(vm_compute; discriminate))
      as (w' & r & E & Hok & _).
    destruct (Hok ltac:(lia)) as (l & -> & _). now exists w', l.
  - destruct (nesting_depth_boundary default_config eq_refl eq_refl
                Hfiles Hratio 4 5 eq_refl ltac:(vm_compute; discriminate))
      as (w' & r & E & _ & Herr).
    destruct (Herr ltac:(lia)) as (-> & _). now exists w'.
Defined.


(** ** Writing a file *)

Section StagingFacts.

Local Arguments String.append : simpl nomatch.

Lemma substring_all s : String.substring 0 (String.length s) s = s.
Proof. induction s as [|c s IH]; simpl; congruence. Qed.

Lemma substring_split s : forall i,
  (i <= String.length s)%nat ->
  String.substring 0 i s +:+ String.substring i (String.length s - i) s = s.
Proof.
  induction s as [|c s IH]; intros [|i] Hi; simpl in *; try reflexivity;
    try lia.
  - now rewrite substring_all.
  - rewrite IH by lia. reflexivity.
Qed.

Lemma length_substring s : forall i m,
  (i + m <= String.length s)%nat ->
  String.length (String.substring i m s) = m.
Proof.
  induction s as [|c s IH]; intros [|i] [|m] H; simpl in *;
    try reflexivity; try lia;
    try (rewrite IH by lia; reflexivity); try (apply IH; lia).
Qed.

Lemma cut_bound name i :
  PosixPath.cut name = Some i -> (i < String.length name - 1)%nat.
Proof.
  unfold PosixPath.cut. destruct (PosixPath.rfind_dot name 0 None) as [j|];
    [|discriminate].
  destruct (0 <? j)%nat; [|discriminate]. cbn [andb].
  destruct (j <? String.length name - 1)%nat eqn:E; [|discriminate].
  intros [= <-]. now apply Nat.ltb_lt.
Qed.

(** [with_suffix(suffix + ".tmp")] puts [.tmp] after the name,
    whatever the suffix is. *)
Lemma with_suffix_tmp p :
  List.last p "" <> "" ->
  PosixPath.with_suffix p (PosixPath.suffix (List.last p "") +:+ ".tmp")
  = Some (staging_path p).
Proof.
  intros Hname. unfold PosixPath.with_suffix, staging_path.
  destruct (List.last p "") as [|c name] eqn:E; [congruence|].
  rewrite <- E. f_equal. f_equal. f_equal.
  rewrite E. clear E Hname p. generalize (String c name). intros n.
  unfold PosixPath.suffix. destruct (PosixPath.cut n) as [i|] eqn:Ec.
  - apply cut_bound in Ec.
    assert (Hlen : String.length
                     (String.substring i (String.length n - i) n)
                   = (String.length n - i)%nat)
      by (apply length_substring; lia).
    destruct (String.eqb _ "") eqn:E0.
    + apply String.eqb_eq in E0. rewrite E0 in Hlen. simpl in Hlen. lia.
    + rewrite Hlen.
      replace (String.length n - (String.length n - i))%nat with i by lia.
      rewrite <- append_assoc, substring_split by lia. reflexivity.
  - reflexivity.
Qed.

Lemma staging_path_differs p : staging_path p <> p.
Proof.
  unfold staging_path. intros E.
  destruct (@exists_last _ p) as (q & n & ->).
  - intros ->. discriminate.
  - rewrite removelast_last, last_last in E.
    apply app_inj_tail in E as [_ E].
    apply (f_equal String.length) in E. rewrite length_append in E.
    simpl in E. lia.
Qed.

Lemma staging_parent p : p <> [] -> Fs.parent (staging_path p) = Fs.parent p.
Proof.
  intros Hp. unfold staging_path, Fs.parent. apply removelast_last.
Qed.

End StagingFacts.


Section WriteFacts.

Variable config : Config.
Variable DB : Type.
Variable record_modify : string -> string -> N -> Z -> DB -> DB * FileRecord.

Import LockManager.

(** *** The lock around an operation *)

Lemma execute_locked_spec {W A} (operation : W -> W * result A)
      cwd path st w :
  exists st',
    (forall k, locked st' k = locked st k)
    /\ if locked st (_get_lock_key cwd path)
       then execute_locked cwd operation path st w
            = (st', w, Raise TimeoutError)
       else execute_locked cwd operation path st w
            = (st', (operation w).1, (operation w).2).
Proof.
  unfold execute_locked.
  destruct (get_lock_spec cwd path st) as (st1 & -> & _ & L1).
  destruct (locked st (_get_lock_key cwd path)) eqn:Hl.
  - rewrite acquire_busy by now rewrite L1. exists st1. auto.
  - destruct (acquire_free (_get_lock_key cwd path) st1)
      as (st2 & -> & _ & L2); [now rewrite L1|].
    destruct (operation w) as [w' r].
    destruct (release_held (_get_lock_key cwd path) st2)
      as (st3 & -> & _ & L3).
    { rewrite L2. now rewrite bool_decide_eq_true_2. }
    exists st3. split; [|reflexivity].
    intros k. rewrite L3, L2, L1.
    destruct (decide (k = _get_lock_key cwd path)) as [->|Hne].
    + rewrite bool_decide_eq_true_2 by reflexivity. now rewrite Hl.
    + now rewrite bool_decide_eq_false_2.
Qed.

(** *** Failures before the rename *)

Section Faults.

Variable env : faults.
Hypothesis stat_works : stat_fails env = false.
Hypothesis db_works : db_fails env = false.

Lemma write_text_spec fs p data fs' r :
  write_text env fs p data = (fs', r) ->
  match r with
  | Ok _ => fs' = <[p := File (Text data)]> fs
  | Raise _ => fs' = fs \/ exists c, fs' = <[p := File c]> fs
  end.
Proof.
  unfold write_text.
  destruct (write_fault_of env); [| |];
    try destruct (Fs.open_w fs p (Text "")); intros [= <- <-]; eauto.
Qed.

Lemma write_body_failure
      relative_path content user_id append full_path temp_path
      fs db fs' db' e :
  write_body DB record_modify env relative_path content user_id
    append full_path temp_path (fs, db) = ((fs', db'), Raise e) ->
  db' = db /\ (fs' = fs \/ exists c, fs' = <[temp_path := File c]> fs).
Proof.
  unfold write_body.
  destruct (if append then _ else _) as [new_content|e0];
    [|intros [= <- <- <-]; auto].
  destruct (write_text env fs temp_path new_content) as [fs1 [[]|e1]] eqn:Ew;
    apply write_text_spec in Ew.
  2:{ intros [= <- <- <-]. auto. }
  subst fs1. unfold replace.
  destruct (replace_fails env); [intros [= <- <- <-]; eauto|].
  destruct (Fs.lookup _ temp_path) as [[c|]|];
    [|intros [= <- <- <-]; eauto..].
  destruct (Fs.lookup _ full_path) as [[c'|]|];
    [|intros [= <- <- <-]; eauto|];
    rewrite stat_works, db_works;
    destruct (record_modify _ _ _ _ _); discriminate.
Qed.

Lemma staging_lookup fs p : Fs.lookup fs (staging_path p) = fs !! staging_path p.
Proof.
  unfold Fs.lookup, staging_path.
  destruct (removelast p ++ _) eqn:E; [|reflexivity].
  now destruct (removelast p).
Qed.

Lemma _write_failure
      relative_path content user_id append full_path fs db fs' db' e :
  _write DB record_modify env relative_path content user_id
    append full_path (fs, db) = ((fs', db'), Raise e) ->
  db' = db /\ (fs' = fs \/ fs' = delete (staging_path full_path) fs).
Proof.
  unfold _write. cbn [fst].
  destruct (negb _); [intros [= <- <-]; auto|].
  destruct (List.last full_path "") as [|c name] eqn:Ename.
  { unfold PosixPath.with_suffix. rewrite Ename. intros [= <- <-]. auto. }
  unfold Fs.name. rewrite with_suffix_tmp by (rewrite Ename; discriminate).
  destruct (write_body _ _ _ _ _ _ _ _ _ _) as [[fs1 db1] [rec|e1]] eqn:Eb;
    [discriminate|].
  apply write_body_failure in Eb as [-> Hfs1].
  unfold Fs.exists_, Fs.unlink. rewrite staging_lookup.
  destruct Hfs1 as [->|[c' ->]].
  - destruct (fs !! staging_path full_path) as [[c'|]|];
      intros [= <- <-]; auto.
  - rewrite lookup_insert_eq. intros [= <- <-]. split; [reflexivity|].
    right. apply delete_insert_eq.
Qed.

End Faults.

(** *** A write that succeeds *)

Lemma _write_ok (relative_path content : string) (user_id : Z)
      (append : bool) (full_path : list string) (fs : FS) (db : DB)
      (old : string) :
  Fs.lookup fs full_path = Some (File (Text old)) ->
  List.last full_path "" <> "" ->
  Fs.is_dir fs (Fs.parent full_path) = true ->
  Fs.is_dir fs (staging_path full_path) = false ->
  let data :=
    if append then Names.universal_newlines old +:+ content else content in
  let stored :=
    record_modify relative_path (Fs.name full_path)
      (N.of_nat (String.length data)) user_id db in
  _write DB record_modify no_faults relative_path content user_id append
    full_path (fs, db)
  = ((atomic_replace fs full_path data, stored.1), Ok stored.2).
Proof.
  intros Hfile Hname Hparent Htemp data stored.
  assert (Hne : full_path <> []) by (intros ->; discriminate).
  assert (Hfull : fs !! full_path = Some (File (Text old))).
  { destruct full_path; [congruence|exact Hfile]. }
  pose proof (staging_path_differs full_path) as Hdiff.
  unfold _write, Fs.exists_. cbn [fst]. rewrite Hfile. cbn [negb].
  unfold Fs.name. rewrite with_suffix_tmp by assumption.
  unfold write_body, read_text, write_text, replace, Fs.open_w.
  cbn [read_fails write_fault_of replace_fails stat_fails db_fails no_faults].
  rewrite Hfile, staging_parent, Hparent, Htemp by assumption.
  cbn [negb andb].
  assert (Hfull' : forall d,
            Fs.lookup (<[staging_path full_path := File (Text d)]> fs)
                      full_path = Some (File (Text old))).
  { intros d. destruct full_path; [congruence|]. cbn [Fs.lookup].
    now rewrite lookup_insert_ne. }
  assert (Hnew : forall d,
            Fs.lookup
              (delete (staging_path full_path)
                 (<[full_path := File (Text d)]>
                    (<[staging_path full_path := File (Text d)]> fs)))
              full_path = Some (File (Text d))).
  { intros d. destruct full_path; [congruence|]. cbn [Fs.lookup].
    rewrite lookup_delete_ne by assumption. apply lookup_insert_eq. }
  subst data stored.
  destruct append; cbn [mbind result_bind];
    rewrite staging_lookup, lookup_insert_eq, Hfull', Hnew;
    cbn [st_size];
    destruct (record_modify _ _ _ _ _) as [db' rec]; cbn [fst snd];
    unfold atomic_replace;
    rewrite insert_insert_ne by congruence;
    now rewrite delete_insert_eq.
Qed.

(** Text without a carriage return is read as it is stored. *)
Lemma universal_newlines_plain s :
  Names.has_char [Names.CR] s = false -> Names.universal_newlines s = s.
Proof.
  induction s as [|c s IH]; [reflexivity|].
  cbn [Names.has_char existsb Names.universal_newlines].
  rewrite orb_false_r. intros [Hc Hs]%orb_false_iff.
  rewrite Hc. now rewrite IH.
Qed.

Lemma canonical_last p :
  canonical p = true -> p <> [] -> List.last p "" <> "".
Proof.
  intros Hc Hp. destruct (@exists_last _ p Hp) as (q & n & ->).
  rewrite last_last. rewrite canonical_app in Hc.
  apply andb_true_iff in Hc as [_ Hn]. cbn in Hn.
  rewrite andb_true_r in Hn. now apply clean_name_spec in Hn.
Qed.

(** C9, amended: [write_file] with [append=True] reads the old content
    in text mode, where a carriage return, alone or before a line
    feed, is read as a line feed; it joins the new content to what it
    has read and puts the result in the place of the target through
    the staging file, in one step of the file system, leaving no
    staging file ([atomic_replace]). For old content without a
    carriage return the target holds the old content followed by the
    new. Whenever the call fails and neither [stat] nor the metadata
    store failed after the rename, the file system is as before the
    call, except that a staging file is gone: the target holds what it
    held, the staging path holds no regular file unless nothing was
    touched, the metadata store is unchanged and no lock is left
    held. *)
Theorem write_file_all_or_nothing
    (env : faults) (relative_path content : string) (user_id : Z)
    (append : bool) (st : state) (fs : FS) (db : DB)
    (full_path : list string) :
  canonical (SANDBOX_ROOT config) = true ->
  resolve_secure_path config relative_path None = Ok full_path ->
  let out :=
    write_file config DB record_modify env relative_path content user_id
      append st (fs, db) in
  (forall old,
      env = no_faults -> append = true ->
      (N.of_nat (String.length content) <= MAX_UPLOAD_SIZE config)%N ->
      locked st (_get_lock_key [] (PosixPath.str full_path)) = false ->
      Fs.lookup fs full_path = Some (File (Text old)) ->
      Fs.is_dir fs (Fs.parent full_path) = true ->
      Fs.is_dir fs (staging_path full_path) = false ->
      read_text env fs full_path = Ok (Names.universal_newlines old)
      /\ out.1.2.1
         = atomic_replace fs full_path
             (Names.universal_newlines old +:+ content)
      /\ Fs.lookup out.1.2.1 full_path
         = Some (File (Text (Names.universal_newlines old +:+ content)))
      /\ (Names.has_char [Names.CR] old = false ->
          out.1.2.1 = atomic_replace fs full_path (old +:+ content))
      /\ out.1.2.1 !! staging_path full_path = None
      /\ exists file_record, out.2 = Ok file_record)
  /\ (stat_fails env = false -> db_fails env = false ->
      forall e, out.2 = Raise e ->
      (out.1.2.1 = fs \/ out.1.2.1 = delete (staging_path full_path) fs)
      /\ Fs.lookup out.1.2.1 full_path = Fs.lookup fs full_path
      /\ (Fs.is_file out.1.2.1 (staging_path full_path) = true ->
          out.1.2.1 = fs)
      /\ out.1.2.2 = db
      /\ forall k, locked out.1.1 k = locked st k).
Proof.
  intros Hroot Hres out.
  pose proof (staging_path_differs full_path) as Hdiff.
  assert (Hsame : forall fs' : FS,
            fs' = fs \/ fs' = delete (staging_path full_path) fs ->
            Fs.lookup fs' full_path = Fs.lookup fs full_path
            /\ (Fs.is_file fs' (staging_path full_path) = true -> fs' = fs)).
  { intros fs' [->| ->]; [auto|]. split.
    - destruct full_path; [reflexivity|]. cbn [Fs.lookup].
      now rewrite lookup_delete_ne.
    - unfold Fs.is_file. rewrite staging_lookup, lookup_delete_eq.
      discriminate. }
  unfold out, write_file. rewrite Hres. split.
  - intros old -> -> Hsize Hfree Hfile Hparent Htemp.
    apply N.ltb_ge in Hsize. rewrite Hsize.
    destruct (execute_locked_spec
                (_write DB record_modify no_faults relative_path content
                   user_id true full_path)
                [] (PosixPath.str full_path) st (fs, db)) as (st' & _ & E).
    rewrite Hfree in E. rewrite E. cbn [fst snd].
    assert (Hne : full_path <> []) by (intros ->; discriminate).
    pose proof (resolve_secure_path_canonical config relative_path
                  full_path Hroot Hres) as Hcan.
    rewrite (_write_ok relative_path content user_id true full_path fs db old)
      by auto using canonical_last.
    cbn [fst snd]. split_and!.
    + unfold read_text. cbn [read_fails no_faults]. now rewrite Hfile.
    + reflexivity.
    + unfold atomic_replace. destruct full_path; [congruence|].
      cbn [Fs.lookup]. rewrite lookup_delete_ne by assumption.
      apply lookup_insert_eq.
    + intros Hplain. now rewrite universal_newlines_plain.
    + unfold atomic_replace. apply lookup_delete_eq.
    + eauto.
  - intros Hstat Hdb e.
    destruct (_ <? _)%N.
    { cbn [fst snd]. intros _. destruct (Hsame fs) as [H1 H2]; auto. }
    destruct (execute_locked_spec
                (_write DB record_modify env relative_path content
                   user_id append full_path)
                [] (PosixPath.str full_path) st (fs, db)) as (st' & L & E).
    destruct (locked st _); rewrite E; cbn [fst snd].
    { intros _. destruct (Hsame fs) as [H1 H2]; auto. }
    destruct (_write _ _ _ _ _ _ _ _ _) as [[fs' db'] r] eqn:Ew.
    cbn [fst snd]. intros ->.
    apply _write_failure in Ew as [-> Hfs]; try assumption.
    destruct (Hsame fs' Hfs) as [H1 H2]. auto.
Qed.

End WriteFacts.


(** A write that fails after three characters have reached the staging
    file leaves [a.txt] as it was; the same write without a failure
    appends. *)
Lemma write_file_all_or_nothing_witness :
  let record_modify :=
    fun (location name : string) (size : N) (user : Z) (db : unit) =>
      (db, mkFileRecord name size location user) in
  let fs : FS :=
    {[ ["srv"] := Dir; ["srv"; "sandbox"] := Dir;
       ["srv"; "sandbox"; "a.txt"] := File (Text "hello ") ]} in
  let st := LockManager.mkState ∅ [] in
  let broken := mkFaults false (WriteFailsAfter 3) false false false in
  Fs.lookup
    (write_file default_config unit record_modify broken
       "a.txt" "world" 7 true st (fs, tt)).1.2.1
    ["srv"; "sandbox"; "a.txt"]
  = Some (File (Text "hello "))
  /\ Fs.lookup
       (write_file default_config unit record_modify no_faults
          "a.txt" "world" 7 true st (fs, tt)).1.2.1
       ["srv"; "sandbox"; "a.txt"]
     = Some (File (Text "hello world")).
Proof.
  intros record_modify fs st broken. split.
  - destruct (write_file_all_or_nothing default_config unit record_modify
                broken "a.txt" "world" 7 true st fs tt
                ["srv"; "sandbox"; "a.txt"] eq_refl eq_refl) as [_ Hfail].
    destruct (Hfail eq_refl eq_refl OSError ltac:(vm_compute; reflexivity))
      as (_ & Hsame & _).
    etransitivity; [exact Hsame|]. vm_compute. reflexivity.
  - destruct (write_file_all_or_nothing default_config unit record_modify
                no_faults "a.txt" "world" 7 true st fs tt
                ["srv"; "sandbox"; "a.txt"] eq_refl eq_refl) as [Hok _].
    destruct (Hok "hello " eq_refl eq_refl
                ltac:(vm_compute; discriminate)
                ltac:(vm_compute; reflexivity)
                ltac:(vm_compute; reflexivity)
                ltac:(vm_compute; reflexivity)
                ltac:(vm_compute; reflexivity)) as (_ & _ & Hnew & _).
    exact Hnew.
Defined.

(** C9 as stated fails: the text [a], carriage return, line feed, [b]
    is read as [a], line feed, [b], and after [X] is appended the file
    holds that followed by [X]: the carriage return of the old content
    is gone. *)
Lemma write_file_append_translates_line_ends :
  let record_modify :=
    fun (location name : string) (size : N) (user : Z) (db : unit) =>
      (db, mkFileRecord name size location user) in
  let old := String "a" (String Names.CR (String Names.LF "b")) in
  let fs : FS :=
    {[ ["srv"] := Dir; ["srv"; "sandbox"] := Dir;
       ["srv"; "sandbox"; "a.txt"] := File (Text old) ]} in
  let st := LockManager.mkState ∅ [] in
  let out :=
    write_file default_config unit record_modify no_faults
      "a.txt" "X" 7 true st (fs, tt) in
  Fs.lookup fs ["srv"; "sandbox"; "a.txt"] = Some (File (Text old))
  /\ (exists file_record, out.2 = Ok file_record)
  /\ Fs.lookup out.1.2.1 ["srv"; "sandbox"; "a.txt"]
     = Some (File (Text (String "a" (String Names.LF "bX"))))
  /\ String "a" (String Names.LF "bX") <> old +:+ "X".
Proof.
  cbv zeta. split_and!.
  - vm_compute. reflexivity.
  - eexists. vm_compute. reflexivity.
  - vm_compute. reflexivity.
  - vm_compute. discriminate.
Qed.

(** ** Archives: creation *)

Section CreateFacts.

Variable config : Config.

(** Sources that are regular files are counted without any test. *)
Lemma count_sources_files fs sources : forall total_size file_count,
  Forall (fun source =>
            exists p c,
              resolve_secure_path config source None = Ok p
              /\ Fs.lookup fs p = Some (File c)) sources ->
  exists total_size',
    count_sources config fs sources total_size file_count
    = Ok (total_size', (file_count + N.of_nat (length sources))%N).
Proof.
  induction sources as [|source rest IH]; intros t c H; cbn [count_sources].
  - exists t. cbn. now rewrite N.add_0_r.
  - inversion H as [|? ? (p & c' & Hp & Hf) Hrest]; subst.
    rewrite Hp. cbn [mbind result_bind]. rewrite Hf.
    destruct (IH (t + st_size c')%N (c + 1)%N Hrest) as (t' & ->).
    exists t'. do 2 f_equal. cbn [length]. lia.
Qed.

End CreateFacts.

(** C6, evaluated: with the defaults, one source that is a regular file
    of more than [ZIP_MAX_TOTAL_SIZE] bytes passes the count and the
    archive is written; the same file found in a source directory is
    refused. The two caps are tested in the branch for directories
    only. *)
Theorem create_zip_file_sources_unchecked :
  let fs : FS :=
    {[ ["srv"] := Dir; ["srv"; "sandbox"] := Dir;
       ["srv"; "sandbox"; "big.bin"] := File (Binary 3000000000 None);
       ["srv"; "sandbox"; "d"] := Dir;
       ["srv"; "sandbox"; "d"; "big.bin"] := File (Binary 3000000000 None) ]} in
  (ZIP_MAX_TOTAL_SIZE default_config < 3000000000)%N
  /\ count_sources default_config fs ["big.bin"] 0 0 = Ok (3000000000, 1)%N
  /\ (forall deflated container_size,
        (safe_create_zip default_config deflated container_size
           ["big.bin"] "out.zip" fs).2
        = Ok ["srv"; "sandbox"; "out.zip"])
  /\ (forall deflated container_size,
        safe_create_zip default_config deflated container_size
          ["d"] "out.zip" fs
        = (fs, Raise (ArchiveSecurityError TotalTooLarge))).
Proof.
  intros fs. split_and!.
  - reflexivity.
  - vm_compute. reflexivity.
  - intros. vm_compute. reflexivity.
  - intros. unfold safe_create_zip.
    assert (resolve_secure_path default_config "out.zip" None
            = Ok ["srv"; "sandbox"; "out.zip"]) as -> by reflexivity.
    assert (validate_filename default_config
              (Fs.name ["srv"; "sandbox"; "out.zip"]) = Ok "out.zip") as ->
      by (vm_compute; reflexivity).
    assert (count_sources default_config fs ["d"] 0 0
            = Raise (ArchiveSecurityError TotalTooLarge)) as ->
      by (vm_compute; reflexivity).
    reflexivity.
Qed.

(** * Further properties *)

(** ** File names and resolved paths *)

Section NameFacts.

Import PosixPath.

Local Arguments String.append : simpl nomatch.

Variable config : Config.

Lemma split_append_sep a b : split (a +:+ "/" +:+ b) = split a ++ split b.
Proof.
  induction a as [|c a IH]; [reflexivity|].
  change (String c a +:+ "/" +:+ b) with (String c (a +:+ "/" +:+ b)).
  cbn [split]. rewrite IH. destruct (is_sep c); [reflexivity|].
  pose proof (split_nonempty a) as Hne.
  destruct (split a); [congruence|reflexivity].
Qed.

Lemma last_app_nonempty {A} (l1 l2 : list A) d :
  l2 <> [] -> List.last (l1 ++ l2) d = List.last l2 d.
Proof.
  intros Hne. induction l1 as [|x l1 IH]; [reflexivity|].
  cbn [app]. cbn [List.last].
  destruct (l1 ++ l2) eqn:E; [|exact IH].
  apply app_eq_nil in E as [_ ->]. congruence.
Qed.

Lemma basename_no_sep filename : contains_sep (Names.basename filename) = false.
Proof.
  unfold Names.basename.
  pose proof (split_no_sep filename) as Hall.
  pose proof (split_nonempty filename) as Hne.
  induction Hall as [|x l Hx Hall IH]; [congruence|].
  destruct l; [exact Hx|]. now apply IH.
Qed.

Lemma basename_plain name :
  contains_sep name = false -> Names.basename name = name.
Proof. intros H. unfold Names.basename. now rewrite split_single. Qed.

Lemma basename_append dir name :
  contains_sep name = false -> Names.basename (dir +:+ "/" +:+ name) = name.
Proof.
  intros H. unfold Names.basename.
  rewrite split_append_sep, last_app_nonempty by apply split_nonempty.
  now apply basename_plain.
Qed.

(** X1: a name that [validate_filename] returns is the final component
    of its argument: it holds no separator, it is within
    [MAX_FILENAME_LENGTH], it holds none of the characters refused,
    it is no reserved name in any letter case, and the function
    returns it unchanged when it is validated again. *)
Theorem validate_filename_returns_safe_name (filename safe_name : string) :
  validate_filename config filename = Ok safe_name ->
  safe_name = Names.basename filename
  /\ contains_sep safe_name = false
  /\ (String.length safe_name <= MAX_FILENAME_LENGTH config)%nat
  /\ Names.has_char Names.invalid_chars safe_name = false
  /\ ~ In (Names.upper safe_name) Names.reserved_names
  /\ validate_filename config safe_name = Ok safe_name.
Proof.
  unfold validate_filename at 1.
  destruct (_ <? _)%nat eqn:Hlen; [discriminate|].
  destruct (Names.has_char _ _) eqn:Hchar; [discriminate|].
  destruct (existsb _ _) eqn:Hres; [discriminate|].
  intros [= <-].
  pose proof (basename_no_sep filename) as Hsep.
  split_and!; try done.
  - now apply Nat.ltb_ge in Hlen.
  - intros Hin. apply not_true_iff_false in Hres. apply Hres.
    apply existsb_exists. eexists. split; [exact Hin|]. apply String.eqb_refl.
  - unfold validate_filename. rewrite (basename_plain _ Hsep).
    now rewrite Hlen, Hchar, Hres.
Qed.

(** X2: [validate_filename] looks at the final component only. A
    directory part is dropped, whatever it holds, and neither a
    separator nor an empty name is refused: an argument that ends with
    a separator is accepted as the empty name. *)
Theorem validate_filename_ignores_directory (dir name : string) :
  contains_sep name = false ->
  validate_filename config (dir +:+ "/" +:+ name)
    = validate_filename config name
  /\ validate_filename config (dir +:+ "/") = Ok "".
Proof.
  intros Hname. split.
  - unfold validate_filename.
    now rewrite (basename_append dir name Hname), (basename_plain name Hname).
  - unfold validate_filename.
    replace (dir +:+ "/") with (dir +:+ "/" +:+ "")
      by now rewrite (append_empty_r "/").
    rewrite (basename_append dir "" eq_refl). cbn.
    now destruct (MAX_FILENAME_LENGTH config).
Qed.

(** X3: in a sandbox without symbolic links, where [Path.resolve] is
    lexical, a path whose normalized form does not begin with a
    parent-directory segment is refused only for a NUL character in
    that form, with the [ValueError] of [Path.resolve]; otherwise it
    resolves, and to the sandbox root followed by clean names: such a
    result is the root or lies below it, component by component. *)
Theorem resolve_secure_path_stays_below (path : string) :
  canonical (SANDBOX_ROOT config) = true ->
  hd_error (split (normpath path)) <> Some ".." ->
  (has_nul (normpath path) = true ->
   resolve_secure_path config path None = Raise (ValueError EmbeddedNull))
  /\ (has_nul (normpath path) = false ->
      exists names,
        canonical names = true
        /\ resolve_secure_path config path None
           = Ok (SANDBOX_ROOT config ++ names)
        /\ (SANDBOX_ROOT config <> [] ->
            inside (SANDBOX_ROOT config) (SANDBOX_ROOT config ++ names))).
Proof.
  intros Hroot Hhd.
  destruct (resolve_secure_path_unfold config path Hroot)
    as (k & names & Hn & Hk & Hnul & Hspec).
  assert (k = 0%nat) as -> by (destruct k; [reflexivity|]; now destruct Hhd; apply Hk).
  destruct (Hspec _ eq_refl) as (_ & _ & Hr).
  rewrite Nat.sub_0_r, firstn_all in Hr.
  rewrite startswith_str_app, Hnul in Hr.
  split; intros Hz; rewrite Hz in Hr; [exact Hr|].
  exists names. split_and!; try done.
  - apply canonical_intro; [exact Hn|]. now rewrite Hnul.
  - intros Hne. destruct names as [|n names].
    + left. now rewrite List.app_nil_r.
    + right. unfold startswith, str.
      rewrite join_app by done. rewrite <- !append_assoc.
      rewrite append_assoc. apply prefix_append.
Qed.

End NameFacts.

Lemma validate_filename_returns_safe_name_witness :
  validate_filename default_config "docs/report.txt" = Ok "report.txt"
  /\ validate_filename default_config "report.txt" = Ok "report.txt".
Proof.
  split; [reflexivity|].
  apply (validate_filename_returns_safe_name default_config
           "docs/report.txt" "report.txt" eq_refl).
Defined.

Lemma validate_filename_ignores_directory_witness :
  validate_filename default_config ("a<b" +:+ "/" +:+ "CON")
    = Raise (ValueError BadFilename)
  /\ validate_filename default_config ("a<b" +:+ "/" +:+ "c.txt") = Ok "c.txt".
Proof.
  split.
  - etransitivity;
      [apply (validate_filename_ignores_directory default_config
                "a<b" "CON" eq_refl)|reflexivity].
  - etransitivity;
      [apply (validate_filename_ignores_directory default_config
                "a<b" "c.txt" eq_refl)|reflexivity].
Defined.

Lemma resolve_secure_path_stays_below_witness :
  exists names,
    resolve_secure_path default_config "/etc/../a/./b" None
    = Ok (["srv"; "sandbox"] ++ names).
Proof.
  destruct (resolve_secure_path_stays_below default_config "/etc/../a/./b"
              eq_refl ltac:(vm_compute; discriminate)) as [_ H].
  destruct (H eq_refl) as (names & _ & E & _).
  exists names. exact E.
Defined.
(** ** The lock manager: one path, the same path twice, the registry *)

Section LockFacts.

Import PosixPath LockManager.

Variable cwd : list string.
Hypothesis cwd_canonical : canonical cwd = true.

Context {W A : Type}.
Variable operation : W -> W * result A.

(** What [execute_locked_multi] does, by the keys that it could
    acquire ([acq]) and those that it could not ([rest]). *)
Lemma execute_locked_multi_spec (paths : list string) (st : state) (w : W) :
  exists acq rest st',
    sorted (map (_get_lock_key cwd) paths) = acq ++ rest
    /\ NoDup acq
    /\ (forall k, k ∈ acq -> locked st k = false)
    /\ (forall k, hd_error rest = Some k -> locked st k = true \/ k ∈ acq)
    /\ (forall k, locked st' k = locked st k)
    /\ events st' = events st ++ map Acquire acq ++ map Release (rev acq)
    /\ execute_locked_multi cwd operation paths st w
       = match rest with
         | [] => (st', (operation w).1, (operation w).2)
         | _ => (st', w, Raise TimeoutError)
         end.
Proof.
  set (keys := sorted (map (_get_lock_key cwd) paths)).
  assert (Hperm : keys ≡ₚ map (_get_lock_key cwd) paths)
    by apply merge_sort_Permutation.
  assert (Hkeys : Forall (fun k => _get_lock_key cwd k = k) keys).
  { apply List.Forall_forall. intros k Hin.
    apply list_elem_of_In in Hin. rewrite Hperm in Hin.
    apply list_elem_of_In, in_map_iff in Hin as (p & <- & _).
    now apply lock_key_idempotent. }
  destruct (acquire_each_spec cwd keys [] st Hkeys)
    as (acq & rest & st1 & Hsplit & E1 & Ev1 & L1 & Hnd & Hfree & Hhd).
  destruct (release_each_spec (rev acq) st1) as (st2 & E2 & Ev2 & L2).
  { apply NoDup_ListNoDup, List.NoDup_rev, NoDup_ListNoDup, Hnd. }
  { intros k Hin. rewrite L1, bool_decide_eq_true_2; [reflexivity|].
    apply list_elem_of_In. apply list_elem_of_In, in_rev in Hin.
    exact Hin. }
  exists acq, rest, st2. split_and!; try done.
  - intros k Hk. specialize (Hhd k Hk). rewrite L1 in Hhd.
    apply orb_true_iff in Hhd as [Hin|Hb]; [right|now left].
    now apply bool_decide_eq_true in Hin.
  - intros k. rewrite L2, L1.
    destruct (decide (k ∈ acq)) as [Hin|Hout].
    + rewrite (bool_decide_eq_true_2 (k ∈ rev acq)).
      * now rewrite (Hfree k Hin).
      * apply list_elem_of_In. rewrite <- in_rev. now apply list_elem_of_In.
    + rewrite (bool_decide_eq_false_2 (k ∈ rev acq)).
      * now rewrite (bool_decide_eq_false_2 (k ∈ acq)).
      * intros Hin. apply Hout. apply list_elem_of_In.
        apply list_elem_of_In, in_rev in Hin. exact Hin.
  - now rewrite Ev2, Ev1, <- List.app_assoc.
  - unfold execute_locked_multi. fold keys. rewrite E1. cbn [app].
    destruct rest as [|busy rest].
    + destruct (operation w) as [w' r]. now rewrite E2.
    + now rewrite E2.
Qed.


(** When [execute_locked_multi] gives up: two paths have the same key,
    or the lock of a path is held. *)
Lemma execute_locked_multi_timeout (paths : list string) (st : state) (w : W) :
  ~ NoDup (map (_get_lock_key cwd) paths)
  \/ (exists p, p ∈ paths /\ locked st (_get_lock_key cwd p) = true) ->
  exists st',
    execute_locked_multi cwd operation paths st w
      = (st', w, Raise TimeoutError)
    /\ forall k, locked st' k = locked st k.
Proof.
  intros Hwhy.
  destruct (execute_locked_multi_spec paths st w)
    as (acq & rest & st' & Hsplit & Hnd & Hfree & _ & L & _ & E).
  exists st'. split; [|exact L].
  destruct rest; [|exact E].
  rewrite List.app_nil_r in Hsplit. unfold sorted in Hsplit.
  destruct Hwhy as [Hdup|(p & Hp & Hbusy)].
  - destruct Hdup. rewrite <- Hsplit in Hnd.
    now rewrite merge_sort_Permutation in Hnd.
  - rewrite Hfree in Hbusy; [discriminate|].
    rewrite <- Hsplit, merge_sort_Permutation.
    apply list_elem_of_In, in_map. now apply list_elem_of_In.
Qed.


(** The same, the other way round: distinct keys whose locks are free
    are all acquired. *)
Lemma execute_locked_multi_free (paths : list string) (st : state) (w : W) :
  NoDup (map (_get_lock_key cwd) paths) ->
  (forall p, p ∈ paths -> locked st (_get_lock_key cwd p) = false) ->
  exists st',
    execute_locked_multi cwd operation paths st w
      = (st', (operation w).1, (operation w).2)
    /\ forall k, locked st' k = locked st k.
Proof.
  intros Hnd Hfree.
  destruct (execute_locked_multi_spec paths st w)
    as (acq & rest & st' & Hsplit & _ & _ & Hhd & L & _ & E).
  exists st'. split; [|exact L].
  destruct rest as [|busy rest]; [exact E|].
  assert (Hnd' : NoDup (acq ++ busy :: rest)).
  { rewrite <- Hsplit. unfold sorted. now rewrite merge_sort_Permutation. }
  assert (Hin : busy ∈ map (_get_lock_key cwd) paths).
  { rewrite <- (merge_sort_Permutation String.le). fold (sorted (map (_get_lock_key cwd) paths)).
    rewrite Hsplit. apply elem_of_app. right. left. }
  destruct (Hhd busy eq_refl) as [Hb|Hb].
  - apply list_elem_of_In, in_map_iff in Hin as (p & <- & Hp).
    rewrite Hfree in Hb; [discriminate|now apply list_elem_of_In].
  - apply NoDup_app in Hnd' as (_ & Hdis & _).
    destruct (Hdis busy Hb). left.
Qed.

End LockFacts.

Section RegistryFacts.

Import PosixPath LockManager.

Variable cwd : list string.

Context {W A : Type}.
Variable operation : W -> W * result A.







End RegistryFacts.



(** ** Directories *)

Section TreeFacts.

Lemma lookup_nonempty (fs : FS) l : l <> [] -> Fs.lookup fs l = fs !! l.
Proof. now destruct l. Qed.

Lemma is_prefix_spec a b : Fs.is_prefix a b = true <-> exists s, b = a ++ s.
Proof.
  revert b. induction a as [|x a IH]; intros b; cbn [Fs.is_prefix].
  - split; [eauto|reflexivity].
  - destruct b as [|y b].
    + split; [discriminate|]. intros (s & [=]).
    + rewrite andb_true_iff, String.eqb_eq, IH. split.
      * intros (-> & s & ->). eauto.
      * intros (s & [= -> ->]). eauto.
Qed.

Lemma is_prefix_app a s : Fs.is_prefix a (a ++ s) = true.
Proof. apply is_prefix_spec. eauto. Qed.

Lemma is_prefix_refl a : Fs.is_prefix a a = true.
Proof. apply is_prefix_spec. exists []. now rewrite List.app_nil_r. Qed.

Lemma is_child_spec p q : Tree.is_child p q = true <-> exists n, q = p ++ [n].
Proof.
  unfold Tree.is_child. rewrite andb_true_iff, is_prefix_spec, Nat.eqb_eq.
  split.
  - intros ((s & ->) & Hlen). rewrite length_app in Hlen.
    destruct s as [|n [|m s]]; cbn in Hlen; try lia. eauto.
  - intros (n & ->). split; [eauto|]. rewrite length_app. cbn. lia.
Qed.

(** The entries of a directory. *)
Lemma iterdir_spec (fs : FS) p q nd :
  (q, nd) ∈ Tree.iterdir fs p <-> (exists n, q = p ++ [n]) /\ fs !! q = Some nd.
Proof.
  unfold Tree.iterdir. rewrite list_elem_of_In, filter_In.
  rewrite <- list_elem_of_In, elem_of_map_to_list. cbn [fst].
  rewrite <- is_child_spec. tauto.
Qed.

Lemma iterdir_nil (fs : FS) p :
  Tree.iterdir fs p = [] <-> forall n, fs !! (p ++ [n]) = None.
Proof.
  split.
  - intros E n. destruct (fs !! (p ++ [n])) as [nd|] eqn:Hq; [|reflexivity].
    assert (H : (p ++ [n], nd) ∈ Tree.iterdir fs p)
      by (apply iterdir_spec; eauto).
    rewrite E in H. now apply elem_of_nil in H.
  - intros H. destruct (Tree.iterdir fs p) as [|[q nd] l] eqn:E;
      [reflexivity|].
    assert (Hin : (q, nd) ∈ Tree.iterdir fs p) by (rewrite E; left).
    apply iterdir_spec in Hin as ((n & ->) & Hq). now rewrite H in Hq.
Qed.

(** What [mkdir] with [parents=True] leaves. *)
Lemma mkdir_walk_new rest : forall fs prefix fs',
  Fs.mkdir_walk fs prefix rest = Ok fs' ->
  forall k, prefix ++ take k rest <> [] ->
    fs' !! (prefix ++ take k rest) = Some Dir.
Proof.
  induction rest as [|n rest IH]; intros fs prefix fs' Hw k Hne.
  - rewrite take_nil, List.app_nil_r in *.
    cbn [Fs.mkdir_walk] in Hw.
    destruct (Fs.lookup fs prefix) as [[c|]|]; [discriminate| |];
      injection Hw as <-; (destruct prefix; [congruence|]);
      apply lookup_insert_eq.
  - cbn [Fs.mkdir_walk] in Hw.
    assert (Hw' : exists fs0,
               Fs.mkdir_walk fs0 (prefix ++ [n]) rest = Ok fs'
               /\ (prefix <> [] -> fs0 !! prefix = Some Dir)).
    { destruct (Fs.lookup fs prefix) as [[c|]|]; [discriminate| |];
        (eexists; split; [exact Hw|]); intros Hp;
        (destruct prefix; [congruence|]); apply lookup_insert_eq. }
    destruct Hw' as (fs0 & Hw' & Hp).
    destruct k as [|k].
    + rewrite take_0, List.app_nil_r in *.
      pose proof (mkdir_walk_spec rest fs0 (prefix ++ [n]) fs' Hw' prefix)
        as [E|[E _]]; [|exact E].
      rewrite E. now apply Hp.
    + cbn [take]. replace (prefix ++ n :: take k rest)
        with ((prefix ++ [n]) ++ take k rest) by now rewrite <- List.app_assoc.
      apply (IH _ _ _ Hw'). now destruct prefix.
Qed.

Lemma mkdir_walk_old rest : forall fs prefix fs',
  Fs.mkdir_walk fs prefix rest = Ok fs' ->
  forall q, q = [] \/ (forall k, q <> prefix ++ take k rest) ->
    fs' !! q = fs !! q.
Proof.
  induction rest as [|n rest IH]; intros fs prefix fs' Hw q Hq;
    cbn [Fs.mkdir_walk] in Hw.
  - assert (Hne : prefix = [] \/ q <> prefix).
    { destruct Hq as [->|Hq]; [destruct prefix; auto|].
      right. specialize (Hq 0%nat). now rewrite List.app_nil_r in Hq. }
    destruct (Fs.lookup fs prefix) as [[c|]|]; [discriminate| |];
      injection Hw as <-; destruct Hne as [->|Hne]; try reflexivity;
      (destruct prefix; [reflexivity|]); now rewrite lookup_insert_ne.
  - assert (Hne : prefix = [] \/ q <> prefix).
    { destruct Hq as [->|Hq]; [destruct prefix; auto|].
      right. specialize (Hq 0%nat). now rewrite List.app_nil_r in Hq. }
    assert (Hq' : q = [] \/ (forall k, q <> (prefix ++ [n]) ++ take k rest)).
    { destruct Hq as [->|Hq]; [now left|]. right. intros k.
      rewrite <- List.app_assoc. apply (Hq (S k)). }
    destruct (Fs.lookup fs prefix) as [[c|]|]; [discriminate| |];
      rewrite (IH _ _ _ Hw q Hq'); destruct Hne as [->|Hne];
      try reflexivity;
      (destruct prefix; [reflexivity|]); now rewrite lookup_insert_ne.
Qed.

Lemma take_prefix_iff (q p : list string) :
  (exists k, q = take k p) <-> Fs.is_prefix q p = true.
Proof.
  rewrite is_prefix_spec. split.
  - intros (k & ->). exists (drop k p). now rewrite take_drop.
  - intros (s & ->). exists (length q). now rewrite take_app_length.
Qed.

Lemma mkdir_lookup fs p fs' :
  Fs.mkdir fs p = Ok fs' ->
  forall q,
    fs' !! q =
    if bool_decide (q <> []) && Fs.is_prefix q p then Some Dir else fs !! q.
Proof.
  intros H q. unfold Fs.mkdir in H.
  destruct (decide (q <> [])) as [Hq|Hq].
  - rewrite (bool_decide_eq_true_2 _ Hq). cbn [andb].
    destruct (Fs.is_prefix q p) eqn:Hp.
    + apply take_prefix_iff in Hp as (k & ->).
      now apply (mkdir_walk_new _ _ _ _ H k).
    + apply (mkdir_walk_old _ _ _ _ H). right. intros k E. cbn [app] in E.
      assert (Fs.is_prefix q p = true) by (apply take_prefix_iff; eauto).
      congruence.
  - rewrite (bool_decide_eq_false_2 _ Hq). cbn [andb].
    apply (mkdir_walk_old _ _ _ _ H). left.
    destruct q; [reflexivity|]. now destruct Hq.
Qed.

(** [mkdir] succeeds when no part of the path is a regular file. *)
Lemma mkdir_walk_ok rest : forall fs prefix,
  (forall k, Fs.is_file fs (prefix ++ take k rest) = false) ->
  exists fs', Fs.mkdir_walk fs prefix rest = Ok fs'.
Proof.
  induction rest as [|n rest IH]; intros fs prefix Hfile;
    cbn [Fs.mkdir_walk].
  - specialize (Hfile 0%nat). rewrite take_0, List.app_nil_r in Hfile.
    unfold Fs.is_file in Hfile.
    destruct (Fs.lookup fs prefix) as [[c|]|]; [discriminate|eauto|eauto].
  - pose proof (Hfile 0%nat) as H0. rewrite take_0, List.app_nil_r in H0.
    unfold Fs.is_file in H0.
    assert (Hnext : forall fs0 : FS,
               (forall q, q <> prefix -> Fs.lookup fs0 q = Fs.lookup fs q) ->
               exists fs', Fs.mkdir_walk fs0 (prefix ++ [n]) rest = Ok fs').
    { intros fs0 Hsame. apply IH. intros k.
      specialize (Hfile (S k)). cbn [take] in Hfile.
      rewrite <- List.app_assoc. cbn [app].
      unfold Fs.is_file in *. rewrite Hsame; [exact Hfile|].
      intros E. apply (f_equal length) in E.
      rewrite length_app in E. cbn in E. lia. }
    destruct (Fs.lookup fs prefix) as [[c|]|]; [discriminate| |].
    all: apply Hnext; intros q Hq; destruct prefix; [reflexivity|].
    all: destruct q; [reflexivity|]; cbn [Fs.lookup].
    all: now rewrite lookup_insert_ne.
Qed.

Lemma mkdir_ok fs p :
  (forall q, Fs.is_prefix q p = true -> Fs.is_file fs q = false) ->
  exists fs', Fs.mkdir fs p = Ok fs'.
Proof.
  intros H. apply mkdir_walk_ok. intros k. cbn [app]. apply H.
  apply take_prefix_iff. eauto.
Qed.

(** In a well-formed file system, what lies above an entry is a
    directory, and nothing lies below a path that does not exist. *)
Lemma well_formed_above fs p s nd :
  well_formed fs -> fs !! (p ++ s) = Some nd -> s <> [] ->
  Fs.is_dir fs p = true.
Proof.
  intros Hwf. revert nd. induction s as [|n s IH] using rev_ind;
    intros nd Hq Hs; [congruence|].
  destruct (Hwf _ _ Hq) as [_ Hpar]. unfold Fs.parent in Hpar.
  rewrite List.app_assoc, removelast_last in Hpar.
  destruct s as [|m s]; [now rewrite List.app_nil_r in Hpar|].
  unfold Fs.is_dir in Hpar.
  rewrite lookup_nonempty in Hpar by now destruct p.
  destruct (fs !! (p ++ m :: s)) as [[|]|] eqn:Hl; try discriminate.
  eapply IH; [reflexivity|discriminate].
Qed.

Lemma well_formed_below fs p q :
  well_formed fs -> Fs.exists_ fs p = false -> Fs.is_prefix p q = true ->
  fs !! q = None.
Proof.
  intros Hwf Hp Hq. apply is_prefix_spec in Hq as (s & ->).
  destruct (fs !! (p ++ s)) as [nd|] eqn:E; [|reflexivity].
  destruct s as [|n s].
  - rewrite List.app_nil_r in E. unfold Fs.exists_ in Hp.
    destruct p; [discriminate|]. cbn [Fs.lookup] in Hp. now rewrite E in Hp.
  - pose proof (well_formed_above fs p (n :: s) nd Hwf E ltac:(discriminate))
      as Hd.
    unfold Fs.exists_ in Hp. unfold Fs.is_dir in Hd.
    destruct (Fs.lookup fs p); discriminate.
Qed.

Lemma well_formed_ancestors fs p :
  well_formed fs -> Fs.exists_ fs p = true ->
  forall q, Fs.is_prefix q p = true -> q <> p -> Fs.is_dir fs q = true.
Proof.
  intros Hwf Hp q Hq Hne. apply is_prefix_spec in Hq as (s & ->).
  destruct s as [|n s]; [now rewrite List.app_nil_r in Hne|].
  unfold Fs.exists_ in Hp.
  rewrite lookup_nonempty in Hp by now destruct q.
  destruct (fs !! (q ++ n :: s)) as [nd|] eqn:E; [|discriminate].
  eapply well_formed_above; [exact Hwf|exact E|discriminate].
Qed.

(** The two conditions on a file system, as tests that compute. *)
Lemma well_formed_test (fs : FS) :
  bool_decide
    (map_Forall (fun (q : list string) (_ : node) =>
                   q <> [] /\ Fs.is_dir fs (Fs.parent q) = true) fs) = true ->
  well_formed fs.
Proof. intros H q nd Hq. apply bool_decide_eq_true in H. exact (H q nd Hq). Qed.

Lemma no_file_above_test (fs : FS) p :
  forallb (fun k => negb (Fs.is_file fs (take k p))) (seq 0 (S (length p)))
    = true ->
  forall q, Fs.is_prefix q p = true -> Fs.is_file fs q = false.
Proof.
  intros H q Hq. rewrite forallb_forall in H.
  apply is_prefix_spec in Hq as (s & ->).
  specialize (H (length q)). rewrite take_app_length in H.
  apply negb_true_iff, H, in_seq. rewrite length_app. lia.
Qed.

End TreeFacts.
(** ** Archives: what validation accepts, where entries go, what
       creation changes *)

Section ArchiveFacts.

Import PosixPath.

Variable config : Config.

(** X7: [validate_zip_file] accepts an archive exactly when it has at
    most [ZIP_MAX_FILES] entries, every entry passes
    [validate_zip_entry], and the declared uncompressed sizes sum to at
    most [ZIP_MAX_TOTAL_SIZE]; what it returns then is the number of
    entries and the sums of the declared uncompressed and compressed
    sizes. *)
Theorem validate_zip_file_accepts
    (fs : FS) (zip_path : list string) (infolist : list ZipInfo)
    (r : N * N * N) :
  open_zip fs zip_path = Ok infolist ->
  validate_zip_file config fs zip_path = Ok r <->
  r = (N.of_nat (length infolist),
       fold_right N.add 0%N (map file_size infolist),
       fold_right N.add 0%N (map compress_size infolist))
  /\ (N.of_nat (length infolist) <= ZIP_MAX_FILES config)%N
  /\ Forall (fun entry => validate_zip_entry config entry = Ok tt) infolist
  /\ (fold_right N.add 0%N (map file_size infolist)
      <= ZIP_MAX_TOTAL_SIZE config)%N.
Proof.
  intros Hopen. unfold validate_zip_file. rewrite Hopen. cbn.
  rewrite validate_entries_spec by lia. now rewrite !N.add_0_l.
Qed.

(** The names of an entry that passes the test of the names. *)
Lemma entry_names_plain entry :
  entry_is_absolute entry
  || existsb (String.eqb "..") (entry_parts entry) = false ->
  plain (entry_names entry) = true.
Proof.
  intros H. apply orb_false_iff in H as [Habs Hdd].
  unfold entry_parts in Hdd. rewrite Habs in Hdd. cbn [app] in Hdd.
  pose proof (segments_split_keep entry) as Hseg.
  fold (entry_names entry) in Hseg.
  unfold plain, segments in *.
  induction (entry_names entry) as [|n l IH]; [reflexivity|].
  cbn [forallb existsb] in Hseg, Hdd |- *.
  apply andb_true_iff in Hseg as [Hn Hl].
  apply orb_false_iff in Hdd as [Hd Hdd].
  rewrite IH by assumption. rewrite andb_true_r.
  unfold plain_name. unfold segment_name in Hn.
  apply andb_true_iff in Hn as [Hn Hs]. rewrite Hn, Hs.
  rewrite String.eqb_sym in Hd. now rewrite Hd.
Qed.

Section CreationFacts.

Variable deflated : content -> N.
Variable container_size : list ZipInfo -> N.

Lemma count_sources_missing fs source p sources :
  In source sources ->
  resolve_secure_path config source None = Ok p ->
  Fs.lookup fs p = None ->
  forall total_size file_count,
    exists e, count_sources config fs sources total_size file_count = Raise e.
Proof.
  intros Hin Hres Hnone.
  induction sources as [|s rest IH]; [destruct Hin|].
  intros t n. cbn [count_sources].
  destruct Hin as [->|Hin].
  - rewrite Hres. cbn. rewrite Hnone. eauto.
  - destruct (resolve_secure_path config s None) as [q|e]; cbn; [|eauto].
    destruct (Fs.lookup fs q) as [[c|]|]; [now apply IH| |eauto].
    destruct (count_tree config _ t n) as [[t' n']|e]; cbn; [|eauto].
    now apply IH.
Qed.

(** X9: [safe_create_zip] with a source that is neither a regular file
    nor a directory writes no archive: the call raises, whatever the
    other sources are and wherever the missing one stands, and the
    file system is as before. When nothing before the missing source
    fails, the error is that of a source not found. *)
Theorem safe_create_zip_missing_source
    (sources : list string) (destination source : string)
    (p : list string) (fs : FS) :
  In source sources ->
  resolve_secure_path config source None = Ok p ->
  Fs.lookup fs p = None ->
  (exists e,
      safe_create_zip config deflated container_size sources destination fs
      = (fs, Raise e))
  /\ forall dest_path name rest,
       resolve_secure_path config destination None = Ok dest_path ->
       validate_filename config (Fs.name dest_path) = Ok name ->
       sources = source :: rest ->
       safe_create_zip config deflated container_size sources destination fs
       = (fs, Raise (ArchiveSecurityError SourceNotFound)).
Proof.
  intros Hin Hres Hnone. split.
  - unfold safe_create_zip.
    destruct (resolve_secure_path config destination None); [|eauto].
    destruct (validate_filename config _); [|eauto].
    destruct (count_sources_missing fs source p sources Hin Hres Hnone
                0%N 0%N) as (e & ->). eauto.
  - intros dest_path name rest Hd Hv ->. unfold safe_create_zip.
    rewrite Hd, Hv. cbn [count_sources]. rewrite Hres. cbn.
    now rewrite Hnone.
Qed.

(** A call of [safe_create_zip] that returns. *)
Lemma safe_create_zip_returns
    (sources : list string) (destination : string) (fs fs' : FS)
    (result_path : list string) :
  safe_create_zip config deflated container_size sources destination fs
    = (fs', Ok result_path) ->
  resolve_secure_path config destination None = Ok result_path
  /\ result_path <> []
  /\ exists members,
       write_sources config deflated
         (<[result_path := File (Binary 0 None)]> fs) sources = Ok members
       /\ fs' = <[result_path := File (Binary (container_size members)
                                              (Some members))]> fs.
Proof.
  unfold safe_create_zip.
  destruct (resolve_secure_path config destination None) as [dest_path|];
    [|discriminate].
  destruct (validate_filename config _); [|discriminate].
  destruct (count_sources config fs sources 0 0); [|discriminate].
  destruct (Fs.open_w fs dest_path (Binary 0 None)) as [fs1|e] eqn:Ho; cbn.
  2:{ destruct (Fs.exists_ fs dest_path); [|discriminate].
      destruct (Fs.unlink fs dest_path); discriminate. }
  destruct (write_sources config deflated fs1 sources) as [members|e] eqn:Hw;
    cbn.
  2:{ destruct (Fs.exists_ fs dest_path); [|discriminate].
      destruct (Fs.unlink fs dest_path); discriminate. }
  intros [= <- <-].
  assert (Hne : dest_path <> []).
  { intros ->. unfold Fs.open_w in Ho. rewrite andb_comm in Ho.
    discriminate. }
  apply open_w_insert in Ho as ->. rewrite insert_insert_eq.
  split_and!; [reflexivity|exact Hne|]. eauto.
Qed.


End CreationFacts.

End ArchiveFacts.
(** ** Archives: where extraction writes *)

Section ConfinementFacts.

Import PosixPath.

Variable config : Config.
Hypothesis root_canonical : canonical (SANDBOX_ROOT config) = true.

Lemma resolve_secure_path_prefix path p :
  resolve_secure_path config path None = Ok p ->
  startswith (str p) (str (SANDBOX_ROOT config)) = true.
Proof.
  unfold resolve_secure_path. cbv zeta.
  destruct (_ || _); [discriminate|].
  rewrite (resolve_canonical _ root_canonical).
  destruct (startswith _ _) eqn:E; [|discriminate].
  now intros [= <-].
Qed.

Lemma confined_refl w : confined (SANDBOX_ROOT config) w w.
Proof.
  split; [|now left]. exists []. now rewrite List.app_nil_r.
Qed.

Lemma confined_trans w1 w2 w3 :
  confined (SANDBOX_ROOT config) w1 w2 ->
  confined (SANDBOX_ROOT config) w2 w3 ->
  confined (SANDBOX_ROOT config) w1 w3.
Proof.
  intros [(i1 & E1 & F1) H1] [(i2 & E2 & F2) H2]. split.
  - exists (i1 ++ i2). rewrite E2, E1, <- List.app_assoc.
    split; [reflexivity|]. now apply Forall_app.
  - intros p c Hp. destruct (H2 p c Hp) as [Hp2|]; [|now right].
    now apply H1.
Qed.

Lemma confined_mkdir w p fs :
  Fs.mkdir (files w) p = Ok fs ->
  confined (SANDBOX_ROOT config) w (with_files w fs).
Proof.
  intros H. split.
  - exists []. now rewrite List.app_nil_r.
  - intros q c Hq. left. cbn [files with_files] in Hq.
    exact (mkdir_new_files _ _ _ _ _ H Hq).
Qed.

Lemma confined_write w fs p n z total :
  confined (SANDBOX_ROOT config) w (with_files w fs) ->
  startswith (str p) (str (SANDBOX_ROOT config)) = true ->
  confined (SANDBOX_ROOT config) w
    {| files := <[p := File (Binary n z)]> fs;
       written := written w ++ [(p, total)] |}.
Proof.
  intros [_ Hfs] Hp. split.
  - exists [(p, total)]. split; [reflexivity|]. now constructor.
  - intros q c. cbn [files].
    destruct (decide (p = q)) as [<-|Hne].
    + rewrite lookup_insert_eq. intros [= <-]. now right.
    + rewrite lookup_insert_ne by assumption. apply Hfs.
Qed.

Lemma extract_entry_confined infolist dest_path entry w :
  canonical dest_path = true ->
  startswith (str dest_path) (str (SANDBOX_ROOT config)) = true ->
  confined (SANDBOX_ROOT config) w
    (extract_entry config infolist dest_path (resolve dest_path) entry w).1.
Proof.
  intros Hcan Hdest. unfold extract_entry.
  destruct (entry_is_absolute entry || _) eqn:Hname; [apply confined_refl|].
  pose proof (entry_names_plain entry Hname) as Hnames.
  rewrite (resolve_plain (dest_path ++ _))
    by (rewrite plain_app, (canonical_plain _ Hcan), Hnames; reflexivity).
  assert (Hfull : startswith (str (dest_path ++ entry_names entry))
                             (str (SANDBOX_ROOT config)) = true).
  { unfold startswith in *. eapply prefix_trans; [exact Hdest|].
    apply startswith_str_app. }
  destruct (negb _); [apply confined_refl|].
  destruct (getinfo infolist entry) as [entry_info|]; [|apply confined_refl].
  destruct (validate_zip_entry config entry_info); [|apply confined_refl].
  destruct (Names.endswith entry "/").
  { destruct (Fs.mkdir _ _) eqn:E; [|apply confined_refl].
    exact (confined_mkdir _ _ _ E). }
  destruct (Fs.mkdir _ _) as [fs|] eqn:E; [|apply confined_refl].
  pose proof (confined_mkdir _ _ _ E) as Hmk.
  destruct (Fs.open_w _ _ _) as [fs2|] eqn:Eopen; [|exact Hmk].
  apply open_w_insert in Eopen as ->.
  destruct (copy_chunks _ _ _) as [total r].
  destruct r as [[]|e]; cbn [fst]; rewrite insert_insert_eq;
    now apply confined_write.
Qed.

Lemma extract_entries_confined nested infolist dest_path :
  canonical dest_path = true ->
  startswith (str dest_path) (str (SANDBOX_ROOT config)) = true ->
  (forall z d w, confined (SANDBOX_ROOT config) w (nested z d w).1) ->
  forall namelist w extracted,
    confined (SANDBOX_ROOT config) w
      (extract_entries config nested infolist dest_path (resolve dest_path)
         namelist w extracted).1.
Proof.
  intros Hcan Hdest Hnested.
  induction namelist as [|entry rest IH]; intros w extracted;
    cbn [extract_entries].
  { apply confined_refl. }
  pose proof (extract_entry_confined infolist dest_path entry w Hcan Hdest)
    as H1.
  destruct (extract_entry _ _ _ _ _ _) as [w1 [[p|]|e]]; cbn [fst] in *.
  - destruct (Names.endswith _ _).
    + pose proof (Hnested p
        (str (joinpath (Fs.parent p) (stem (Fs.name p)))) w1) as H2.
      destruct (nested _ _ _) as [w2 [more|e]]; cbn [fst] in *.
      * eapply confined_trans; [|apply IH].
        eapply confined_trans; eassumption.
      * eapply confined_trans; eassumption.
    + eapply confined_trans; [eassumption|apply IH].
  - eapply confined_trans; [eassumption|apply IH].
  - exact H1.
Qed.

Lemma safe_extract_zip_depth_confined max_depth :
  forall zip_path destination w,
    confined (SANDBOX_ROOT config) w
      (safe_extract_zip_depth config max_depth zip_path destination w).1.
Proof.
  induction max_depth as [|d IH]; intros zip_path destination w;
    cbn [safe_extract_zip_depth].
  { apply confined_refl. }
  destruct (validate_zip_file _ _ _); [|apply confined_refl].
  destruct (resolve_secure_path _ _ _) as [dest_path|] eqn:Hres;
    [|apply confined_refl].
  destruct (Fs.mkdir _ _) as [fs|] eqn:E; [|apply confined_refl].
  pose proof (confined_mkdir _ _ _ E) as Hmk.
  destruct (open_zip _ _) as [infolist|]; [|exact Hmk].
  eapply confined_trans; [exact Hmk|].
  apply extract_entries_confined; try assumption.
  - exact (resolve_secure_path_canonical _ _ _ root_canonical Hres).
  - exact (resolve_secure_path_prefix _ _ Hres).
Qed.

(** X11: whatever names and nested archives an archive holds,
    [safe_extract_zip] creates and changes regular files only at paths
    whose string starts with the string of the sandbox root, and hands
    bytes to such files only. This is the containment that
    [resolve_secure_path] tests, kept through every level of nested
    extraction; a directory may be created above when the destination
    or the root does not exist yet. *)
Theorem safe_extract_zip_confined
    (zip_path : list string) (destination : string) (max_depth : option Z)
    (w : world) :
  confined (SANDBOX_ROOT config) w
    (safe_extract_zip config zip_path destination max_depth w).1.
Proof. apply safe_extract_zip_depth_confined. Qed.

End ConfinementFacts.

Lemma safe_extract_zip_confined_witness :
  let zip_path := ["srv"; "sandbox"; "in.zip"] in
  let w :=
    mkWorld {[ zip_path :=
                 File (Binary 200 (Some [mkZipInfo "a/b.txt" 5 5 5 None])) ]}
            [] in
  confined (SANDBOX_ROOT default_config) w
    (safe_extract_zip default_config zip_path "out" None w).1
  /\ written (safe_extract_zip default_config zip_path "out" None w).1
     = [(["srv"; "sandbox"; "out"; "a"; "b.txt"], 5%N)].
Proof.
  intros zip_path w. split.
  - apply (safe_extract_zip_confined default_config eq_refl).
  - vm_compute. reflexivity.
Defined.
(** ** [FileManager]: files *)

Section ManagerFacts.

Import PosixPath LockManager.

Variable config : Config.
Hypothesis root_canonical : canonical (SANDBOX_ROOT config) = true.

Variable MAX_FILE_SIZE : N.
Variable DB : Type.
Variable find_user : Z -> DB -> bool.
Variable record_create : string -> string -> N -> Z -> DB -> DB * FileRecord.
Variable record_delete : string -> Z -> DB -> DB.
Variables JsonValue Element : Type.
Variable json_loads : string -> option JsonValue.
Variable json_dumps : JsonValue -> option nat -> string.
Variable xml_fromstring : string -> option Element.
Variable xml_tostring : Element -> string.

(** The key of the lock of a resolved path is its string. *)
Lemma lock_key_str p : canonical p = true -> _get_lock_key [] (str p) = str p.
Proof.
  intros Hp. unfold _get_lock_key.
  now rewrite joinpath_str, resolve_canonical by auto using canonical_plain.
Qed.

Lemma str_inj p q :
  canonical p = true -> canonical q = true -> str p = str q -> p = q.
Proof.
  intros Hp Hq E.
  rewrite <- (joinpath_str [] p (canonical_plain _ Hp)),
    <- (joinpath_str [] q (canonical_plain _ Hq)).
  now rewrite E.
Qed.

(** An operation under the lock of one resolved path. *)
Lemma run_locked_spec {W A} (operation : W -> W * outcome A) p st w :
  canonical p = true ->
  exists st',
    (forall k, locked st' k = locked st k)
    /\ run_locked operation p st w
       = if locked st (str p)
         then (st', w, Failed (Core TimeoutError))
         else (st', (operation w).1, (operation w).2).
Proof.
  intros Hp. unfold run_locked.
  destruct (execute_locked_spec (as_value operation) [] (str p) st w)
    as (st' & L & E).
  rewrite (lock_key_str p Hp) in E.
  exists st'. split; [exact L|].
  destruct (locked st (str p)); rewrite E; [reflexivity|].
  unfold as_value. now destruct (operation w).
Qed.

(** An operation under the locks of two resolved paths. *)
Lemma run_locked_multi_pair {W A} (operation : W -> W * outcome A)
      p q st w :
  canonical p = true -> canonical q = true ->
  exists st',
    (forall k, locked st' k = locked st k)
    /\ run_locked_multi operation [p; q] st w
       = if bool_decide (p = q) || locked st (str p) || locked st (str q)
         then (st', w, Failed (Core TimeoutError))
         else (st', (operation w).1, (operation w).2).
Proof.
  intros Hp Hq. unfold run_locked_multi. cbn [map].
  destruct (bool_decide (p = q) || locked st (str p) || locked st (str q))
    eqn:Hwhy.
  - destruct (execute_locked_multi_timeout [] eq_refl (as_value operation)
                [str p; str q] st w) as (st' & E & L).
    { cbn [map]. rewrite !lock_key_str by assumption.
      apply orb_true_iff in Hwhy as [Hwhy|Hwhy];
        [apply orb_true_iff in Hwhy as [Hwhy|Hwhy]|].
      - left. apply bool_decide_eq_true in Hwhy as ->.
        intros H. apply NoDup_cons in H as [H _]. apply H. left.
      - right. exists (str p). rewrite lock_key_str by assumption.
        split; [left|assumption].
      - right. exists (str q). rewrite lock_key_str by assumption.
        split; [right; left|assumption]. }
    exists st'. split; [exact L|]. now rewrite E.
  - apply orb_false_iff in Hwhy as [Hwhy Hlq].
    apply orb_false_iff in Hwhy as [Hne Hlp].
    apply bool_decide_eq_false in Hne.
    destruct (execute_locked_multi_free [] eq_refl (as_value operation)
                [str p; str q] st w) as (st' & E & L).
    { cbn [map]. rewrite !lock_key_str by assumption.
      apply NoDup_cons. split; [|apply NoDup_singleton].
      intros H. apply list_elem_of_singleton in H.
      apply Hne. now apply str_inj. }
    { intros k Hk. apply elem_of_cons in Hk as [->|Hk];
        [|apply list_elem_of_singleton in Hk as ->];
        now rewrite lock_key_str. }
    exists st'. split; [exact L|]. rewrite E.
    unfold as_value. now destruct (operation w).
Qed.

Lemma exists_nonempty (fs : FS) p : Fs.exists_ fs p = false -> p <> [].
Proof. now intros H ->. Qed.

Lemma is_prefix_parent q p :
  Fs.is_prefix q (Fs.parent p) = true -> Fs.is_prefix q p = true.
Proof.
  intros H. apply is_prefix_spec in H as (s & E). apply is_prefix_spec.
  destruct p as [|x p] using rev_ind.
  - exists []. destruct q; [reflexivity|discriminate].
  - unfold Fs.parent in E. rewrite removelast_last in E.
    exists (s ++ [x]). now rewrite E, List.app_assoc.
Qed.

Lemma is_prefix_length q p : Fs.is_prefix q p = true -> (length q <= length p)%nat.
Proof.
  intros H. apply is_prefix_spec in H as (s & ->). rewrite length_app. lia.
Qed.

Lemma parent_length p : p <> [] -> length (Fs.parent p) = (length p - 1)%nat.
Proof.
  intros H. destruct p as [|x p] using rev_ind; [congruence|].
  unfold Fs.parent. rewrite removelast_last, length_app. cbn. lia.
Qed.

(** The directories that [mkdir] makes above a new path leave the path
    itself free, with a directory above it. *)
Lemma mkdir_parent fs p fs1 :
  p <> [] -> Fs.mkdir fs (Fs.parent p) = Ok fs1 ->
  Fs.is_dir fs1 (Fs.parent p) = true /\ fs1 !! p = fs !! p.
Proof.
  intros Hne Hm. split.
  - unfold Fs.is_dir. destruct (Fs.parent p) eqn:E; [reflexivity|].
    rewrite <- E in *. rewrite lookup_nonempty by (rewrite E; discriminate).
    rewrite (mkdir_lookup _ _ _ Hm), is_prefix_refl.
    rewrite bool_decide_eq_true_2 by (rewrite E; discriminate). reflexivity.
  - rewrite (mkdir_lookup _ _ _ Hm).
    destruct (Fs.is_prefix p (Fs.parent p)) eqn:Hp.
    + apply is_prefix_length in Hp. rewrite parent_length in Hp by assumption.
      destruct p; [congruence|]. cbn in Hp. lia.
    + now rewrite andb_false_r.
Qed.

(** [_create] of [create_file] on a path that is free, below which no
    regular file stands for a directory. *)
Lemma _create_file_runs relative_path content user_id p fs db :
  Fs.exists_ fs p = false ->
  (forall q, Fs.is_prefix q p = true -> Fs.is_file fs q = false) ->
  exists fs1,
    Fs.mkdir fs (Fs.parent p) = Ok fs1
    /\ let stored :=
         record_create relative_path (Fs.name p)
           (N.of_nat (String.length content)) user_id db in
       _create_file DB find_user record_create no_faults relative_path
         content user_id p (fs, db)
       = if find_user user_id db
         then ((<[p := File (Text content)]> fs1, stored.1), Done stored.2)
         else ((<[p := File (Text content)]> fs1, db),
               Failed (ValueErrorOf UserNotFound)).
Proof.
  intros Hfree Hfiles.
  pose proof (exists_nonempty fs p Hfree) as Hne.
  destruct (mkdir_ok fs (Fs.parent p)) as (fs1 & Hm).
  { intros q Hq. apply Hfiles. now apply is_prefix_parent. }
  exists fs1. split; [exact Hm|]. intros stored.
  destruct (mkdir_parent fs p fs1 Hne Hm) as [Hdir Hsame].
  unfold _create_file. rewrite Hfree, Hm.
  unfold write_text, Fs.open_w. cbn [write_fault_of no_faults].
  rewrite Hdir.
  assert (Hnd : Fs.is_dir fs1 p = false).
  { unfold Fs.is_dir. rewrite lookup_nonempty, Hsame by assumption.
    unfold Fs.exists_ in Hfree. rewrite lookup_nonempty in Hfree by assumption.
    now destruct (fs !! p). }
  rewrite Hnd. cbn [negb andb stat_fails db_fails no_faults].
  unfold stat_size. rewrite lookup_nonempty, lookup_insert_eq by assumption.
  cbn [st_size]. fold stored.
  destruct (find_user user_id db); cbn [negb]; [|reflexivity].
  now destruct stored.
Qed.

(** X12: a file that [create_file] has made is read back by
    [read_file] in text mode. On a path that is free, in a file
    system where no regular file stands for a directory of the path,
    with a known user and a lock that is free, [create_file] returns
    the record that the metadata store has added, leaves the locks as
    they were, makes the directories above the path and nothing else
    beside the file, which holds the content as given; [read_file] in
    a format that is neither [json] nor [xml] then returns the content
    with every carriage return, alone or before a line feed, read as a
    line feed: the content itself when it holds no carriage return. *)
Theorem create_file_then_read
    (relative_path content format_type : string) (user_id : Z)
    (st : state) (fs : FS) (db : DB) (full_path : list string)
    (name : string) :
  resolve_secure_path config relative_path None = Ok full_path ->
  validate_filename config (Fs.name full_path) = Ok name ->
  (N.of_nat (String.length content) <= MAX_UPLOAD_SIZE config)%N ->
  (N.of_nat (String.length content) <= MAX_FILE_SIZE)%N ->
  locked st (str full_path) = false ->
  Fs.exists_ fs full_path = false ->
  (forall q, Fs.is_prefix q full_path = true -> Fs.is_file fs q = false) ->
  find_user user_id db = true ->
  format_type <> "json" -> format_type <> "xml" ->
  let out :=
    create_file config DB find_user record_create no_faults
      relative_path user_id content st (fs, db) in
  let stored :=
    record_create relative_path (Fs.name full_path)
      (N.of_nat (String.length content)) user_id db in
  out.2 = Done stored.2
  /\ out.1.2.2 = stored.1
  /\ (forall k, locked out.1.1 k = locked st k)
  /\ Fs.lookup out.1.2.1 full_path = Some (File (Text content))
  /\ (forall q, Fs.is_prefix q full_path = false -> out.1.2.1 !! q = fs !! q)
  /\ read_file config MAX_FILE_SIZE JsonValue Element json_loads json_dumps
       xml_fromstring xml_tostring no_faults relative_path format_type
       out.1.2.1
     = Done (Names.universal_newlines content)
  /\ (Names.has_char [Names.CR] content = false ->
      read_file config MAX_FILE_SIZE JsonValue Element json_loads json_dumps
        xml_fromstring xml_tostring no_faults relative_path format_type
        out.1.2.1
      = Done content).
Proof.
  intros Hres Hname Hup Hmax Hlock Hfree Hfiles Huser Hj Hx out stored.
  pose proof (resolve_secure_path_canonical _ _ _ root_canonical Hres) as Hcan.
  pose proof (exists_nonempty fs full_path Hfree) as Hne.
  destruct (_create_file_runs relative_path content user_id full_path fs db
              Hfree Hfiles) as (fs1 & Hm & Hrun).
  cbn zeta in Hrun. rewrite Huser in Hrun. fold stored in Hrun.
  destruct (run_locked_spec
              (_create_file DB find_user record_create no_faults
                 relative_path content user_id full_path)
              full_path st (fs, db) Hcan) as (st' & L & E).
  rewrite Hlock, Hrun in E. cbn [fst snd] in E.
  assert (Hout : out = (st', (<[full_path := File (Text content)]> fs1,
                              stored.1), Done stored.2)).
  { unfold out, create_file. rewrite Hres, Hname.
    apply N.ltb_ge in Hup. now rewrite Hup. }
  rewrite Hout. cbn [fst snd].
  assert (Hfile : Fs.lookup (<[full_path := File (Text content)]> fs1)
                    full_path = Some (File (Text content))).
  { rewrite lookup_nonempty by assumption. apply lookup_insert_eq. }
  assert (Hread :
    read_file config MAX_FILE_SIZE JsonValue Element json_loads json_dumps
      xml_fromstring xml_tostring no_faults relative_path format_type
      (<[full_path := File (Text content)]> fs1)
    = Done (Names.universal_newlines content)).
  { unfold read_file. rewrite Hres.
    unfold Fs.exists_, Fs.is_file, stat_size, read_text.
    rewrite Hfile. cbn [negb orb stat_fails read_fails no_faults st_size].
    apply N.ltb_ge in Hmax. rewrite Hmax.
    apply String.eqb_neq in Hj, Hx. now rewrite Hj, Hx. }
  split_and!; try done.
  - intros q Hq.
    assert (q <> full_path)
      by (intros ->; now rewrite is_prefix_refl in Hq).
    rewrite lookup_insert_ne by congruence.
    rewrite (mkdir_lookup _ _ _ Hm).
    destruct (Fs.is_prefix q (Fs.parent full_path)) eqn:Hp;
      [|now rewrite andb_false_r].
    apply is_prefix_parent in Hp. congruence.
  - intros Hplain. rewrite Hread. now rewrite universal_newlines_plain.
Qed.

(** X13: [create_file] on a path where something exists, a file or a
    directory, raises [FileExistsError] and leaves the file system,
    the metadata store and the locks as they were. *)
Theorem create_file_refuses_existing
    (env : faults) (relative_path content : string) (user_id : Z)
    (st : state) (fs : FS) (db : DB) (full_path : list string)
    (name : string) :
  resolve_secure_path config relative_path None = Ok full_path ->
  validate_filename config (Fs.name full_path) = Ok name ->
  (N.of_nat (String.length content) <= MAX_UPLOAD_SIZE config)%N ->
  locked st (str full_path) = false ->
  Fs.exists_ fs full_path = true ->
  exists st',
    create_file config DB find_user record_create env
      relative_path user_id content st (fs, db)
    = (st', (fs, db), Failed FileExistsError)
    /\ forall k, locked st' k = locked st k.
Proof.
  intros Hres Hname Hup Hlock Hex.
  pose proof (resolve_secure_path_canonical _ _ _ root_canonical Hres) as Hcan.
  destruct (run_locked_spec
              (_create_file DB find_user record_create env
                 relative_path content user_id full_path)
              full_path st (fs, db) Hcan) as (st' & L & E).
  exists st'. split; [|exact L].
  unfold create_file. rewrite Hres, Hname.
  apply N.ltb_ge in Hup. rewrite Hup, E, Hlock.
  unfold _create_file. now rewrite Hex.
Qed.

(** X14: [create_file] is not undone when it fails late. With a user
    id that the metadata store does not know, the call raises
    [ValueError] and adds no record, but the file has been written
    and stays: the path holds the content, and a second call with any
    user raises [FileExistsError]. *)
Theorem create_file_unknown_user_leaves_file
    (relative_path content : string) (user_id : Z)
    (st : state) (fs : FS) (db : DB) (full_path : list string)
    (name : string) :
  resolve_secure_path config relative_path None = Ok full_path ->
  validate_filename config (Fs.name full_path) = Ok name ->
  (N.of_nat (String.length content) <= MAX_UPLOAD_SIZE config)%N ->
  locked st (str full_path) = false ->
  Fs.exists_ fs full_path = false ->
  (forall q, Fs.is_prefix q full_path = true -> Fs.is_file fs q = false) ->
  find_user user_id db = false ->
  let out :=
    create_file config DB find_user record_create no_faults
      relative_path user_id content st (fs, db) in
  out.2 = Failed (ValueErrorOf UserNotFound)
  /\ out.1.2.2 = db
  /\ Fs.lookup out.1.2.1 full_path = Some (File (Text content))
  /\ forall other,
       (create_file config DB find_user record_create no_faults
          relative_path other content out.1.1 out.1.2).2
       = Failed FileExistsError.
Proof.
  intros Hres Hname Hup Hlock Hfree Hfiles Huser out.
  pose proof (resolve_secure_path_canonical _ _ _ root_canonical Hres) as Hcan.
  pose proof (exists_nonempty fs full_path Hfree) as Hne.
  destruct (_create_file_runs relative_path content user_id full_path fs db
              Hfree Hfiles) as (fs1 & Hm & Hrun).
  cbn zeta in Hrun. rewrite Huser in Hrun.
  destruct (run_locked_spec
              (_create_file DB find_user record_create no_faults
                 relative_path content user_id full_path)
              full_path st (fs, db) Hcan) as (st' & L & E).
  rewrite Hlock, Hrun in E. cbn [fst snd] in E.
  assert (Hout : out = (st', (<[full_path := File (Text content)]> fs1, db),
                        Failed (ValueErrorOf UserNotFound))).
  { unfold out, create_file. rewrite Hres, Hname.
    apply N.ltb_ge in Hup. now rewrite Hup. }
  rewrite Hout. cbn [fst snd].
  assert (Hfile : Fs.lookup (<[full_path := File (Text content)]> fs1)
                    full_path = Some (File (Text content))).
  { rewrite lookup_nonempty by assumption. apply lookup_insert_eq. }
  split_and!; try done.
  intros other.
  destruct (run_locked_spec
              (_create_file DB find_user record_create no_faults
                 relative_path content other full_path)
              full_path st' (<[full_path := File (Text content)]> fs1, db)
              Hcan) as (st2 & _ & E2).
  unfold create_file. rewrite Hres, Hname.
  apply N.ltb_ge in Hup. rewrite Hup, E2, L, Hlock.
  unfold _create_file, Fs.exists_. now rewrite Hfile.
Qed.

(** X15: [delete_file] removes a regular file and nothing else, after
    which [read_file] does not find it; on a path that holds no
    regular file, a directory included, it raises [FileNotFoundError]
    and changes nothing. *)
Theorem delete_file_removes_the_file_only
    (env : faults) (relative_path : string) (user_id : Z)
    (st : state) (fs : FS) (db : DB) (full_path : list string) :
  resolve_secure_path config relative_path None = Ok full_path ->
  locked st (str full_path) = false ->
  let out :=
    delete_file config DB record_delete env relative_path user_id st (fs, db) in
  (forall k, locked out.1.1 k = locked st k)
  /\ (Fs.is_file fs full_path = true -> db_fails env = false ->
      out.2 = Done tt
      /\ out.1.2.1 = delete full_path fs
      /\ out.1.2.2 = record_delete relative_path user_id db
      /\ forall format_type,
           read_file config MAX_FILE_SIZE JsonValue Element json_loads
             json_dumps xml_fromstring xml_tostring env relative_path
             format_type out.1.2.1
           = Failed (Core FileNotFoundError))
  /\ (Fs.is_file fs full_path = false ->
      out.2 = Failed (Core FileNotFoundError) /\ out.1.2 = (fs, db)).
Proof.
  intros Hres Hlock out.
  pose proof (resolve_secure_path_canonical _ _ _ root_canonical Hres) as Hcan.
  destruct (run_locked_spec
              (_delete_file DB record_delete env relative_path user_id
                 full_path)
              full_path st (fs, db) Hcan) as (st' & L & E).
  rewrite Hlock in E.
  assert (Hout : out = (st', (_delete_file DB record_delete env relative_path
                                user_id full_path (fs, db)).1,
                        (_delete_file DB record_delete env relative_path
                           user_id full_path (fs, db)).2)).
  { unfold out, delete_file. now rewrite Hres. }
  rewrite Hout. cbn [fst snd]. unfold _delete_file.
  split_and!; [exact L| |].
  - intros Hfile Hdb. unfold Fs.is_file in Hfile.
    unfold Fs.exists_, Fs.is_file, Fs.unlink.
    destruct (Fs.lookup fs full_path) as [[c|]|] eqn:Hl; try discriminate.
    cbn [negb orb]. rewrite Hdb. cbn [fst snd].
    split_and!; try reflexivity.
    intros format_type. unfold read_file. rewrite Hres.
    assert (Hne : full_path <> []) by (intros ->; discriminate).
    unfold Fs.exists_. rewrite lookup_nonempty, lookup_delete_eq by assumption.
    reflexivity.
  - intros Hfile. unfold Fs.exists_. unfold Fs.is_file in Hfile |- *.
    destruct (Fs.lookup fs full_path) as [[c|]|]; try discriminate;
      now cbn.
Qed.

End ManagerFacts.

(** ** [FileManager]: directories *)

Section DirectoryFacts.

Import PosixPath LockManager.

Variable config : Config.
Hypothesis root_canonical : canonical (SANDBOX_ROOT config) = true.


Lemma rmtree_lookup (fs : FS) p q :
  filter (fun kv : list string * node => ~ Fs.is_prefix p kv.1) fs !! q
  = if Fs.is_prefix p q then None else fs !! q.
Proof.
  destruct (Fs.is_prefix p q) eqn:Hp.
  - apply map_lookup_filter_None_2. right. intros x _ H. apply H.
    cbn [fst]. now rewrite Hp.
  - destruct (fs !! q) as [x|] eqn:Hq.
    + apply map_lookup_filter_Some_2; [exact Hq|]. cbn [fst]. now rewrite Hp.
    + apply map_lookup_filter_None_2. now left.
Qed.

(** [mkdir] of a new path below an existing directory adds that path
    only. *)
Lemma mkdir_new_directory fs p :
  well_formed fs -> Fs.exists_ fs p = false ->
  Fs.is_dir fs (Fs.parent p) = true ->
  Fs.mkdir fs p = Ok (<[p := Dir]> fs).
Proof.
  intros Hwf Hfree Hpar.
  pose proof (exists_nonempty fs p Hfree) as Hne.
  assert (Hanc : forall q, Fs.is_prefix q p = true -> q <> p ->
                           Fs.is_dir fs q = true).
  { intros q Hq Hqp.
    destruct (decide (q = Fs.parent p)) as [->|Hqq]; [exact Hpar|].
    apply (well_formed_ancestors fs (Fs.parent p) Hwf).
    - unfold Fs.exists_. unfold Fs.is_dir in Hpar.
      now destruct (Fs.lookup fs (Fs.parent p)).
    - apply is_prefix_spec in Hq as (s & E). apply is_prefix_spec.
      destruct s as [|n s] using rev_ind;
        [rewrite List.app_nil_r in E; congruence|].
      exists s. rewrite E, List.app_assoc. unfold Fs.parent.
      now rewrite removelast_last.
    - exact Hqq. }
  destruct (mkdir_ok fs p) as (fs1 & Hm).
  { intros q Hq. destruct (decide (q = p)) as [->|Hqp].
    - unfold Fs.exists_ in Hfree. unfold Fs.is_file.
      now destruct (Fs.lookup fs p).
    - specialize (Hanc q Hq Hqp). unfold Fs.is_dir in Hanc.
      unfold Fs.is_file. now destruct (Fs.lookup fs q) as [[|]|]. }
  rewrite Hm. f_equal. apply map_eq. intros q.
  rewrite (mkdir_lookup _ _ _ Hm).
  destruct (decide (q = p)) as [->|Hqp].
  - rewrite lookup_insert_eq, is_prefix_refl.
    now rewrite bool_decide_eq_true_2.
  - rewrite lookup_insert_ne by congruence.
    destruct (decide (q <> [])) as [Hq|Hq]; [|now rewrite bool_decide_eq_false_2].
    rewrite bool_decide_eq_true_2 by assumption. cbn [andb].
    destruct (Fs.is_prefix q p) eqn:Hp; [|reflexivity].
    specialize (Hanc q Hp Hqp). unfold Fs.is_dir in Hanc.
    rewrite lookup_nonempty in Hanc by assumption.
    now destruct (fs !! q) as [[|]|].
Qed.

(** X16: a directory made by [create_directory] below an existing
    directory is removed again by [delete_directory] without
    [recursive], and the file system is then exactly as it was. *)
Theorem create_directory_then_delete
    (relative_path : string) (st : state) (fs : FS)
    (full_path : list string) :
  resolve_secure_path config relative_path None = Ok full_path ->
  locked st (str full_path) = false ->
  well_formed fs ->
  Fs.exists_ fs full_path = false ->
  Fs.is_dir fs (Fs.parent full_path) = true ->
  let made := create_directory config relative_path st fs in
  let gone := delete_directory config relative_path false made.1.1 made.1.2 in
  made.2 = Done tt
  /\ made.1.2 = <[full_path := Dir]> fs
  /\ Fs.is_dir made.1.2 full_path = true
  /\ gone.2 = Done tt
  /\ gone.1.2 = fs
  /\ forall k, locked gone.1.1 k = locked st k.
Proof.
  intros Hres Hlock Hwf Hfree Hpar made gone.
  pose proof (resolve_secure_path_canonical _ _ _ root_canonical Hres) as Hcan.
  pose proof (exists_nonempty fs full_path Hfree) as Hne.
  pose proof (mkdir_new_directory fs full_path Hwf Hfree Hpar) as Hm.
  destruct (run_locked_spec (_create_directory full_path)
              full_path st fs Hcan) as (st1 & L1 & E1).
  rewrite Hlock in E1. unfold _create_directory in E1.
  rewrite Hfree, Hm in E1. cbn [fst snd] in E1.
  assert (Hmade : made = (st1, <[full_path := Dir]> fs, Done tt)).
  { unfold made, create_directory. now rewrite Hres. }
  assert (Hdir : Fs.lookup (<[full_path := Dir]> fs) full_path = Some Dir).
  { rewrite lookup_nonempty by assumption. apply lookup_insert_eq. }
  assert (Hempty : Tree.iterdir (<[full_path := Dir]> fs) full_path = []).
  { apply iterdir_nil. intros n.
    rewrite lookup_insert_ne
      by (intros E; apply (f_equal length) in E; rewrite length_app in E;
          cbn in E; lia).
    apply (well_formed_below fs full_path); [assumption..|].
    apply is_prefix_app. }
  destruct (run_locked_spec (_delete_directory false full_path)
              full_path st1 (<[full_path := Dir]> fs) Hcan)
    as (st2 & L2 & E2).
  rewrite L1, Hlock in E2. unfold _delete_directory in E2.
  unfold Fs.exists_, Fs.is_dir in E2. rewrite Hdir in E2.
  cbn [negb orb] in E2. rewrite Hempty in E2.
  unfold Tree.rmdir in E2. rewrite Hempty, lookup_insert_eq in E2.
  assert (Hfs : delete full_path (<[full_path := Dir]> fs) = fs).
  { apply delete_insert_id. unfold Fs.exists_ in Hfree.
    rewrite lookup_nonempty in Hfree by assumption.
    now destruct (fs !! full_path). }
  destruct full_path as [|x l]; [congruence|].
  rewrite Hfs in E2. cbn [fst snd] in E2.
  assert (Hgone : gone = (st2, fs, Done tt)).
  { unfold gone. rewrite Hmade. cbn [fst snd].
    unfold delete_directory. now rewrite Hres. }
  rewrite Hmade, Hgone. cbn [fst snd]. unfold Fs.is_dir. rewrite Hdir.
  split_and!; try reflexivity. intros k. now rewrite L2, L1.
Qed.

(** X17: [delete_directory] without [recursive] removes a directory
    only when it has no entry. With an entry, of whatever kind, it
    raises [ValueError] and the file system stays as it was. *)
Theorem delete_directory_refuses_nonempty
    (relative_path : string) (st : state) (fs : FS)
    (full_path : list string) (n : string) (nd : node) :
  resolve_secure_path config relative_path None = Ok full_path ->
  locked st (str full_path) = false ->
  Fs.is_dir fs full_path = true ->
  fs !! (full_path ++ [n]) = Some nd ->
  exists st',
    delete_directory config relative_path false st fs
    = (st', fs, Failed (ValueErrorOf DirectoryNotEmpty))
    /\ forall k, locked st' k = locked st k.
Proof.
  intros Hres Hlock Hdir Hchild.
  pose proof (resolve_secure_path_canonical _ _ _ root_canonical Hres) as Hcan.
  destruct (run_locked_spec (_delete_directory false full_path)
              full_path st fs Hcan) as (st' & L & E).
  exists st'. split; [|exact L].
  unfold delete_directory. rewrite Hres, E, Hlock.
  unfold _delete_directory, Fs.exists_. rewrite Hdir.
  unfold Fs.is_dir in Hdir.
  destruct (Fs.lookup fs full_path); [|discriminate]. cbn [negb orb].
  destruct (Tree.iterdir fs full_path) eqn:Hit; [|reflexivity].
  pose proof (proj1 (iterdir_nil fs full_path) Hit n) as Hnone. congruence.
Qed.

(** X18: [delete_directory] with [recursive] removes the directory
    and all that lies below it, and nothing else: a path holds
    afterwards what it held, unless the directory is a prefix of it. *)
Theorem delete_directory_recursive_removes_subtree
    (relative_path : string) (st : state) (fs : FS)
    (full_path : list string) :
  resolve_secure_path config relative_path None = Ok full_path ->
  locked st (str full_path) = false ->
  Fs.is_dir fs full_path = true ->
  full_path <> [] ->
  let out := delete_directory config relative_path true st fs in
  out.2 = Done tt
  /\ (forall q,
        out.1.2 !! q = if Fs.is_prefix full_path q then None else fs !! q)
  /\ forall k, locked out.1.1 k = locked st k.
Proof.
  intros Hres Hlock Hdir Hne out.
  pose proof (resolve_secure_path_canonical _ _ _ root_canonical Hres) as Hcan.
  destruct (run_locked_spec (_delete_directory true full_path)
              full_path st fs Hcan) as (st' & L & E).
  rewrite Hlock in E. unfold _delete_directory, Fs.exists_ in E.
  rewrite Hdir in E. unfold Tree.rmtree in E. unfold Fs.is_dir in Hdir.
  destruct (Fs.lookup fs full_path) as [[|]|]; try discriminate.
  cbn [negb orb] in E.
  destruct full_path as [|x l] eqn:Ep; [congruence|]. rewrite <- Ep in *.
  cbn [fst snd] in E.
  assert (Hout : out = (st', filter (fun kv : list string * node =>
                                       ~ Fs.is_prefix full_path kv.1) fs,
                        Done tt)).
  { unfold out, delete_directory. rewrite Hres. rewrite Ep. rewrite Ep in E.
    exact E. }
  rewrite Hout. cbn [fst snd]. split_and!; [reflexivity| |exact L].
  intros q. apply rmtree_lookup.
Qed.

Lemma resolve_dot :
  resolve_secure_path config "." None = Ok (SANDBOX_ROOT config).
Proof.
  pose proof (resolve_secure_path_below config [] "." root_canonical
                eq_refl eq_refl eq_refl) as H.
  now rewrite List.app_nil_r in H.
Qed.

(** X19: the sandbox root is a directory like any other for
    [delete_directory]: the path ["."] resolves to the root, and with
    [recursive] the call removes the root and all that the sandbox
    holds. Afterwards nothing exists at or below the root, and
    [list_directory] of ["."] raises [NotADirectoryError]. *)
Theorem delete_directory_dot_removes_sandbox_root (st : state) (fs : FS) :
  SANDBOX_ROOT config <> [] ->
  Fs.is_dir fs (SANDBOX_ROOT config) = true ->
  locked st (str (SANDBOX_ROOT config)) = false ->
  let out := delete_directory config "." true st fs in
  out.2 = Done tt
  /\ (forall q, Fs.is_prefix (SANDBOX_ROOT config) q = true ->
                out.1.2 !! q = None)
  /\ Fs.exists_ out.1.2 (SANDBOX_ROOT config) = false
  /\ list_directory config "." out.1.2 = Failed NotADirectoryError.
Proof.
  intros Hne Hdir Hlock out.
  destruct (run_locked_spec (_delete_directory true (SANDBOX_ROOT config))
              (SANDBOX_ROOT config) st fs root_canonical) as (st' & L & E).
  assert (Hop : _delete_directory true (SANDBOX_ROOT config) fs
                = (filter (fun kv : list string * node =>
                             ~ Fs.is_prefix (SANDBOX_ROOT config) kv.1) fs,
                   Done tt)).
  { unfold _delete_directory, Fs.exists_. rewrite Hdir.
    unfold Tree.rmtree. unfold Fs.is_dir in Hdir.
    destruct (Fs.lookup fs (SANDBOX_ROOT config)) as [[|]|];
      try discriminate.
    cbn [negb orb]. now destruct (SANDBOX_ROOT config). }
  rewrite Hlock, Hop in E. cbn [fst snd] in E.
  assert (Hout : out = (st', filter (fun kv : list string * node =>
                                       ~ Fs.is_prefix (SANDBOX_ROOT config) kv.1)
                                    fs,
                        Done tt)).
  { unfold out, delete_directory. now rewrite resolve_dot. }
  rewrite Hout. cbn [fst snd].
  assert (Hgone : forall q, Fs.is_prefix (SANDBOX_ROOT config) q = true ->
            filter (fun kv : list string * node =>
                      ~ Fs.is_prefix (SANDBOX_ROOT config) kv.1) fs !! q
            = None).
  { intros q Hq. now rewrite rmtree_lookup, Hq. }
  assert (Hex : Fs.exists_
                  (filter (fun kv : list string * node =>
                             ~ Fs.is_prefix (SANDBOX_ROOT config) kv.1) fs)
                  (SANDBOX_ROOT config) = false).
  { unfold Fs.exists_. rewrite lookup_nonempty by assumption.
    now rewrite Hgone by apply is_prefix_refl. }
  split_and!; try done.
  unfold list_directory. now rewrite resolve_dot, Hex.
Qed.

(** ** [FileManager]: listing *)

Lemma item_le_total : Total item_le.
Proof.
  intros x y. unfold item_le, key_leb.
  destruct (sort_key x) as [[] a], (sort_key y) as [[] b]; cbn; auto;
    destruct (String.leb_total a b) as [->| ->]; cbn; auto.
Qed.

Lemma item_le_trans : Transitive item_le.
Proof.
  intros x y z. unfold item_le, key_leb.
  destruct (sort_key x) as [[] a], (sort_key y) as [[] b],
    (sort_key z) as [[] c]; cbn; auto; try tauto;
    apply (transitivity (R := String.le)).
Qed.

(** X20: [list_directory] returns one element for each entry of the
    directory and no other, a directory without size and a regular
    file with its size, in the order of [sorted]: every directory
    stands before every file, and within each kind the names
    ascend. *)
Theorem list_directory_sorted
    (relative_path : string) (fs : FS) (full_path : list string) :
  resolve_secure_path config relative_path None = Ok full_path ->
  Fs.is_dir fs full_path = true ->
  exists items,
    list_directory config relative_path fs = Done items
    /\ items ≡ₚ map list_item (Tree.iterdir fs full_path)
    /\ (forall x,
          x ∈ items <->
          exists n nd,
            fs !! (full_path ++ [n]) = Some nd
            /\ x = list_item (full_path ++ [n], nd)
            /\ item_name x = n)
    /\ forall i j x y,
         (i < j)%nat -> items !! i = Some x -> items !! j = Some y ->
         (item_type y = "directory" -> item_type x = "directory")
         /\ (item_type x = item_type y ->
             String.le (item_name x) (item_name y)).
Proof.
  intros Hres Hdir.
  exists (merge_sort item_le (map list_item (Tree.iterdir fs full_path))).
  split_and!.
  - unfold list_directory, Fs.exists_. rewrite Hres, Hdir.
    unfold Fs.is_dir in Hdir. now destruct (Fs.lookup fs full_path).
  - apply merge_sort_Permutation.
  - intros x. rewrite merge_sort_Permutation, list_elem_of_In, in_map_iff.
    split.
    + intros ([q nd] & <- & Hin).
      apply list_elem_of_In, iterdir_spec in Hin as ((n & ->) & Hq).
      exists n, nd. split_and!; try done.
      unfold list_item, Fs.name. cbn [fst snd].
      destruct nd; cbn [item_name]; apply last_snoc.
    + intros (n & nd & Hq & -> & _). exists (full_path ++ [n], nd).
      split; [reflexivity|]. apply list_elem_of_In, iterdir_spec. eauto.
  - intros i j x y Hij Hx Hy.
    pose proof (@StronglySorted_merge_sort _ item_le _
                  item_le_trans item_le_total
                  (map list_item (Tree.iterdir fs full_path))) as Hs.
    assert (Hle : item_le x y).
    { revert Hs i j Hij Hx Hy. generalize (merge_sort item_le
        (map list_item (Tree.iterdir fs full_path))).
      intros l Hs. induction Hs as [|a l Hs IH Hall]; intros i j Hij Hx Hy.
      - now rewrite lookup_nil in Hx.
      - destruct j as [|j]; [lia|]. cbn in Hy. destruct i as [|i].
        + cbn in Hx. injection Hx as ->.
          rewrite List.Forall_forall in Hall. apply Hall.
          apply list_elem_of_In. eapply list_elem_of_lookup_2. exact Hy.
        + cbn in Hx. apply (IH i j); [lia|assumption..]. }
    unfold item_le, key_leb, sort_key in Hle. cbn [fst snd] in Hle.
    split.
    + intros Ey. rewrite Ey in Hle. cbn in Hle.
      destruct (String.eqb (item_type x) "directory") eqn:Ex;
        [now apply String.eqb_eq in Ex|]. cbn in Hle. now destruct Hle.
    + intros E. rewrite E in Hle. now rewrite eqb_reflx in Hle.
Qed.

(** ** [FileManager]: moving *)

(** X21: [move] of a path onto itself always raises [TimeoutError].
    Source and destination resolve to the same path, so
    [execute_locked_multi] is asked for the same lock twice; [_move],
    which would raise [FileExistsError] or [FileNotFoundError], is
    never run, and nothing changes. *)
Theorem move_onto_itself
    (source destination : string) (st : state) (fs : FS)
    (path : list string) :
  resolve_secure_path config source None = Ok path ->
  resolve_secure_path config destination None = Ok path ->
  exists st',
    move config source destination st fs
    = (st', fs, Failed (Core TimeoutError))
    /\ forall k, locked st' k = locked st k.
Proof.
  intros Hs Hd.
  pose proof (resolve_secure_path_canonical _ _ _ root_canonical Hs) as Hcan.
  destruct (run_locked_multi_pair (_move path path) path path st fs
              Hcan Hcan) as (st' & L & E).
  exists st'. split; [|exact L].
  unfold move. rewrite Hs, Hd, E.
  now rewrite bool_decide_eq_true_2.
Qed.

(** X22: [move] tests its two paths before it touches anything. With
    both locks free, a source that does not exist gives
    [FileNotFoundError]; a source that exists and a destination,
    other than the source, where something exists gives
    [FileExistsError]: nothing is overwritten, and the file system is
    as before. *)
Theorem move_refuses_missing_source_and_existing_destination
    (source destination : string) (st : state) (fs : FS)
    (source_path dest_path : list string) :
  resolve_secure_path config source None = Ok source_path ->
  resolve_secure_path config destination None = Ok dest_path ->
  source_path <> dest_path ->
  locked st (str source_path) = false ->
  locked st (str dest_path) = false ->
  let out := move config source destination st fs in
  (forall k, locked out.1.1 k = locked st k)
  /\ (Fs.exists_ fs source_path = false ->
      out.2 = Failed (Core FileNotFoundError) /\ out.1.2 = fs)
  /\ (Fs.exists_ fs source_path = true -> Fs.exists_ fs dest_path = true ->
      out.2 = Failed FileExistsError /\ out.1.2 = fs).
Proof.
  intros Hs Hd Hne Hls Hld out.
  pose proof (resolve_secure_path_canonical _ _ _ root_canonical Hs) as Hcs.
  pose proof (resolve_secure_path_canonical _ _ _ root_canonical Hd) as Hcd.
  destruct (run_locked_multi_pair (_move source_path dest_path)
              source_path dest_path st fs Hcs Hcd) as (st' & L & E).
  rewrite Hls, Hld, bool_decide_eq_false_2 in E by assumption.
  cbn [orb] in E.
  assert (Hout : out = (st', (_move source_path dest_path fs).1,
                        (_move source_path dest_path fs).2)).
  { unfold out, move. now rewrite Hs, Hd. }
  rewrite Hout. cbn [fst snd]. unfold _move.
  split_and!; [exact L| |].
  - intros ->. now cbn.
  - intros -> ->. now cbn.
Qed.

End DirectoryFacts.
(** ** [FileManager]: what a move leaves *)

Section MoveFacts.

Import PosixPath LockManager.

Lemma is_prefix_drop a b :
  Fs.is_prefix a b = true -> b = a ++ drop (length a) b.
Proof.
  intros H. apply is_prefix_spec in H as (s & ->).
  now rewrite drop_app_length.
Qed.

(** The entries of a renamed tree, by the entries before. *)
Lemma rename_entries (fs : FS) src dst r v :
  (forall k, is_Some (fs !! k) -> Fs.is_prefix dst k = false) ->
  Tree.rename fs src dst !! r = Some v
  <-> exists k, Tree.rename_key src dst k = r /\ fs !! k = Some v.
Proof.
  intros Hfree. unfold Tree.rename.
  rewrite <- elem_of_list_to_map.
  - rewrite list_elem_of_In, in_map_iff. split.
    + intros ([k x] & [= <- <-] & Hin). exists k. split; [reflexivity|].
      now apply elem_of_map_to_list, list_elem_of_In.
    + intros (k & <- & Hk). exists (k, v). split; [reflexivity|].
      now apply list_elem_of_In, elem_of_map_to_list.
  - rewrite <- list_fmap_compose.
    change (fst ∘ _) with (Tree.rename_key src dst ∘ (fst : list string * node -> _)).
    rewrite list_fmap_compose.
    apply NoDup_fmap_2_strong; [|apply NoDup_fst_map_to_list].
    intros k1 k2 H1 H2 E.
    apply list_elem_of_fmap in H1 as ([k1' x1] & -> & H1).
    apply list_elem_of_fmap in H2 as ([k2' x2] & -> & H2).
    apply elem_of_map_to_list in H1, H2. cbn [fst] in *.
    unfold Tree.rename_key in E.
    destruct (Fs.is_prefix src k1') eqn:P1, (Fs.is_prefix src k2') eqn:P2.
    + apply app_inv_head in E.
      rewrite (is_prefix_drop _ _ P1), (is_prefix_drop _ _ P2). now rewrite E.
    + pose proof (Hfree k2' ltac:(eauto)) as Hc.
      rewrite <- E, is_prefix_app in Hc. discriminate.
    + pose proof (Hfree k1' ltac:(eauto)) as Hc.
      rewrite E, is_prefix_app in Hc. discriminate.
    + exact E.
Qed.

Lemma rename_lookup (fs : FS) src dst r :
  (forall k, is_Some (fs !! k) -> Fs.is_prefix dst k = false) ->
  Fs.is_prefix src dst = false ->
  Tree.rename fs src dst !! r
  = if Fs.is_prefix dst r then fs !! (src ++ drop (length dst) r)
    else if Fs.is_prefix src r then None else fs !! r.
Proof.
  intros Hfree Hout. apply option_eq. intros v.
  rewrite (rename_entries fs src dst r v Hfree).
  destruct (Fs.is_prefix dst r) eqn:Pd.
  - split.
    + intros (k & <- & Hk). unfold Tree.rename_key in *.
      destruct (Fs.is_prefix src k) eqn:Ps.
      * rewrite drop_app_length. now rewrite <- (is_prefix_drop _ _ Ps).
      * rewrite (Hfree k) in Pd by eauto. discriminate.
    + intros Hk. exists (src ++ drop (length dst) r). split; [|exact Hk].
      unfold Tree.rename_key. rewrite is_prefix_app, drop_app_length.
      symmetry. now apply is_prefix_drop.
  - destruct (Fs.is_prefix src r) eqn:Ps.
    + split; [|discriminate]. intros (k & <- & Hk).
      unfold Tree.rename_key in *.
      destruct (Fs.is_prefix src k) eqn:Psk.
      * rewrite is_prefix_app in Pd. discriminate.
      * congruence.
    + split.
      * intros (k & <- & Hk). unfold Tree.rename_key in *.
        destruct (Fs.is_prefix src k) eqn:Psk; [|exact Hk].
        rewrite is_prefix_app in Pd. discriminate.
      * intros Hk. exists r. split; [|exact Hk].
        unfold Tree.rename_key. now rewrite Ps.
Qed.

Variable config : Config.
Hypothesis root_canonical : canonical (SANDBOX_ROOT config) = true.

(** X23: [move] takes the source, with all that lies below it, to the
    destination, makes the directories that the destination lacks
    above it, and leaves every other path as it was. The destination
    is free, no regular file stands for a directory above it, and it
    does not lie below the source. *)
Theorem move_relocates_subtree
    (source destination : string) (st : state) (fs : FS)
    (source_path dest_path : list string) :
  resolve_secure_path config source None = Ok source_path ->
  resolve_secure_path config destination None = Ok dest_path ->
  locked st (str source_path) = false ->
  locked st (str dest_path) = false ->
  well_formed fs ->
  Fs.exists_ fs source_path = true ->
  Fs.exists_ fs dest_path = false ->
  (forall q, Fs.is_prefix q dest_path = true -> Fs.is_file fs q = false) ->
  Fs.is_prefix source_path dest_path = false ->
  let out := move config source destination st fs in
  out.2 = Done tt
  /\ (forall k, locked out.1.1 k = locked st k)
  /\ forall r,
       out.1.2 !! r =
       if Fs.is_prefix dest_path r
       then fs !! (source_path ++ drop (length dest_path) r)
       else if Fs.is_prefix source_path r then None
       else if bool_decide (r <> []) && Fs.is_prefix r (Fs.parent dest_path)
       then Some Dir
       else fs !! r.
Proof.
  intros Hs Hd Hls Hld Hwf Hsrc Hdst Hfiles Hout out.
  pose proof (resolve_secure_path_canonical _ _ _ root_canonical Hs) as Hcs.
  pose proof (resolve_secure_path_canonical _ _ _ root_canonical Hd) as Hcd.
  pose proof (exists_nonempty fs dest_path Hdst) as Hne.
  assert (Hpq : source_path <> dest_path)
    by (intros E; rewrite E, is_prefix_refl in Hout; discriminate).
  destruct (mkdir_ok fs (Fs.parent dest_path)) as (fs1 & Hm).
  { intros q Hq. apply Hfiles. now apply is_prefix_parent. }
  destruct (mkdir_parent fs dest_path fs1 Hne Hm) as [Hdir _].
  assert (Hfree : forall k, is_Some (fs1 !! k) ->
                            Fs.is_prefix dest_path k = false).
  { intros k [x Hk]. destruct (Fs.is_prefix dest_path k) eqn:Hp;
      [|reflexivity].
    rewrite (mkdir_lookup _ _ _ Hm) in Hk.
    destruct (Fs.is_prefix k (Fs.parent dest_path)) eqn:Hkp.
    - apply is_prefix_length in Hkp, Hp.
      rewrite parent_length in Hkp by assumption.
      destruct dest_path; [congruence|]. cbn in Hkp, Hp. lia.
    - rewrite andb_false_r in Hk.
      now rewrite (well_formed_below fs dest_path k Hwf Hdst Hp) in Hk. }
  destruct (run_locked_multi_pair (_move source_path dest_path)
              source_path dest_path st fs Hcs Hcd) as (st' & L & E).
  rewrite Hls, Hld, bool_decide_eq_false_2 in E by assumption.
  cbn [orb] in E.
  assert (Hop : _move source_path dest_path fs
                = (Tree.rename fs1 source_path dest_path, Done tt)).
  { unfold _move. rewrite Hsrc, Hdst, Hm. cbn [negb].
    unfold Tree.move. now rewrite Hout, Hdir. }
  rewrite Hop in E. cbn [fst snd] in E.
  assert (Ho : out = (st', Tree.rename fs1 source_path dest_path, Done tt)).
  { unfold out, move. now rewrite Hs, Hd. }
  rewrite Ho. cbn [fst snd]. split_and!; [reflexivity|exact L|].
  intros r. rewrite (rename_lookup fs1 _ _ r Hfree Hout).
  destruct (Fs.is_prefix dest_path r) eqn:Pd.
  - rewrite (mkdir_lookup _ _ _ Hm).
    destruct (Fs.is_prefix (source_path ++ _) (Fs.parent dest_path)) eqn:Hp;
      [|now rewrite andb_false_r].
    apply is_prefix_parent, is_prefix_spec in Hp as (s & Hp).
    rewrite <- List.app_assoc in Hp.
    rewrite Hp, is_prefix_app in Hout. discriminate.
  - destruct (Fs.is_prefix source_path r); [reflexivity|].
    apply (mkdir_lookup _ _ _ Hm).
Qed.

End MoveFacts.
(** ** Archives: what extraction keeps, and the archives of
       [FileManager] *)

Section KeepFacts.

Import PosixPath.

Variable config : Config.

Lemma same_kind_refl nd : same_kind nd nd = true.
Proof. now destruct nd. Qed.

Lemma kept_refl fs : kept fs fs.
Proof. intros p nd H. exists nd. auto using same_kind_refl. Qed.

Lemma kept_trans fs1 fs2 fs3 : kept fs1 fs2 -> kept fs2 fs3 -> kept fs1 fs3.
Proof.
  intros H1 H2 p nd Hp.
  destruct (H1 p nd Hp) as (nd2 & Hp2 & K2).
  destruct (H2 p nd2 Hp2) as (nd3 & Hp3 & K3).
  exists nd3. split; [exact Hp3|]. now destruct nd, nd2, nd3.
Qed.

Lemma kept_mkdir fs p fs' : Fs.mkdir fs p = Ok fs' -> kept fs fs'.
Proof.
  intros Hm q nd Hq. destruct nd as [c|].
  - exists (File c). split; [|reflexivity].
    exact (mkdir_keeps_files _ _ _ _ _ Hm Hq).
  - exists Dir. split; [|reflexivity].
    rewrite (mkdir_lookup _ _ _ Hm). now destruct (_ && _).
Qed.

Lemma kept_open_w fs p c fs' c' :
  Fs.open_w fs p c = Ok fs' -> kept fs (<[p := File c']> fs').
Proof.
  intros Ho. unfold Fs.open_w in Ho.
  destruct (Fs.is_dir fs (Fs.parent p) && negb (Fs.is_dir fs p)) eqn:Hc;
    [|discriminate].
  injection Ho as <-. rewrite insert_insert_eq.
  apply andb_true_iff in Hc as [_ Hd]. apply negb_true_iff in Hd.
  intros q nd Hq. destruct (decide (p = q)) as [<-|Hne].
  - rewrite lookup_insert_eq. exists (File c'). split; [reflexivity|].
    assert (Hnp : p <> []) by (intros ->; discriminate).
    unfold Fs.is_dir in Hd. rewrite lookup_nonempty, Hq in Hd by assumption.
    now destruct nd.
  - rewrite lookup_insert_ne by assumption. exists nd.
    auto using same_kind_refl.
Qed.

Lemma extract_entry_kept infolist dest_path dest_resolved entry w :
  kept (files w)
    (files (extract_entry config infolist dest_path dest_resolved entry w).1).
Proof.
  unfold extract_entry.
  destruct (_ || _); [apply kept_refl|].
  destruct (negb _); [apply kept_refl|].
  destruct (getinfo infolist entry) as [entry_info|]; [|apply kept_refl].
  destruct (validate_zip_entry config entry_info); [|apply kept_refl].
  destruct (Names.endswith entry "/").
  { destruct (Fs.mkdir _ _) eqn:E; [|apply kept_refl].
    exact (kept_mkdir _ _ _ E). }
  destruct (Fs.mkdir _ _) as [fs|] eqn:E; [|apply kept_refl].
  pose proof (kept_mkdir _ _ _ E) as Hmk.
  destruct (Fs.open_w _ _ _) as [fs2|] eqn:Eopen; [|exact Hmk].
  destruct (copy_chunks _ _ _) as [total r].
  destruct r as [[]|e]; cbn [fst files];
    (eapply kept_trans; [exact Hmk|]); eapply kept_open_w; exact Eopen.
Qed.

Lemma extract_entries_kept nested infolist dest_path dest_resolved :
  (forall z d w, kept (files w) (files (nested z d w).1)) ->
  forall namelist w extracted,
    kept (files w)
      (files (extract_entries config nested infolist dest_path dest_resolved
                namelist w extracted).1).
Proof.
  intros Hnested.
  induction namelist as [|entry rest IH]; intros w extracted;
    cbn [extract_entries].
  { apply kept_refl. }
  pose proof (extract_entry_kept infolist dest_path dest_resolved entry w)
    as H1.
  destruct (extract_entry _ _ _ _ _ _) as [w1 [[p|]|e]]; cbn [fst] in *.
  - destruct (Names.endswith _ _).
    + pose proof (Hnested p
        (str (joinpath (Fs.parent p) (stem (Fs.name p)))) w1) as H2.
      destruct (nested _ _ _) as [w2 [more|e]]; cbn [fst] in *.
      * eapply kept_trans; [|apply IH].
        eapply kept_trans; eassumption.
      * eapply kept_trans; eassumption.
    + eapply kept_trans; [eassumption|apply IH].
  - eapply kept_trans; [eassumption|apply IH].
  - exact H1.
Qed.

Lemma safe_extract_zip_depth_kept max_depth :
  forall zip_path destination w,
    kept (files w)
      (files (safe_extract_zip_depth config max_depth zip_path destination
                w).1).
Proof.
  induction max_depth as [|d IH]; intros zip_path destination w;
    cbn [safe_extract_zip_depth].
  { apply kept_refl. }
  destruct (validate_zip_file _ _ _); [|apply kept_refl].
  destruct (resolve_secure_path _ _ _) as [dest_path|]; [|apply kept_refl].
  destruct (Fs.mkdir _ _) as [fs|] eqn:E; [|apply kept_refl].
  pose proof (kept_mkdir _ _ _ E) as Hmk.
  destruct (open_zip _ _) as [infolist|]; [|exact Hmk].
  eapply kept_trans; [exact Hmk|].
  exact (extract_entries_kept _ infolist dest_path _ IH
           (map filename infolist) (with_files w fs) []).
Qed.

(** X24: [safe_extract_zip] removes nothing and replaces no directory
    by a file nor a file by a directory: whether it returns or
    raises, every path that held a directory holds a directory
    afterwards, and every path that held a regular file holds a
    regular file. *)
Theorem safe_extract_zip_keeps_entries
    (zip_path : list string) (destination : string) (max_depth : option Z)
    (w : world) (p : list string) (nd : node) :
  files w !! p = Some nd ->
  exists nd',
    files (safe_extract_zip config zip_path destination max_depth w).1 !! p
      = Some nd'
    /\ same_kind nd nd' = true.
Proof. apply safe_extract_zip_depth_kept. Qed.

Hypothesis root_canonical : canonical (SANDBOX_ROOT config) = true.

Lemma refused_done {A} (r : result A) a : refused r = Done a -> r = Ok a.
Proof. destruct r as [|[]]; cbn; congruence. Qed.

Lemma mkdir_is_dir fs p fs' : Fs.mkdir fs p = Ok fs' -> Fs.is_dir fs' p = true.
Proof.
  intros Hm. unfold Fs.is_dir. destruct (decide (p = [])) as [->|Hne];
    [reflexivity|].
  rewrite lookup_nonempty, (mkdir_lookup _ _ _ Hm), is_prefix_refl by assumption.
  now rewrite bool_decide_eq_true_2.
Qed.

(** X25: [extract_zip] resolves its destination and hands the absolute
    path to [safe_extract_zip], which resolves that path again as a
    path relative to the sandbox: the archive is extracted into the
    sandbox root followed by the whole resolved destination. When
    the call returns, that directory exists. An archive that is
    missing gives [FileNotFoundError], and an [ArchiveSecurityError]
    never leaves the call: it becomes a [ValueError]. *)
Theorem extract_zip_resolves_destination_twice
    (archive_path destination : string) (w : world)
    (archive_full_path dest_full_path : list string) :
  resolve_secure_path config archive_path None = Ok archive_full_path ->
  resolve_secure_path config destination None = Ok dest_full_path ->
  let out := extract_zip config archive_path destination w in
  resolve_secure_path config (str dest_full_path) None
    = Ok (SANDBOX_ROOT config ++ dest_full_path)
  /\ (Fs.exists_ (files w) archive_full_path = false ->
      out = (w, Failed (Core FileNotFoundError)))
  /\ (forall extracted,
        out.2 = Done extracted ->
        Fs.is_dir (files out.1) (SANDBOX_ROOT config ++ dest_full_path) = true)
  /\ forall why, out.2 <> Failed (Core (ArchiveSecurityError why)).
Proof.
  intros Ha Hd out.
  pose proof (resolve_secure_path_canonical _ _ _ root_canonical Hd) as Hcan.
  pose proof (resolve_secure_path_str config dest_full_path root_canonical
                Hcan) as Hagain.
  unfold out, extract_zip. rewrite Ha, Hd.
  split_and!; [exact Hagain|now intros ->| |].
  - intros extracted.
    destruct (Fs.exists_ (files w) archive_full_path); [|discriminate].
    cbn [negb].
    destruct (safe_extract_zip _ _ _ _ _) as [w' r] eqn:Hrun. cbn [fst snd].
    intros Hdone. apply refused_done in Hdone as ->.
    unfold safe_extract_zip in Hrun.
    destruct (Z.to_nat (ZIP_MAX_RECURSION_DEPTH config)) as [|m];
      cbn [safe_extract_zip_depth] in Hrun; [discriminate|].
    destruct (validate_zip_file _ _ _); [|discriminate].
    rewrite Hagain in Hrun.
    destruct (Fs.mkdir _ _) as [fs|] eqn:Hm; [|discriminate].
    pose proof (mkdir_is_dir _ _ _ Hm) as Hdir.
    destruct (open_zip _ _) as [infolist|]; [|discriminate].
    pose proof (extract_entries_kept (safe_extract_zip_depth config m)
                  infolist (SANDBOX_ROOT config ++ dest_full_path)
                  (resolve (SANDBOX_ROOT config ++ dest_full_path))
                  (safe_extract_zip_depth_kept m)
                  (map filename infolist) (with_files w fs) []) as Hk.
    rewrite Hrun in Hk. cbn [fst files with_files] in Hk.
    unfold Fs.is_dir in *.
    destruct (decide (SANDBOX_ROOT config ++ dest_full_path = []))
      as [->|Hne]; [reflexivity|].
    rewrite lookup_nonempty in * by assumption.
    destruct (fs !! _) as [[|]|] eqn:Hl; try discriminate.
    destruct (Hk _ _ Hl) as (nd' & -> & K). now destruct nd'.
  - intros why.
    destruct (Fs.exists_ (files w) archive_full_path); [|discriminate].
    cbn [negb].
    destruct (safe_extract_zip _ _ _ _ _) as [w' [l|[]]]; cbn; discriminate.
Qed.

End KeepFacts.
Section ManagerArchiveFacts.

Import PosixPath LockManager.

Variable config : Config.
Hypothesis root_canonical : canonical (SANDBOX_ROOT config) = true.

Variable DB : Type.
Variable record_create : string -> string -> N -> Z -> DB -> DB * FileRecord.
Variable deflated : content -> N.
Variable container_size : list ZipInfo -> N.

(** X26: [create_zip] resolves the archive path and every source, and
    hands the absolute paths to [safe_create_zip], which resolves
    each of them again as a path relative to the sandbox. A source is
    therefore looked up at the sandbox root followed by its whole
    resolved path: when nothing is there, the call raises
    [ValueError] and writes nothing, whatever exists at the resolved
    path itself. An archive that is written lies at the sandbox root
    followed by the resolved archive path. *)
Theorem create_zip_resolves_paths_twice
    (env : faults) (archive_path source : string) (rest : list string)
    (user_id : Z) (fs : FS) (db : DB)
    (archive_full_path source_path : list string)
    (rest_paths : list (list string)) (name : string) :
  resolve_secure_path config archive_path None = Ok archive_full_path ->
  resolve_secure_path config source None = Ok source_path ->
  mapM (fun s => resolve_secure_path config s None) rest = Ok rest_paths ->
  validate_filename config
    (Fs.name (SANDBOX_ROOT config ++ archive_full_path)) = Ok name ->
  let out :=
    create_zip config DB record_create deflated container_size env
      archive_path (source :: rest) user_id (fs, db) in
  (Fs.lookup fs (SANDBOX_ROOT config ++ source_path) = None ->
   out = ((fs, db), Failed (ValueErrorOf (ArchiveRefused SourceNotFound))))
  /\ forall result_path,
       out.2 = Done result_path ->
       result_path = SANDBOX_ROOT config ++ archive_full_path
       /\ Fs.is_file out.1.1 result_path = true.
Proof.
  intros Ha Hs Hrest Hname out.
  pose proof (resolve_secure_path_canonical _ _ _ root_canonical Ha) as Hca.
  pose proof (resolve_secure_path_canonical _ _ _ root_canonical Hs) as Hcs.
  pose proof (resolve_secure_path_str config _ root_canonical Hca) as Ha2.
  pose proof (resolve_secure_path_str config _ root_canonical Hcs) as Hs2.
  assert (Hout : out =
    match safe_create_zip config deflated container_size
            (map str (source_path :: rest_paths)) (str archive_full_path) fs
    with
    | (fs', Raise e) => ((fs', db), refused (Raise e))
    | (fs', Ok result_path) =>
        if stat_fails env then ((fs', db), Failed (Core OSError))
        else if db_fails env then ((fs', db), Failed (Core OSError))
        else
          let (db', _) :=
            record_create archive_path (Fs.name result_path)
              (stat_size fs' result_path) user_id db in
          ((fs', db'), Done result_path)
    end).
  { unfold out, create_zip. rewrite Ha. cbn [mapM]. rewrite Hs. cbn.
    rewrite Hrest. cbn. reflexivity. }
  rewrite Hout. clear Hout out. split.
  - intros Hnone. unfold safe_create_zip.
    rewrite Ha2, Hname. cbn [map count_sources]. rewrite Hs2. cbn.
    now rewrite Hnone.
  - intros result_path.
    destruct (safe_create_zip _ _ _ _ _ _) as [fs' [rp|e]] eqn:Hrun.
    2:{ destruct e; discriminate. }
    apply safe_create_zip_returns in Hrun as (Hres & Hne & members & _ & ->).
    rewrite Ha2 in Hres. injection Hres as <-.
    destruct (stat_fails env); [discriminate|].
    destruct (db_fails env); [discriminate|].
    destruct (record_create _ _ _ _ _) as [db' record]. cbn [fst snd].
    intros [= <-]. split; [reflexivity|].
    unfold Fs.is_file. rewrite lookup_nonempty by assumption.
    now rewrite lookup_insert_eq.
Qed.

End ManagerArchiveFacts.
(** ** [FileManager]: writing, then reading; the constructor *)

Section WriteReadFacts.

Import PosixPath LockManager.

Variable config : Config.
Hypothesis root_canonical : canonical (SANDBOX_ROOT config) = true.

Variable MAX_FILE_SIZE : N.
Variable DB : Type.
Variable record_modify : string -> string -> N -> Z -> DB -> DB * FileRecord.
Variables JsonValue Element : Type.
Variable json_loads : string -> option JsonValue.
Variable json_dumps : JsonValue -> option nat -> string.
Variable xml_fromstring : string -> option Element.
Variable xml_tostring : Element -> string.

(** X27: what [write_file] has written, [read_file] reads in text
    mode. On a text file whose lock is free, [write_file] without
    failure puts the new content in the file, or with [append] the old
    content as read in text mode followed by the new one, and
    [read_file] in a format that is neither [json] nor [xml] then
    returns what the file holds with every carriage return, alone or
    before a line feed, read as a line feed: exactly what the file
    holds when that has no carriage return. *)
Theorem write_file_then_read
    (relative_path content format_type old : string) (user_id : Z)
    (append : bool) (st : state) (fs : FS) (db : DB)
    (full_path : list string) :
  resolve_secure_path config relative_path None = Ok full_path ->
  (N.of_nat (String.length content) <= MAX_UPLOAD_SIZE config)%N ->
  locked st (str full_path) = false ->
  Fs.lookup fs full_path = Some (File (Text old)) ->
  Fs.is_dir fs (Fs.parent full_path) = true ->
  Fs.is_dir fs (staging_path full_path) = false ->
  let data :=
    if append then Names.universal_newlines old +:+ content else content in
  (N.of_nat (String.length data) <= MAX_FILE_SIZE)%N ->
  format_type <> "json" -> format_type <> "xml" ->
  let out :=
    write_file config DB record_modify no_faults relative_path content
      user_id append st (fs, db) in
  (exists file_record, out.2 = Ok file_record)
  /\ Fs.lookup out.1.2.1 full_path = Some (File (Text data))
  /\ read_file config MAX_FILE_SIZE JsonValue Element json_loads json_dumps
       xml_fromstring xml_tostring no_faults relative_path format_type
       out.1.2.1
     = Done (Names.universal_newlines data)
  /\ (Names.has_char [Names.CR] data = false ->
      read_file config MAX_FILE_SIZE JsonValue Element json_loads json_dumps
        xml_fromstring xml_tostring no_faults relative_path format_type
        out.1.2.1
      = Done data).
Proof.
  intros Hres Hup Hlock Hfile Hpar Hstage data Hmax Hj Hx out.
  pose proof (resolve_secure_path_canonical _ _ _ root_canonical Hres) as Hcan.
  assert (Hne : full_path <> []) by (intros ->; discriminate).
  destruct (execute_locked_spec
              (_write DB record_modify no_faults relative_path content
                 user_id append full_path)
              [] (str full_path) st (fs, db)) as (st' & _ & E).
  rewrite (lock_key_str full_path Hcan), Hlock in E.
  rewrite (_write_ok DB record_modify relative_path content user_id append
             full_path fs db old) in E
    by auto using canonical_last.
  cbn [fst snd] in E. fold data in E.
  assert (Hout : out.1.2.1 = atomic_replace fs full_path data
                 /\ exists file_record, out.2 = Ok file_record).
  { unfold out, write_file. rewrite Hres.
    apply N.ltb_ge in Hup. rewrite Hup, E. cbn [fst snd]. eauto. }
  destruct Hout as [Hfs Hrec]. rewrite Hfs.
  assert (Hnew : Fs.lookup (atomic_replace fs full_path data) full_path
                 = Some (File (Text data))).
  { unfold atomic_replace. rewrite lookup_nonempty by assumption.
    rewrite lookup_delete_ne by apply staging_path_differs.
    apply lookup_insert_eq. }
  assert (Hread :
    read_file config MAX_FILE_SIZE JsonValue Element json_loads json_dumps
      xml_fromstring xml_tostring no_faults relative_path format_type
      (atomic_replace fs full_path data)
    = Done (Names.universal_newlines data)).
  { unfold read_file. rewrite Hres.
    unfold Fs.exists_, Fs.is_file, stat_size, read_text. rewrite Hnew.
    cbn [negb orb stat_fails read_fails no_faults st_size].
    apply N.ltb_ge in Hmax. rewrite Hmax.
    apply String.eqb_neq in Hj, Hx. now rewrite Hj, Hx. }
  split_and!; [exact Hrec|exact Hnew|exact Hread|].
  intros Hplain. rewrite Hread. now rewrite universal_newlines_plain.
Qed.

End WriteReadFacts.

Section InitFacts.

Variable config : Config.

(** X28: the constructor of [FileManager] makes the sandbox root, and
    the directories above it, unless a regular file stands where one
    of them should be. It leaves a directory at the root, changes no
    path that is not the root or above it, and keeps every entry that
    the file system had, with its kind. *)
Theorem init_makes_sandbox_root (fs : FS) :
  (forall q, Fs.is_prefix q (SANDBOX_ROOT config) = true ->
             Fs.is_file fs q = false) ->
  exists fs',
    __init__ config fs = Ok fs'
    /\ Fs.is_dir fs' (SANDBOX_ROOT config) = true
    /\ (forall q, Fs.is_prefix q (SANDBOX_ROOT config) = false ->
                  fs' !! q = fs !! q)
    /\ kept fs fs'.
Proof.
  intros Hfiles. unfold __init__.
  destruct (mkdir_ok fs (SANDBOX_ROOT config) Hfiles) as (fs' & Hm).
  exists fs'. split_and!; [exact Hm| | |].
  - exact (mkdir_is_dir _ _ _ Hm).
  - intros q Hq. rewrite (mkdir_lookup _ _ _ Hm), Hq.
    now rewrite andb_false_r.
  - exact (kept_mkdir _ _ _ Hm).
Qed.

End InitFacts.

(** ** Archives: the caps on a directory source *)

Section CountFacts.

Variable config : Config.

Lemma count_tree_within found : forall total_size file_count t n,
  found <> [] ->
  count_tree config found total_size file_count = Ok (t, n) ->
  (n <= ZIP_MAX_FILES config)%N /\ (t <= ZIP_MAX_TOTAL_SIZE config)%N.
Proof.
  induction found as [|[p c] rest IH]; intros total_size file_count t n Hne;
    [congruence|].
  cbn [count_tree].
  destruct (_ <? _)%N eqn:Hf; [discriminate|].
  destruct (ZIP_MAX_TOTAL_SIZE config <? _)%N eqn:Ht; [discriminate|].
  apply N.ltb_ge in Hf, Ht.
  destruct rest as [|x rest].
  - cbn [count_tree]. now intros [= <- <-].
  - apply IH. discriminate.
Qed.

Lemma count_sources_app fs pre post : forall total_size file_count,
  count_sources config fs (pre ++ post) total_size file_count
  = match count_sources config fs pre total_size file_count with
    | Ok (t, n) => count_sources config fs post t n
    | Raise e => Raise e
    end.
Proof.
  induction pre as [|s pre IH]; intros total_size file_count;
    cbn [app count_sources]; [reflexivity|].
  destruct (resolve_secure_path config s None) as [p|]; cbn; [|reflexivity].
  destruct (Fs.lookup fs p) as [[c|]|]; [apply IH| |reflexivity].
  destruct (count_tree config _ _ _) as [[t n]|]; cbn; [apply IH|reflexivity].
Qed.

(** X29: the two caps of [safe_create_zip] are enforced on what has
    been counted whenever a regular file is found in a source
    directory. So an archive is written from sources of which the
    last is a directory that holds a regular file only if the files
    of all sources are at most [ZIP_MAX_FILES] and their sizes sum
    to at most [ZIP_MAX_TOTAL_SIZE]. *)
Theorem safe_create_zip_directory_source_capped
    (deflated : content -> N) (container_size : list ZipInfo -> N)
    (sources : list string) (source destination : string)
    (source_path result_path : list string) (fs fs' : FS) :
  resolve_secure_path config source None = Ok source_path ->
  Fs.is_dir fs source_path = true ->
  Fs.rglob_files fs source_path <> [] ->
  safe_create_zip config deflated container_size (sources ++ [source])
    destination fs = (fs', Ok result_path) ->
  exists total_size file_count,
    count_sources config fs (sources ++ [source]) 0 0
      = Ok (total_size, file_count)
    /\ (file_count <= ZIP_MAX_FILES config)%N
    /\ (total_size <= ZIP_MAX_TOTAL_SIZE config)%N.
Proof.
  intros Hres Hdir Hfound Hrun. unfold safe_create_zip in Hrun.
  destruct (resolve_secure_path config destination None); [|discriminate].
  destruct (validate_filename config _); [|discriminate].
  destruct (count_sources config fs (sources ++ [source]) 0 0)
    as [[t n]|] eqn:Hcount; [|discriminate].
  exists t, n. split; [reflexivity|].
  rewrite count_sources_app in Hcount.
  destruct (count_sources config fs sources 0 0) as [[t0 n0]|];
    [|discriminate].
  cbn [count_sources] in Hcount. rewrite Hres in Hcount. cbn in Hcount.
  unfold Fs.is_dir in Hdir.
  destruct (Fs.lookup fs source_path) as [[c|]|]; try discriminate.
  destruct (count_tree config _ t0 n0) as [[t1 n1]|] eqn:Htree;
    [|discriminate].
  cbn in Hcount. injection Hcount as <- <-.
  exact (count_tree_within _ _ _ _ _ Hfound Htree).
Qed.

End CountFacts.
(** ** Archives: creation, then extraction *)

Section RoundTripFacts.

Variable config : Config.
Variable deflated : content -> N.
Variable container_size : list ZipInfo -> N.

(** X30: [safe_create_zip] does not test what [safe_extract_zip]
    tests. A regular file whose size divided by its compressed size,
    the quotient rounded to binary64 as [validate_zip_entry] forms it,
    is above [ZIP_MAX_RATIO] is archived without complaint, and the
    archive written is then refused by [safe_extract_zip], whatever
    the destination and the depth: the extraction raises an error of
    the quota kind and touches nothing. *)
Theorem safe_create_zip_output_refused_by_extract
    (source destination : string) (source_path dest_path : list string)
    (fs : FS) (c : content) (name : string) :
  resolve_secure_path config source None = Ok source_path ->
  Fs.lookup fs source_path = Some (File c) ->
  resolve_secure_path config destination None = Ok dest_path ->
  validate_filename config (Fs.name dest_path) = Ok name ->
  Fs.is_dir fs (Fs.parent dest_path) = true ->
  Fs.is_dir fs dest_path = false ->
  source_path <> dest_path ->
  (0 < deflated c)%N ->
  (ZIP_MAX_RATIO config
   < Binary64.true_divide (st_size c) (deflated c))%Q ->
  let made :=
    safe_create_zip config deflated container_size [source] destination fs in
  made.2 = Ok dest_path
  /\ open_zip made.1 dest_path
     = Ok [member deflated (Fs.name source_path) c]
  /\ forall destination' max_depth written,
       exists e,
         safe_extract_zip config dest_path destination' max_depth
           (mkWorld made.1 written)
         = (mkWorld made.1 written, Raise e)
         /\ kind_of e = QuotaExceeded.
Proof.
  intros Hs Hfile Hd Hv Hpar Hnd Hne Hdefl Hratio made.
  assert (Hsne : source_path <> []) by (intros ->; discriminate).
  assert (Hdne : dest_path <> []) by (intros ->; discriminate).
  set (m := member deflated (Fs.name source_path) c).
  assert (Hmade : made = (<[dest_path := File (Binary (container_size [m])
                                                      (Some [m]))]> fs,
                          Ok dest_path)).
  { unfold made, safe_create_zip. rewrite Hd, Hv.
    cbn [count_sources]. rewrite Hs. cbn. rewrite Hfile.
    cbn [count_sources]. unfold Fs.open_w. rewrite Hpar, Hnd. cbn.
    rewrite Hs. cbn.
    rewrite lookup_nonempty, lookup_insert_ne by congruence.
    rewrite lookup_nonempty in Hfile by assumption. rewrite Hfile. cbn.
    now rewrite insert_insert_eq. }
  rewrite Hmade. cbn [fst snd].
  assert (Hopen : open_zip (<[dest_path := File (Binary (container_size [m])
                                                       (Some [m]))]> fs)
                    dest_path = Ok [m]).
  { unfold open_zip. rewrite lookup_nonempty by assumption.
    now rewrite lookup_insert_eq. }
  split_and!; [reflexivity|exact Hopen|].
  intros destination' max_depth written. unfold safe_extract_zip.
  destruct (Z.to_nat _) as [|d]; cbn [safe_extract_zip_depth]; [eauto|].
  cbn [files]. unfold validate_zip_file. rewrite Hopen.
  cbn -[validate_entries].
  assert (Hbad : validate_zip_entry config m
                 = Raise (ArchiveSecurityError RatioTooHigh)).
  { unfold validate_zip_entry. cbn [m member compress_size file_size].
    apply N.ltb_lt in Hdefl. rewrite Hdefl.
    destruct (Qlt_le_dec _ _) as [|Hle]; [reflexivity|].
    exfalso. exact (Qlt_not_le _ _ Hratio Hle). }
  destruct (validate_entries_bad config [m] m _ 0%N 0%N 0%N
              ltac:(now left) Hbad) as (e & He).
  rewrite He. exists e. split; [reflexivity|].
  exact (validate_entries_kind config _ _ _ _ _ He).
Qed.

End RoundTripFacts.
(** ** The properties above, on a small sandbox *)

Lemma validate_zip_file_accepts_witness :
  let zip_path := ["srv"; "sandbox"; "in.zip"] in
  let fs : FS :=
    {[ zip_path :=
         File (Binary 200 (Some [mkZipInfo "a.txt" 10 5 10 None;
                                 mkZipInfo "b.txt" 20 10 20 None])) ]} in
  validate_zip_file default_config fs zip_path = Ok (2, 30, 15)%N.
Proof.
  intros zip_path fs.
  apply (validate_zip_file_accepts default_config fs zip_path
           [mkZipInfo "a.txt" 10 5 10 None; mkZipInfo "b.txt" 20 10 20 None]
           (2, 30, 15)%N eq_refl).
  split_and!; [reflexivity|vm_compute; discriminate| |vm_compute; discriminate].
  repeat constructor.
Defined.


Lemma safe_create_zip_missing_source_witness :
  let fs : FS :=
    {[ ["srv"] := Dir; ["srv"; "sandbox"] := Dir;
       ["srv"; "sandbox"; "a.txt"] := File (Text "hello") ]} in
  exists e,
    safe_create_zip default_config (fun _ => 1%N) (fun _ => 100%N)
      ["a.txt"; "missing.txt"] "out.zip" fs
    = (fs, Raise e).
Proof.
  intros fs.
  destruct (safe_create_zip_missing_source default_config
              (fun _ => 1%N) (fun _ => 100%N)
              ["a.txt"; "missing.txt"] "out.zip" "missing.txt"
              ["srv"; "sandbox"; "missing.txt"] fs
              ltac:(right; left; reflexivity) eq_refl
              ltac:(vm_compute; reflexivity)) as [Hraises _].
  exact Hraises.
Defined.


Lemma create_file_then_read_witness :
  read_file default_config 104857600 unit unit
    (fun _ => None) (fun _ _ => "") (fun _ => None) (fun _ => "") no_faults
    "docs/new.txt" "text"
    (create_file default_config (list FileRecord) sample_user sample_create
       no_faults "docs/new.txt" 7 "data" idle (sample_fs, [])).1.2.1
  = Done "data".
Proof.
  destruct (create_file_then_read default_config eq_refl 104857600
           (list FileRecord) sample_user sample_create unit unit
           (fun _ => None) (fun _ _ => "") (fun _ => None) (fun _ => "")
           "docs/new.txt" "data" "text" 7 idle sample_fs []
           ["srv"; "sandbox"; "docs"; "new.txt"] "new.txt"
           eq_refl
           ltac:(vm_compute; reflexivity)
           ltac:(vm_compute; discriminate)
           ltac:(vm_compute; discriminate)
           eq_refl
           ltac:(vm_compute; reflexivity)
           ltac:(apply no_file_above_test; vm_compute; reflexivity)
           eq_refl
           ltac:(discriminate) ltac:(discriminate))
    as (_ & _ & _ & _ & _ & _ & Hread).
  exact (Hread eq_refl).
Defined.

Lemma create_file_refuses_existing_witness :
  exists st',
    create_file default_config (list FileRecord) sample_user sample_create
      no_faults "docs/a.txt" 7 "data" idle (sample_fs, [])
    = (st', (sample_fs, []), Failed FileExistsError).
Proof.
  destruct (create_file_refuses_existing default_config eq_refl
              (list FileRecord) sample_user sample_create no_faults
              "docs/a.txt" "data" 7 idle sample_fs []
              ["srv"; "sandbox"; "docs"; "a.txt"] "a.txt"
              eq_refl
              ltac:(vm_compute; reflexivity)
              ltac:(vm_compute; discriminate)
              eq_refl
              ltac:(vm_compute; reflexivity)) as (st' & E & _).
  exists st'. exact E.
Defined.

Lemma create_file_unknown_user_leaves_file_witness :
  let out :=
    create_file default_config (list FileRecord) sample_user sample_create
      no_faults "docs/new.txt" 8 "data" idle (sample_fs, []) in
  out.2 = Failed (ValueErrorOf UserNotFound)
  /\ Fs.lookup out.1.2.1 ["srv"; "sandbox"; "docs"; "new.txt"]
     = Some (File (Text "data")).
Proof.
  destruct (create_file_unknown_user_leaves_file default_config eq_refl
              (list FileRecord) sample_user sample_create
              "docs/new.txt" "data" 8 idle sample_fs []
              ["srv"; "sandbox"; "docs"; "new.txt"] "new.txt"
              eq_refl
              ltac:(vm_compute; reflexivity)
              ltac:(vm_compute; discriminate)
              eq_refl
              ltac:(vm_compute; reflexivity)
              ltac:(apply no_file_above_test; vm_compute; reflexivity)
              eq_refl) as (Hr & _ & Hfile & _).
  split; assumption.
Defined.

Lemma delete_file_removes_the_file_only_witness :
  let out :=
    delete_file default_config (list FileRecord) (fun _ _ db => db) no_faults
      "docs/a.txt" 7 idle (sample_fs, []) in
  out.2 = Done tt
  /\ out.1.2.1 = delete ["srv"; "sandbox"; "docs"; "a.txt"] sample_fs.
Proof.
  destruct (delete_file_removes_the_file_only default_config eq_refl
              104857600 (list FileRecord) (fun _ _ db => db) unit unit
              (fun _ => None) (fun _ _ => "") (fun _ => None) (fun _ => "")
              no_faults "docs/a.txt" 7 idle sample_fs []
              ["srv"; "sandbox"; "docs"; "a.txt"] eq_refl eq_refl)
    as (_ & Hfile & _).
  destruct (Hfile ltac:(vm_compute; reflexivity) eq_refl) as (Hr & Hfs & _).
  split; assumption.
Defined.

Lemma create_directory_then_delete_witness :
  (delete_directory default_config "docs/new" false
     (create_directory default_config "docs/new" idle sample_fs).1.1
     (create_directory default_config "docs/new" idle sample_fs).1.2).1.2
  = sample_fs.
Proof.
  apply (create_directory_then_delete default_config eq_refl "docs/new"
           idle sample_fs ["srv"; "sandbox"; "docs"; "new"]
           eq_refl eq_refl
           ltac:(apply well_formed_test; vm_compute; reflexivity)
           ltac:(vm_compute; reflexivity)
           ltac:(vm_compute; reflexivity)).
Defined.

Lemma delete_directory_refuses_nonempty_witness :
  exists st',
    delete_directory default_config "docs" false idle sample_fs
    = (st', sample_fs, Failed (ValueErrorOf DirectoryNotEmpty)).
Proof.
  destruct (delete_directory_refuses_nonempty default_config eq_refl "docs"
              idle sample_fs ["srv"; "sandbox"; "docs"] "a.txt"
              (File (Text "hello"))
              eq_refl eq_refl
              ltac:(vm_compute; reflexivity)
              ltac:(vm_compute; reflexivity)) as (st' & E & _).
  exists st'. exact E.
Defined.

Lemma delete_directory_recursive_removes_subtree_witness :
  let out := delete_directory default_config "docs" true idle sample_fs in
  out.2 = Done tt
  /\ out.1.2 !! ["srv"; "sandbox"; "docs"; "a.txt"] = None
  /\ out.1.2 !! ["srv"; "sandbox"; "b.txt"] = Some (File (Text "bye")).
Proof.
  destruct (delete_directory_recursive_removes_subtree default_config eq_refl
              "docs" idle sample_fs ["srv"; "sandbox"; "docs"]
              eq_refl eq_refl
              ltac:(vm_compute; reflexivity)
              ltac:(discriminate)) as (Hr & Hfs & _).
  split_and!; [exact Hr| |].
  - exact (Hfs ["srv"; "sandbox"; "docs"; "a.txt"]).
  - etransitivity; [exact (Hfs ["srv"; "sandbox"; "b.txt"])|].
    vm_compute. reflexivity.
Defined.

Lemma delete_directory_dot_removes_sandbox_root_witness :
  let out := delete_directory default_config "." true idle sample_fs in
  out.2 = Done tt
  /\ list_directory default_config "." out.1.2 = Failed NotADirectoryError.
Proof.
  destruct (delete_directory_dot_removes_sandbox_root default_config eq_refl
              idle sample_fs
              ltac:(discriminate)
              ltac:(vm_compute; reflexivity)
              eq_refl) as (Hr & _ & _ & Hlist).
  split; assumption.
Defined.

Lemma list_directory_sorted_witness :
  exists items,
    list_directory default_config "." sample_fs = Done items
    /\ mkItem "docs" "directory" None ∈ items
    /\ mkItem "b.txt" "file" (Some 3%N) ∈ items.
Proof.
  destruct (list_directory_sorted default_config "." sample_fs
              ["srv"; "sandbox"] eq_refl ltac:(vm_compute; reflexivity))
    as (items & E & _ & Hin & _).
  exists items. split_and!; [exact E| |].
  - apply Hin. exists "docs", Dir.
    split_and!; [vm_compute; reflexivity|reflexivity|reflexivity].
  - apply Hin. exists "b.txt", (File (Text "bye")).
    split_and!; [vm_compute; reflexivity|reflexivity|reflexivity].
Defined.

Lemma move_onto_itself_witness :
  exists st',
    move default_config "docs/a.txt" "docs/../docs/a.txt" idle sample_fs
    = (st', sample_fs, Failed (Core TimeoutError)).
Proof.
  destruct (move_onto_itself default_config eq_refl
              "docs/a.txt" "docs/../docs/a.txt" idle sample_fs
              ["srv"; "sandbox"; "docs"; "a.txt"] eq_refl eq_refl)
    as (st' & E & _).
  exists st'. exact E.
Defined.

Lemma move_refuses_missing_source_and_existing_destination_witness :
  let out := move default_config "docs/a.txt" "b.txt" idle sample_fs in
  out.2 = Failed FileExistsError /\ out.1.2 = sample_fs.
Proof.
  destruct (move_refuses_missing_source_and_existing_destination
              default_config eq_refl "docs/a.txt" "b.txt" idle sample_fs
              ["srv"; "sandbox"; "docs"; "a.txt"] ["srv"; "sandbox"; "b.txt"]
              eq_refl eq_refl ltac:(discriminate) eq_refl eq_refl)
    as (_ & _ & Hexists).
  apply Hexists; vm_compute; reflexivity.
Defined.

Lemma move_relocates_subtree_witness :
  let out := move default_config "docs" "old/papers" idle sample_fs in
  out.2 = Done tt
  /\ out.1.2 !! ["srv"; "sandbox"; "old"; "papers"; "a.txt"]
     = Some (File (Text "hello"))
  /\ out.1.2 !! ["srv"; "sandbox"; "docs"; "a.txt"] = None
  /\ out.1.2 !! ["srv"; "sandbox"; "old"] = Some Dir.
Proof.
  destruct (move_relocates_subtree default_config eq_refl
              "docs" "old/papers" idle sample_fs
              ["srv"; "sandbox"; "docs"] ["srv"; "sandbox"; "old"; "papers"]
              eq_refl eq_refl eq_refl eq_refl
              ltac:(apply well_formed_test; vm_compute; reflexivity)
              ltac:(vm_compute; reflexivity)
              ltac:(vm_compute; reflexivity)
              ltac:(apply no_file_above_test; vm_compute; reflexivity)
              ltac:(vm_compute; reflexivity)) as (Hr & _ & Hfs).
  split_and!; [exact Hr|..].
  - etransitivity;
      [exact (Hfs ["srv"; "sandbox"; "old"; "papers"; "a.txt"])|].
    vm_compute. reflexivity.
  - etransitivity; [exact (Hfs ["srv"; "sandbox"; "docs"; "a.txt"])|].
    vm_compute. reflexivity.
  - etransitivity; [exact (Hfs ["srv"; "sandbox"; "old"])|].
    vm_compute. reflexivity.
Defined.

Lemma safe_extract_zip_keeps_entries_witness :
  let zip_path := ["srv"; "sandbox"; "in.zip"] in
  let w :=
    mkWorld (<[zip_path :=
                 File (Binary 200 (Some [mkZipInfo "docs/a.txt" 5 5 5 None]))]>
               sample_fs) [] in
  exists nd',
    files (safe_extract_zip default_config zip_path "." None w).1
      !! ["srv"; "sandbox"; "docs"; "a.txt"] = Some nd'
    /\ same_kind (File (Text "hello")) nd' = true.
Proof.
  intros zip_path w.
  apply (safe_extract_zip_keeps_entries default_config zip_path "." None w
           ["srv"; "sandbox"; "docs"; "a.txt"] (File (Text "hello"))).
  vm_compute. reflexivity.
Defined.

Lemma extract_zip_resolves_destination_twice_witness :
  let zip_path := ["srv"; "sandbox"; "in.zip"] in
  let w :=
    mkWorld (<[zip_path :=
                 File (Binary 200 (Some [mkZipInfo "c.txt" 5 5 5 None]))]>
               sample_fs) [] in
  (extract_zip default_config "in.zip" "out" w).2
    = Done [["srv"; "sandbox"; "srv"; "sandbox"; "out"; "c.txt"]]
  /\ Fs.is_dir (files (extract_zip default_config "in.zip" "out" w).1)
       ["srv"; "sandbox"; "srv"; "sandbox"; "out"] = true.
Proof.
  intros zip_path w.
  assert (Hdone : (extract_zip default_config "in.zip" "out" w).2
                  = Done [["srv"; "sandbox"; "srv"; "sandbox"; "out"; "c.txt"]])
    by (vm_compute; reflexivity).
  split; [exact Hdone|].
  destruct (extract_zip_resolves_destination_twice default_config eq_refl
              "in.zip" "out" w zip_path ["srv"; "sandbox"; "out"]
              eq_refl eq_refl) as (_ & _ & Hdir & _).
  exact (Hdir _ Hdone).
Defined.

Lemma create_zip_resolves_paths_twice_witness :
  create_zip default_config (list FileRecord) sample_create
    (fun _ => 1%N) (fun _ => 100%N) no_faults
    "out.zip" ["b.txt"] 7 (sample_fs, [])
  = ((sample_fs, []), Failed (ValueErrorOf (ArchiveRefused SourceNotFound))).
Proof.
  destruct (create_zip_resolves_paths_twice default_config eq_refl
              (list FileRecord) sample_create (fun _ => 1%N) (fun _ => 100%N)
              no_faults "out.zip" "b.txt" [] 7 sample_fs []
              ["srv"; "sandbox"; "out.zip"] ["srv"; "sandbox"; "b.txt"] []
              "out.zip" eq_refl eq_refl eq_refl
              ltac:(vm_compute; reflexivity)) as [Hmissing _].
  apply Hmissing. vm_compute. reflexivity.
Defined.

Lemma write_file_then_read_witness :
  read_file default_config 104857600 unit unit
    (fun _ => None) (fun _ _ => "") (fun _ => None) (fun _ => "") no_faults
    "docs/a.txt" "text"
    (write_file default_config (list FileRecord) sample_create no_faults
       "docs/a.txt" " world" 7 true idle (sample_fs, [])).1.2.1
  = Done "hello world".
Proof.
  destruct (write_file_then_read default_config eq_refl 104857600
           (list FileRecord) sample_create unit unit
           (fun _ => None) (fun _ _ => "") (fun _ => None) (fun _ => "")
           "docs/a.txt" " world" "text" "hello" 7 true idle sample_fs []
           ["srv"; "sandbox"; "docs"; "a.txt"]
           eq_refl
           ltac:(vm_compute; discriminate)
           eq_refl
           ltac:(vm_compute; reflexivity)
           ltac:(vm_compute; reflexivity)
           ltac:(vm_compute; reflexivity)
           ltac:(vm_compute; discriminate)
           ltac:(discriminate) ltac:(discriminate))
    as (_ & _ & _ & Hread).
  exact (Hread eq_refl).
Defined.

Lemma init_makes_sandbox_root_witness :
  exists fs',
    __init__ default_config ∅ = Ok fs'
    /\ Fs.is_dir fs' ["srv"; "sandbox"] = true.
Proof.
  destruct (init_makes_sandbox_root default_config ∅
              ltac:(apply no_file_above_test; vm_compute; reflexivity))
    as (fs' & E & Hdir & _).
  exists fs'. split; assumption.
Defined.

Lemma safe_create_zip_directory_source_capped_witness :
  exists total_size file_count,
    count_sources default_config sample_fs (["b.txt"] ++ ["docs"]) 0 0
      = Ok (total_size, file_count)
    /\ (file_count <= ZIP_MAX_FILES default_config)%N.
Proof.
  set (made := safe_create_zip default_config (fun _ => 1%N) (fun _ => 100%N)
                 (["b.txt"] ++ ["docs"]) "out.zip" sample_fs).
  assert (Hpath : made.2 = Ok ["srv"; "sandbox"; "out.zip"])
    by (vm_compute; reflexivity).
  assert (Hrun : made = (made.1, Ok ["srv"; "sandbox"; "out.zip"]))
    by (rewrite <- Hpath; apply surjective_pairing).
  destruct (safe_create_zip_directory_source_capped default_config
              (fun _ => 1%N) (fun _ => 100%N) ["b.txt"] "docs" "out.zip"
              ["srv"; "sandbox"; "docs"] ["srv"; "sandbox"; "out.zip"]
              sample_fs made.1 eq_refl
              ltac:(vm_compute; reflexivity)
              ltac:(vm_compute; discriminate)
              Hrun) as (t & n & E & Hn & _).
  exists t, n. split; assumption.
Defined.

Lemma safe_create_zip_output_refused_by_extract_witness :
  let fs : FS :=
    {[ ["srv"] := Dir; ["srv"; "sandbox"] := Dir;
       ["srv"; "sandbox"; "zeros.bin"] := File (Binary 1000000 None) ]} in
  let made :=
    safe_create_zip default_config (fun _ => 1000%N) (fun _ => 1200%N)
      ["zeros.bin"] "out.zip" fs in
  made.2 = Ok ["srv"; "sandbox"; "out.zip"]
  /\ exists e,
       safe_extract_zip default_config ["srv"; "sandbox"; "out.zip"] "out"
         None (mkWorld made.1 [])
       = (mkWorld made.1 [], Raise e)
       /\ kind_of e = QuotaExceeded.
Proof.
  intros fs made.
  destruct (safe_create_zip_output_refused_by_extract default_config
              (fun _ => 1000%N) (fun _ => 1200%N) "zeros.bin" "out.zip"
              ["srv"; "sandbox"; "zeros.bin"] ["srv"; "sandbox"; "out.zip"]
              fs (Binary 1000000 None) "out.zip"
              eq_refl
              ltac:(vm_compute; reflexivity)
              eq_refl
              ltac:(vm_compute; reflexivity)
              ltac:(vm_compute; reflexivity)
              ltac:(vm_compute; reflexivity)
              ltac:(discriminate)
              ltac:(vm_compute; reflexivity)
              ltac:(vm_compute; reflexivity)) as (Hr & _ & Hrefused).
  split; [exact Hr|]. apply Hrefused.
Defined.
